(** * Dedekind: a linear delay filter (src/dedekind.py)

    A shallow embedding of [linear_filter_matrix] and [dedekind] and the
    properties of the specification checked against it.

    Conventions of the embedding.
    - numpy's float64 and complex128 are idealised as exact real and
      complex numbers ([R], and [C] = pairs of reals): rounding, NaN and
      infinities are not modelled.
    - numpy arrays, Python lists and dictionaries are objects in a heap,
      addressed by their position; a Python name holds an address.  An
      object that the code updates in place, stores or returns lives in
      the heap; an intermediate array that is only read is a value.
    - a Python exception is an explicit result; the heap reached when it
      is raised is kept.
    - [np.linalg.pinv] and [scipy.signal.windows.get_window] are external:
      they are parameters of the program. *)

From Stdlib Require Import Reals Lra Lia List String ZArith Bool.
From stdpp Require Import base list.
Import ListNotations.
Open Scope R_scope.

(** ** Scalars *)

(** complex128, idealised: a pair of exact reals.  A statement on values
    says which formula the code evaluates, not how far float64 is from
    it. *)
Definition C : Type := (R * R)%type.

Definition RtoC (x : R) : C := (x, 0).
Definition C0 : C := (0, 0).
Definition C1 : C := (1, 0).
Definition Cadd (a b : C) : C := (a.1 + b.1, a.2 + b.2).
Definition Cmul (a b : C) : C :=
  (a.1 * b.1 - a.2 * b.2, a.1 * b.2 + a.2 * b.1).
(** complex divided by real *)
Definition Cdivr (a : C) (r : R) : C := (a.1 / r, a.2 / r).
(** [np.exp(1j * theta)] *)
Definition expi (theta : R) : C := (cos theta, sin theta).
(** [np.sinc]: the normalised sinc, [sin(pi x)/(pi x)], 1 at 0 *)
Definition np_sinc (x : R) : R :=
  if Req_dec_T x 0 then 1 else sin (PI * x) / (PI * x).

Definition b2r (b : bool) : R := if b then 1 else 0.

Fixpoint Rsum (l : list R) : R :=
  match l with
  | [] => 0
  | x :: l' => x + Rsum l'
  end.

Fixpoint Csum (l : list C) : C :=
  match l with
  | [] => C0
  | x :: l' => Cadd x (Csum l')
  end.

(** ** Python results *)

Inductive exn : Type :=
| IndexError | NameError | UnboundLocalError | ValueError
| ZeroDivisionError | TypeError | KeyError
| WindowError (* raised by the external window generator *).

Inductive result (A : Type) : Type :=
| Ok (a : A)
| Raise (e : exn).
Arguments Ok {A} a.
Arguments Raise {A} e.

Definition rbind {A B} (r : result A) (f : A -> result B) : result B :=
  match r with
  | Ok a => f a
  | Raise e => Raise e
  end.

(** ** Arrays *)

Abbreviation matrix := (list (list C)).

(** [np.arange(-nf/2, nf/2)]: [nf] values starting at [-nf/2] (true
    division), step 1. *)
Definition arange_sym (nf : nat) : list R :=
  map (fun i => INR i - INR nf / 2) (seq 0 nf).

(** [l[i]] on a 1-D array *)
Definition index {A} (l : list A) (i : nat) : result A :=
  match l !! i with
  | Some x => Ok x
  | None => Raise IndexError
  end.

(** [fx - fy] for [fx, fy = np.meshgrid(v, v)]: with the default 'xy'
    indexing [fx[i,j] = v[j]] and [fy[i,j] = v[i]]. *)
Definition meshgrid_diff (v : list R) : list (list R) :=
  map (fun vi => map (fun vj => vj - vi) v) v.

Definition zeros (n : nat) : matrix := replicate n (replicate n C0).

Definition identity (n : nat) : matrix :=
  map (fun i => map (fun j => if Nat.eqb i j then C1 else C0) (seq 0 n))
      (seq 0 n).

Definition np_diag (d : list C) : matrix :=
  imap (fun i _ => imap (fun j x => if Nat.eqb i j then x else C0) d) d.

Definition mat_zip {A B D} (f : A -> B -> D)
    (X : list (list A)) (Y : list (list B)) : list (list D) :=
  zip_with (zip_with f) X Y.

Definition mat_add (X Y : matrix) : matrix := mat_zip Cadd X Y.

(** An [n x n] array combined elementwise with a 1-D sequence [w], by
    numpy's broadcasting: [w] is aligned with the last axis (the columns)
    when it has [n] entries, is a scalar when it has one entry, and the
    shapes are incompatible otherwise. *)
Definition bcast_cols {A B D} (f : A -> B -> D) (n : nat)
    (X : list (list A)) (w : list B) : result (list (list D)) :=
  if Nat.eqb (length w) n then Ok (map (fun row => zip_with f row w) X)
  else match w with
       | [w0] => Ok (map (map (fun x => f x w0)) X)
       | _ => Raise ValueError
       end.

(** Two 1-D arrays combined elementwise, with broadcasting. *)
Definition bcast_vec {A B D} (f : A -> B -> D)
    (u : list A) (v : list B) : result (list D) :=
  if Nat.eqb (length u) (length v) then Ok (zip_with f u v)
  else match u, v with
       | [u0], _ => Ok (map (f u0) v)
       | _, [v0] => Ok (map (fun x => f x v0) u)
       | _, _ => Raise ValueError
       end.

(** [M[:, flags] = 0.] and [M[flags, :] = 0.] for a boolean mask of the
    right length. *)
Definition zero_cols (flags : list bool) (M : matrix) : matrix :=
  map (fun row => zip_with (fun (f : bool) x => if f then C0 else x) flags row) M.

Definition zero_rows (flags : list bool) (M : matrix) : matrix :=
  zip_with (fun (f : bool) row => if f then map (fun _ => C0) row else row)
           flags M.

(** [np.where(flags)[0]]: the positions of the set flags, ascending. *)
Definition np_where (flags : list bool) : list nat :=
  omap (fun p : nat * bool => if p.2 then Some p.1 else None)
       (zip (seq 0 (length flags)) flags).

(** [np.dot(M, v)] for a square [M]: the shapes must agree. *)
Definition np_dot (M : matrix) (v : list C) : result (list C) :=
  if Nat.eqb (length M) (length v)
  then Ok (map (fun row => Csum (zip_with Cmul row v)) M)
  else Raise ValueError.

(** The discrete Fourier sum with sign [sgn] in the exponent:
    [sum_m v[m] * exp(sgn * 2 pi i * k * m / n)]. *)
Definition dft_sum (sgn : R) (v : list C) (k : nat) : C :=
  Csum (imap (fun m x =>
          Cmul x (expi (sgn * (2 * PI * INR k * INR m / INR (length v))))) v).

(** [numpy.fft.fft]; an empty input is refused. *)
Definition fft (v : list C) : result (list C) :=
  match v with
  | [] => Raise ValueError
  | _ => Ok (map (dft_sum (-1) v) (seq 0 (length v)))
  end.

(** [numpy.fft.ifft] *)
Definition ifft (v : list C) : result (list C) :=
  match v with
  | [] => Raise ValueError
  | _ => Ok (map (fun m => Cdivr (dft_sum 1 v m) (INR (length v)))
                 (seq 0 (length v)))
  end.

(** [numpy.fft.fftshift]: rotate right by [n // 2]. *)
Definition fftshift {A} (v : list A) : list A :=
  let k := (length v - length v / 2)%nat in
  drop k v ++ take k v.

(** [numpy.fft.fftfreq(n, d)] *)
Definition fftfreq (n : nat) (d : R) : list R :=
  map (fun i => (if Nat.ltb i ((n - 1) / 2 + 1) then INR i else INR i - INR n)
                * (1 / (INR n * d)))
      (seq 0 n).

Definition mean (l : list R) : R := Rsum l / INR (length l).

(** ** The heap of Python objects *)

Abbreviation addr := nat.

(** A cache key: the tuple [wkey].  Python compares the entries of a
    tuple with [==], which on numbers (int, float, bool, numpy scalars)
    compares numeric values, so an entry is represented by its value. *)
Abbreviation key := (list R).

Abbreviation dict := (list (list R * nat)).

Inductive obj : Type :=
| RVec (v : list R)      (* 1-D float array, or a list of floats *)
| CVec (v : list C)      (* 1-D complex array *)
| BVec (v : list bool)   (* 1-D boolean array *)
| CMat (m : matrix)      (* 2-D array *)
| Dict (d : dict).

Abbreviation heap := (list obj).

#[global] Instance R_eq_dec : EqDecision R := Req_dec_T.

Fixpoint dict_get (k : key) (d : dict) : option addr :=
  match d with
  | [] => None
  | (k', a) :: d' => if decide (k = k') then Some a else dict_get k d'
  end.

(** [k in d] *)
Definition dict_mem (k : key) (d : dict) : bool :=
  match dict_get k d with Some _ => true | None => false end.

(** [d[k] = a] *)
Definition dict_set (k : key) (a : addr) (d : dict) : dict :=
  (k, a) :: filter (fun p : key * addr => p.1 <> k) d.

(** ** The monad of heap-passing computations that may raise *)

Definition M (A : Type) : Type := heap -> result A * heap.

Definition ret {A} (a : A) : M A := fun h => (Ok a, h).
Definition raise {A} (e : exn) : M A := fun h => (Raise e, h).
Definition bind {A B} (m : M A) (f : A -> M B) : M B :=
  fun h => match m h with
           | (Ok a, h') => f a h'
           | (Raise e, h') => (Raise e, h')
           end.
Definition lift {A} (r : result A) : M A := fun h => (r, h).

Notation "'let!' x ':=' m 'in' k" := (bind m (fun x => k))
  (at level 10, x name, m at level 100, k at level 200).
Notation "m ';;' k" := (bind m (fun _ => k))
  (at level 100, k at level 200, right associativity).

(** a new object; its address is the next free one *)
Definition alloc (o : obj) : M addr := fun h => (Ok (length h), h ++ [o]).
(** an update in place *)
Definition put (a : addr) (o : obj) : M unit := fun h => (Ok tt, <[a := o]> h).

Definition get_rvec (a : addr) : M (list R) :=
  fun h => match h !! a with Some (RVec v) => (Ok v, h) | _ => (Raise TypeError, h) end.
Definition get_cvec (a : addr) : M (list C) :=
  fun h => match h !! a with Some (CVec v) => (Ok v, h) | _ => (Raise TypeError, h) end.
Definition get_bvec (a : addr) : M (list bool) :=
  fun h => match h !! a with Some (BVec v) => (Ok v, h) | _ => (Raise TypeError, h) end.
Definition get_mat (a : addr) : M matrix :=
  fun h => match h !! a with Some (CMat m) => (Ok m, h) | _ => (Raise TypeError, h) end.
Definition get_dict (a : addr) : M dict :=
  fun h => match h !! a with Some (Dict d) => (Ok d, h) | _ => (Raise TypeError, h) end.

(** [for x in l: body x] *)
Fixpoint for_each {A} (l : list A) (body : A -> M unit) : M unit :=
  match l with
  | [] => ret tt
  | x :: l' => body x ;; for_each l' body
  end.

(** ** The program *)

(** [WMAT_CACHE = {}]: the module creates the dictionary when it is
    loaded; it is the first object of the heap. *)
Definition WMAT_CACHE : addr := 0%nat.
Definition initial_heap : heap := [Dict []].

(** line 32, the summand: [patch_w] and [patch_c] are the whole lists. *)
Definition continuous_term (nf : nat) (freqs pc pw : list R) (ff : R)
    : result matrix :=
  let D := meshgrid_diff freqs in
  rbind (bcast_cols (fun d w => RtoC (np_sinc (2 * d * w))) nf D pw) (fun S =>
  rbind (bcast_cols (fun d c => expi (-2 * PI * d * c)) nf D pc) (fun E =>
  Ok (mat_zip (fun s e => Cdivr (Cmul s e) ff) S E))).

(** lines 28-33 *)
Definition build_continuous (nf : nat) (freqs pc pw : list R) (ff : R)
    : M addr :=
  let! a := alloc (CMat (zeros nf)) in
  for_each (zip pc pw) (fun _ =>
    if Rlt_dec 0 ff then
      let! t := lift (continuous_term nf freqs pc pw ff) in
      let! m := get_mat a in
      put a (CMat (mat_add m t))
    else ret tt) ;;
  let! m := get_mat a in
  alloc (CMat (mat_add m (identity (length freqs)))).

(** lines 35-43: line 41 binds [imag] and [jmat], line 42 reads [imat],
    a name bound nowhere in the module. *)
Definition build_discrete (nf : nat) (df : R) (pc pw : list R) (ff : R)
    : M addr :=
  let delays := fftshift (fftfreq nf df) in
  let! d := alloc (CVec (replicate nf (RtoC ff))) in
  for_each (zip pc pw) (fun p =>
    if Req_dec_T p.2 0 then raise ZeroDivisionError
    else
      let! v := get_cvec d in
      put d (CVec (zip_with (fun tau x =>
                     if Rle_dec (Rabs (tau - p.1)) p.2
                     then Cadd x (RtoC (1 / 2 / p.2)) else x) delays v))) ;;
  let! v := get_cvec d in
  let! a := alloc (CMat (np_diag v)) in
  raise NameError.

(** lines 45-46 (and 87-88) *)
Definition zero_flagged (a : addr) (flags : list bool) : M unit :=
  let! m := get_mat a in
  (if Nat.eqb (length flags) (length m) then ret tt else raise IndexError) ;;
  put a (CMat (zero_cols flags m)) ;;
  let! m := get_mat a in
  put a (CMat (zero_rows flags m)).

(** lines 24-25: the cache key, one flat tuple *)
Definition make_wkey (nf : nat) (d ff : R) (zero_flags discrete_ft : bool)
    (fl : list bool) (pc pw : list R) : key :=
  [INR nf; d; ff; b2r zero_flags; b2r discrete_ft]
  ++ map INR (np_where fl) ++ pc ++ pw.

Section Program.

Variable pinv : matrix -> matrix.
Variable get_window : string -> nat -> result (list R).

(** lines 27-46: the matrix handed to [np.linalg.pinv] *)
Definition build_inverse_filter (nf : nat) (df : R) (freqs pc pw : list R)
    (ff : R) (zero_flags : bool) (fl : list bool) (discrete_ft : bool)
    : M addr :=
  let! inv := (if negb discrete_ft then build_continuous nf freqs pc pw ff
          else build_discrete nf df pc pw ff) in
  (if zero_flags then zero_flagged inv fl else ret tt) ;;
  ret inv.

Definition linear_filter_matrix (nf : nat) (df : R) (patch_c patch_w : addr)
    (filter_factor : R) (zero_flags : bool) (flags : addr) (cache : addr)
    (discrete_ft : bool) : M addr :=
  let freqs := map (fun x => x * df) (arange_sym nf) in
  let! f1 := lift (index freqs 1) in
  let! f0 := lift (index freqs 0) in
  let! fl := get_bvec flags in
  let! pc := get_rvec patch_c in
  let! pw := get_rvec patch_w in
  let wkey := make_wkey nf (f1 - f0) filter_factor zero_flags discrete_ft
                fl pc pw in
  let! d := get_dict WMAT_CACHE in
  (if dict_mem wkey d then ret tt
   else
     let! inv := build_inverse_filter nf df freqs pc pw filter_factor
              zero_flags fl discrete_ft in
     let! m := get_mat inv in
     let! filter_mat := alloc (CMat (pinv m)) in
     let! d := get_dict WMAT_CACHE in
     put WMAT_CACHE (Dict (dict_set wkey filter_mat d))) ;;
  let! d := get_dict WMAT_CACHE in
  match dict_get wkey d with
  | Some a => ret a
  | None => raise KeyError
  end.

(** lines 84-91: the weight operator, or no binding of [wmat] at all *)
Definition select_weights (nf : nat) (freqs flags : addr) (filter_factor : R)
    (patch_c patch_w : addr) (weights : string) (zero_flags : bool)
    (cache : addr) : M (option addr) :=
  if String.eqb weights "I" then
    let! wmat := alloc (CMat (identity nf)) in
    (if zero_flags then let! fl := get_bvec flags in zero_flagged wmat fl
     else ret tt) ;;
    ret (Some wmat)
  else if String.eqb weights "WTL" then
    let! fv := get_rvec freqs in
    let! f1 := lift (index fv 1) in
    let! f0 := lift (index fv 0) in
    let! wmat := linear_filter_matrix (length fv) (f1 - f0) patch_c patch_w
                   filter_factor zero_flags flags cache false in
    ret (Some wmat)
  else ret None.

(** line 82: [taper /= np.sqrt((taper*taper).mean())] *)
Definition normalise (t : list R) : list R :=
  map (fun x => x / sqrt (mean (map (fun x => x * x) t))) t.

(** lines 81-83: the taper, normalised in place *)
Definition make_taper (taper : string) (nf : nat) : M addr :=
  let! w := lift (get_window taper nf) in
  let! taper := alloc (RVec w) in
  let! t := get_rvec taper in
  put taper (RVec (normalise t)) ;;
  let! t := get_rvec taper in
  let taper_mat := np_diag (map RtoC t) in
  ret taper.

(** lines 92-94: the weight operator applied, the taper, the forward
    transform; [wmat] is unbound when no branch of lines 84-91 ran *)
Definition apply_and_transform (wmat : option addr) (ydata taper : addr)
    : M (list C) :=
  let output := ydata in
  let! wmat := match wmat with
               | Some a => ret a
               | None => raise UnboundLocalError
               end in
  let! W := get_mat wmat in
  let! y := get_cvec output in
  let! output := lift (np_dot W y) in
  let! t := get_rvec taper in
  let! output := lift (bcast_vec (fun x r => Cmul x (RtoC r)) output t) in
  lift (fft output).

(** lines 81-94: from the taper to the forward transform; returns the
    taper and the transformed values *)
Definition forward_stage (nf : nat) (freqs ydata flags : addr)
    (filter_factor : R) (patch_c patch_w : addr) (weights : string)
    (zero_flags : bool) (taper : string) (cache : addr)
    : M (addr * list C) :=
  let! taper := make_taper taper nf in
  let! wmat := select_weights nf freqs flags filter_factor patch_c patch_w
                 weights zero_flags cache in
  let! output := apply_and_transform wmat ydata taper in
  ret (taper, output).

(** lines 107-112.  The quotient of line 108 is Rocq's total division:
    at a zero entry of the taper numpy gives inf or nan (with a warning,
    no exception), which the real numbers do not have, and at a tiny
    entry it magnifies the rounding error of the transforms.  The values
    of this branch are therefore used in statements that compare two runs
    of the same operations, or that are marked as exact arithmetic, and in
    no other. *)
Definition select_domain (nf : nat) (freqs taper : addr) (output : list C)
    (output_domain : string) : M (addr * addr) :=
  if String.eqb output_domain "frequency" then
    let! output := lift (ifft output) in
    let! t := get_rvec taper in
    let! output := lift (bcast_vec Cdivr output t) in
    let! out := alloc (CVec output) in
    ret (freqs, out)
  else
    let! fv := get_rvec freqs in
    let! f1 := lift (index fv 1) in
    let! f0 := lift (index fv 0) in
    let! x := alloc (RVec (map (fun a => a / ((f1 - f0) * INR nf))
                               (arange_sym nf))) in
    let! out := alloc (CVec (fftshift output)) in
    ret (x, out).

Definition dedekind (freqs ydata flags : addr) (filter_factor : R)
    (patch_c patch_w : addr) (weights : string) (zero_flags : bool)
    (output_domain taper : string) (cache : addr) : M (addr * addr) :=
  let! fv := get_rvec freqs in
  let nf := length fv in
  let! p := forward_stage nf freqs ydata flags filter_factor patch_c patch_w
              weights zero_flags taper cache in
  select_domain nf freqs p.1 p.2 output_domain.

End Program.

(** ** The specification's reading of the continuous construction

    Section 4.1 of the specification: the grid [freqs[i] = (i - nf/2) df],
    the differences [freqs[i] - freqs[j]], and one summand for each patch
    [(c, w)] with that patch's own centre and width. *)

Definition spec_freq (nf : nat) (df : R) (i : nat) : R :=
  (INR i - INR nf / 2) * df.

(** the term of one patch [(c, w)] at the frequency difference [d] *)
Definition patch_term (d c w ff : R) : C :=
  Cdivr (Cmul (RtoC (np_sinc (2 * d * w))) (expi (-2 * PI * d * c))) ff.

Definition spec_inv_filter_entry (nf : nat) (df : R) (patches : list (R * R))
    (ff : R) (i j : nat) : C :=
  Cadd (Csum (map (fun p : R * R =>
                patch_term (spec_freq nf df i - spec_freq nf df j)
                                p.1 p.2 ff) patches))
       (if Nat.eqb i j then C1 else C0).

(** The entry [M[i, j]] of a 2-D array. *)
Definition entry (M : matrix) (i j : nat) : option C :=
  match M !! i with
  | Some row => row !! j
  | None => None
  end.

(** ** Instances of the external functions used in the examples *)

(** The pseudo-inverse on the matrices met in the examples (the identity
    and the zero matrix are their own pseudo-inverses). *)
Definition pinv_self (m : matrix) : matrix := m.

(** The 'boxcar' window: all ones; any other name is refused. *)
Definition boxcar_window (name : string) (n : nat) : result (list R) :=
  if String.eqb name "boxcar" then Ok (replicate n 1) else Raise WindowError.

(** The heap of the examples: the module's cache, a private dictionary,
    a frequency axis of two channels, two data vectors that differ in
    channel 0, flag masks, and patch lists. *)
Definition example_heap : heap :=
  [ Dict [];                      (* 0: WMAT_CACHE *)
    Dict [];                      (* 1: a caller's private cache *)
    RVec [100; 101];              (* 2: frequencies, df = 1 *)
    CVec [(0, 0); (0, 0)];        (* 3: data, all zero *)
    CVec [(1, 0); (0, 0)];        (* 4: data, 1 in channel 0 *)
    BVec [false; false];          (* 5: no channel flagged *)
    BVec [true; true];            (* 6: every channel flagged *)
    BVec [false];                 (* 7: a mask for one channel *)
    RVec [];                      (* 8: an empty patch list *)
    RVec [0];                     (* 9: patch centres [0.] *)
    RVec [1] ].                   (* 10: patch widths [1.] *)

(** ** Framing

    [ext h0 h]: the heap [h] is reached from [h0] by allocating objects
    and by updating objects allocated since, or the dictionary
    [WMAT_CACHE]; every other object of [h0] is as it was. *)
Definition ext (h0 h : heap) : Prop :=
  (length h0 <= length h)%nat /\
  forall a : addr, (a < length h0)%nat -> a <> WMAT_CACHE -> h !! a = h0 !! a.

(** A computation that keeps [ext h0] from any heap it is started in. *)
Definition safe {A} (h0 : heap) (m : M A) : Prop :=
  forall h r h', ext h0 h -> m h = (r, h') -> ext h0 h'.

(** The sum of [f 0 .. f (n-1)]. *)
Definition Csum_n (f : nat -> C) (n : nat) : C := Csum (map f (seq 0 n)).

(** The identity with the rows and columns of the flagged channels set
    to zero when [zero_flags] is set: what lines 33 and 44-46 leave when
    no suppression term was added. *)
Definition flagged_identity (nf : nat) (zero_flags : bool)
    (fl : list bool) : matrix :=
  if zero_flags then zero_rows fl (zero_cols fl (identity nf))
  else identity nf.

(** ** The Moore-Penrose conditions

    [np.linalg.pinv] is a parameter of the program; what is known of its
    result [P] for an [n x n] argument [A] are the Penrose conditions, of
    which the second ([P A P = P]) and the third ([A P] Hermitian) are
    used here, entry by entry. *)
Definition Cconj (z : C) : C := (z.1, - z.2).

Definition at_entry (M : matrix) (i j : nat) : C := default C0 (entry M i j).

Definition prod_entry (A B : matrix) (n i j : nat) : C :=
  Csum_n (fun k => Cmul (at_entry A i k) (at_entry B k j)) n.

Definition penrose_reflexive (n : nat) (A P : matrix) : Prop :=
  forall i j, (i < n)%nat -> (j < n)%nat ->
    at_entry P i j
    = Csum_n (fun k => Cmul (at_entry P i k) (prod_entry A P n k j)) n.

Definition penrose_hermitian (n : nat) (A P : matrix) : Prop :=
  forall i j, (i < n)%nat -> (j < n)%nat ->
    prod_entry A P n i j = Cconj (prod_entry A P n j i).

(** ** Further notions used by the properties of the code *)

(** [keeps h0 h]: [h] extends [h0] and every object of [h0], the cache
    included, is as it was. *)
Definition keeps (h0 h : heap) : Prop :=
  (length h0 <= length h)%nat /\
  forall a : addr, (a < length h0)%nat -> h !! a = h0 !! a.

(** A computation that keeps every object of [h0] from any heap that
    does. *)
Definition pure_on {A} (h0 : heap) (m : M A) : Prop :=
  forall h r h', keeps h0 h -> m h = (r, h') -> keeps h0 h'.

(** The data seen through a flag mask: 0 in the flagged channels. *)
Definition mask_flags (fl : list bool) (y : list C) : list C :=
  zip_with (fun (f : bool) x => if f then C0 else x) fl y.

(** The combination [c * u + v] of two data vectors, entry by entry. *)
Definition lincomb (c : C) (u v : list C) : list C :=
  zip_with (fun a b => Cadd (Cmul c a) b) u v.


(** * Properties *)

(** ** Running the monad *)

Lemma ext_refl h : ext h h.
Proof. split; auto. Qed.

Lemma ext_trans h0 h1 h2 : ext h0 h1 -> ext h1 h2 -> ext h0 h2.
Proof.
  intros [L1 E1] [L2 E2]. split; [lia|].
  intros a Ha Hne. rewrite E2 by lia. auto.
Qed.

Lemma safe_ret {A} h0 (a : A) : safe h0 (ret a).
Proof. intros h r h' E H. inversion H; subst; auto. Qed.

Lemma safe_raise {A} h0 e : safe h0 (@raise A e).
Proof. intros h r h' E H. inversion H; subst; auto. Qed.

Lemma safe_lift {A} h0 (x : result A) : safe h0 (lift x).
Proof. intros h r h' E H. inversion H; subst; auto. Qed.

Lemma safe_bind {A B} h0 (m : M A) (f : A -> M B) :
  safe h0 m -> (forall a, safe h0 (f a)) -> safe h0 (bind m f).
Proof.
  intros Hm Hf h r h' E H. unfold bind in H.
  destruct (m h) as [[a|e] h1] eqn:Em.
  - eapply Hf; [|exact H]. eapply Hm; eauto.
  - inversion H; subst. eapply Hm; eauto.
Qed.

Lemma safe_alloc_bind {B} h0 o (f : addr -> M B) :
  (forall a, (length h0 <= a)%nat -> safe h0 (f a)) ->
  safe h0 (bind (alloc o) f).
Proof.
  intros Hf h r h' [L E] H. unfold bind, alloc in H.
  assert (E1 : ext h0 (h ++ [o])).
  { split; [rewrite length_app; lia|].
    intros a Ha Hne. rewrite lookup_app_l by lia. auto. }
  exact (Hf (length h) L _ _ _ E1 H).
Qed.

Lemma safe_alloc h0 o : safe h0 (alloc o).
Proof.
  intros h r h' [L E] H. inversion H; subst.
  split; [rewrite length_app; lia|].
  intros a Ha Hne. rewrite lookup_app_l by lia. auto.
Qed.

Lemma safe_put_fresh h0 a o : (length h0 <= a)%nat -> safe h0 (put a o).
Proof.
  intros La h r h' [L E] H. inversion H; subst.
  split; [rewrite length_insert; lia|].
  intros b Hb Hne. rewrite list_lookup_insert_ne by lia. auto.
Qed.

Lemma safe_put_cache h0 o : safe h0 (put WMAT_CACHE o).
Proof.
  intros h r h' [L E] H. inversion H; subst.
  split; [rewrite length_insert; lia|].
  intros b Hb Hne. rewrite list_lookup_insert_ne by auto. auto.
Qed.

Lemma safe_get_rvec h0 a : safe h0 (get_rvec a).
Proof.
  intros h r h' E H. unfold get_rvec in H.
  destruct (h !! a) as [[]|]; inversion H; subst; auto.
Qed.

Lemma safe_get_cvec h0 a : safe h0 (get_cvec a).
Proof.
  intros h r h' E H. unfold get_cvec in H.
  destruct (h !! a) as [[]|]; inversion H; subst; auto.
Qed.

Lemma safe_get_bvec h0 a : safe h0 (get_bvec a).
Proof.
  intros h r h' E H. unfold get_bvec in H.
  destruct (h !! a) as [[]|]; inversion H; subst; auto.
Qed.

Lemma safe_get_mat h0 a : safe h0 (get_mat a).
Proof.
  intros h r h' E H. unfold get_mat in H.
  destruct (h !! a) as [[]|]; inversion H; subst; auto.
Qed.

Lemma safe_get_dict h0 a : safe h0 (get_dict a).
Proof.
  intros h r h' E H. unfold get_dict in H.
  destruct (h !! a) as [[]|]; inversion H; subst; auto.
Qed.

Lemma safe_for_each {A} h0 (l : list A) (body : A -> M unit) :
  (forall x, safe h0 (body x)) -> safe h0 (for_each l body).
Proof.
  intros Hb. induction l as [|x l IH]; simpl.
  - apply safe_ret.
  - apply safe_bind; auto.
Qed.

Lemma safe_if {A} h0 (b : bool) (m1 m2 : M A) :
  safe h0 m1 -> safe h0 m2 -> safe h0 (if b then m1 else m2).
Proof. destruct b; auto. Qed.

Lemma safe_sumbool {A} {P Q : Prop} h0 (b : {P} + {Q}) (m1 m2 : M A) :
  safe h0 m1 -> safe h0 m2 -> safe h0 (if b then m1 else m2).
Proof. destruct b; auto. Qed.

Create HintDb safe_db.
#[export] Hint Resolve safe_ret safe_raise safe_lift safe_alloc
  safe_put_cache safe_get_rvec safe_get_cvec safe_get_bvec safe_get_mat
  safe_get_dict safe_if safe_sumbool : safe_db.

(** Steps through a computation, one bind at a time. *)
Ltac safe_step :=
  first
    [ apply safe_alloc_bind; intros ? ?
    | apply safe_bind; [|intros ?]
    | apply safe_for_each; intros ?
    | apply safe_put_fresh; lia
    | apply safe_if
    | apply safe_sumbool
    | solve [auto with safe_db] ].

Lemma safe_zero_flagged h0 a fl :
  (length h0 <= a)%nat -> safe h0 (zero_flagged a fl).
Proof. intros La. unfold zero_flagged. repeat safe_step. Qed.

Lemma safe_build_continuous h0 nf freqs pc pw ff :
  safe h0 (build_continuous nf freqs pc pw ff).
Proof. unfold build_continuous. repeat safe_step. Qed.

Lemma safe_build_discrete h0 nf df pc pw ff :
  safe h0 (build_discrete nf df pc pw ff).
Proof. unfold build_discrete. repeat safe_step. Qed.

Lemma safe_bind_fresh {B} h0 (m : M addr) (f : addr -> M B) :
  safe h0 m ->
  (forall h a h', ext h0 h -> m h = (Ok a, h') -> (length h0 <= a)%nat) ->
  (forall a, (length h0 <= a)%nat -> safe h0 (f a)) ->
  safe h0 (bind m f).
Proof.
  intros Hm Hfresh Hf h r h' E H. unfold bind in H.
  destruct (m h) as [[a|e] h1] eqn:Em.
  - eapply Hf; [eapply Hfresh; eauto|eapply Hm; eauto|exact H].
  - inversion H; subst. eapply Hm; eauto.
Qed.

(** The discrete construction never returns: whatever the arguments and
    the heap, it ends in an exception. *)
Lemma build_discrete_raises nf df pc pw ff h r h' :
  build_discrete nf df pc pw ff h = (r, h') -> exists e, r = Raise e.
Proof.
  unfold build_discrete, bind. simpl.
  destruct (for_each _ _ _) as [[[]|e] h1].
  - destruct (get_cvec _ h1) as [[v|e] h2].
    + unfold alloc, raise. intros H; inversion H; eauto.
    + intros H; inversion H; eauto.
  - intros H; inversion H; eauto.
Qed.

Lemma build_continuous_fresh h0 nf freqs pc pw ff h a h' :
  ext h0 h -> build_continuous nf freqs pc pw ff h = (Ok a, h') ->
  (length h0 <= a)%nat.
Proof.
  intros E. unfold build_continuous. unfold bind at 1. unfold alloc at 1.
  unfold bind at 1.
  destruct (for_each _ _ _) as [[[]|e] h1] eqn:E1; [|discriminate].
  assert (L : (length h0 <= length h)%nat) by (destruct E; lia).
  assert (X1 : ext h0 h1).
  { revert E1. apply safe_for_each.
    - intros x. repeat safe_step.
    - eapply safe_alloc; [exact E|reflexivity]. }
  unfold bind. destruct (get_mat _ h1) as [[m|e] h2] eqn:E2; [|discriminate].
  assert (X2 : ext h0 h2) by (eapply safe_get_mat; eauto).
  unfold alloc. intros H; inversion H; subst. destruct X2; lia.
Qed.

Section Framing.

Variable pinv : list (list C) -> list (list C).
Variable get_window : string -> nat -> result (list R).

Lemma safe_build_inverse_filter h0 nf df freqs pc pw ff zf fl dft :
  safe h0 (build_inverse_filter nf df freqs pc pw ff zf fl dft).
Proof.
  unfold build_inverse_filter.
  apply safe_bind_fresh.
  - destruct dft; simpl;
      [apply safe_build_discrete|apply safe_build_continuous].
  - destruct dft; simpl; intros h a h' E H.
    + apply build_discrete_raises in H. destruct H as [e H]. discriminate.
    + eapply build_continuous_fresh; eauto.
  - intros a La. apply safe_bind.
    + destruct zf; [apply safe_zero_flagged; auto|apply safe_ret].
    + intros _. apply safe_ret.
Qed.

Lemma safe_linear_filter_matrix h0 nf df pc pw ff zf fl cache dft :
  safe h0 (linear_filter_matrix pinv nf df pc pw ff zf fl cache dft).
Proof.
  unfold linear_filter_matrix.
  do 6 (apply safe_bind; [auto with safe_db|intros ?]).
  apply safe_bind.
  - destruct (dict_mem _ _); [apply safe_ret|].
    apply safe_bind; [apply safe_build_inverse_filter|intros ?].
    repeat safe_step.
  - intros _. apply safe_bind; [auto with safe_db|intros d].
    destruct (dict_get _ d); auto with safe_db.
Qed.

Lemma safe_select_weights h0 nf freqs flags ff pc pw weights zf cache :
  safe h0 (select_weights pinv nf freqs flags ff pc pw weights zf cache).
Proof.
  unfold select_weights.
  destruct (String.eqb weights "I").
  - apply safe_alloc_bind; intros a La.
    apply safe_bind; [|intros; apply safe_ret].
    destruct zf; [|apply safe_ret].
    apply safe_bind; [auto with safe_db|intros fl].
    apply safe_zero_flagged; auto.
  - destruct (String.eqb weights "WTL"); [|apply safe_ret].
    do 3 (apply safe_bind; [auto with safe_db|intros ?]).
    apply safe_bind; [apply safe_linear_filter_matrix|intros; apply safe_ret].
Qed.

Lemma safe_make_taper h0 taper nf : safe h0 (make_taper get_window taper nf).
Proof. unfold make_taper. repeat safe_step. Qed.

Lemma safe_apply_and_transform h0 wm ydata taper :
  safe h0 (apply_and_transform wm ydata taper).
Proof.
  unfold apply_and_transform.
  apply safe_bind; [destruct wm; auto with safe_db|intros wa].
  repeat safe_step.
Qed.

Lemma safe_forward_stage h0 nf freqs ydata flags ff pc pw weights zf taper cache :
  safe h0 (forward_stage pinv get_window nf freqs ydata flags ff pc pw
             weights zf taper cache).
Proof.
  unfold forward_stage.
  apply safe_bind; [apply safe_make_taper|intros t].
  apply safe_bind; [apply safe_select_weights|intros wm].
  apply safe_bind; [apply safe_apply_and_transform|intros X].
  apply safe_ret.
Qed.

Lemma safe_select_domain h0 nf freqs taper output dom :
  safe h0 (select_domain nf freqs taper output dom).
Proof.
  unfold select_domain. destruct (String.eqb dom "frequency"); repeat safe_step.
Qed.

Lemma safe_dedekind h0 freqs ydata flags ff pc pw weights zf dom taper cache :
  safe h0 (dedekind pinv get_window freqs ydata flags ff pc pw weights zf
             dom taper cache).
Proof.
  unfold dedekind.
  apply safe_bind; [auto with safe_db|intros fv].
  apply safe_bind; [apply safe_forward_stage|intros p].
  apply safe_select_domain.
Qed.

End Framing.

(** ** Inversion and evaluation of single steps *)

Lemma bind_Ok_inv {A B} (m : M A) (f : A -> M B) h b h' :
  bind m f h = (Ok b, h') ->
  exists a h1, m h = (Ok a, h1) /\ f a h1 = (Ok b, h').
Proof.
  unfold bind. destruct (m h) as [[a|e] h1]; [eauto|discriminate].
Qed.

Lemma lift_Ok_inv {A} (r : result A) h a h' :
  lift r h = (Ok a, h') -> r = Ok a /\ h' = h.
Proof. unfold lift. intros H; inversion H; auto. Qed.

Lemma get_rvec_Ok_inv a h v h' :
  get_rvec a h = (Ok v, h') -> h !! a = Some (RVec v) /\ h' = h.
Proof.
  unfold get_rvec. destruct (h !! a) as [[]|]; intros H; inversion H; auto.
Qed.

Lemma get_cvec_Ok_inv a h v h' :
  get_cvec a h = (Ok v, h') -> h !! a = Some (CVec v) /\ h' = h.
Proof.
  unfold get_cvec. destruct (h !! a) as [[]|]; intros H; inversion H; auto.
Qed.

Lemma get_bvec_Ok_inv a h v h' :
  get_bvec a h = (Ok v, h') -> h !! a = Some (BVec v) /\ h' = h.
Proof.
  unfold get_bvec. destruct (h !! a) as [[]|]; intros H; inversion H; auto.
Qed.

Lemma get_mat_Ok_inv a h v h' :
  get_mat a h = (Ok v, h') -> h !! a = Some (CMat v) /\ h' = h.
Proof.
  unfold get_mat. destruct (h !! a) as [[]|]; intros H; inversion H; auto.
Qed.

Lemma get_dict_Ok_inv a h v h' :
  get_dict a h = (Ok v, h') -> h !! a = Some (Dict v) /\ h' = h.
Proof.
  unfold get_dict. destruct (h !! a) as [[]|]; intros H; inversion H; auto.
Qed.

Lemma bind_get_rvec {B} a v (f : list R -> M B) h :
  h !! a = Some (RVec v) -> bind (get_rvec a) f h = f v h.
Proof. intros H. unfold bind, get_rvec. rewrite H. reflexivity. Qed.

Lemma bind_get_cvec {B} a v (f : list C -> M B) h :
  h !! a = Some (CVec v) -> bind (get_cvec a) f h = f v h.
Proof. intros H. unfold bind, get_cvec. rewrite H. reflexivity. Qed.

Lemma bind_get_bvec {B} a v (f : list bool -> M B) h :
  h !! a = Some (BVec v) -> bind (get_bvec a) f h = f v h.
Proof. intros H. unfold bind, get_bvec. rewrite H. reflexivity. Qed.

Lemma bind_get_mat {B} a v (f : list (list C) -> M B) h :
  h !! a = Some (CMat v) -> bind (get_mat a) f h = f v h.
Proof. intros H. unfold bind, get_mat. rewrite H. reflexivity. Qed.

Lemma bind_get_dict {B} a v (f : list (list R * nat) -> M B) h :
  h !! a = Some (Dict v) -> bind (get_dict a) f h = f v h.
Proof. intros H. unfold bind, get_dict. rewrite H. reflexivity. Qed.

Lemma bind_lift_Ok {A B} (x : A) (f : A -> M B) h :
  bind (lift (Ok x)) f h = f x h.
Proof. reflexivity. Qed.

Lemma bind_ret {A B} (x : A) (f : A -> M B) h : bind (ret x) f h = f x h.
Proof. reflexivity. Qed.

Lemma bind_alloc {B} o (f : addr -> M B) h :
  bind (alloc o) f h = f (length h) (h ++ [o]).
Proof. reflexivity. Qed.

Lemma bind_put {B} a o (f : unit -> M B) h :
  bind (put a o) f h = f tt (<[a := o]> h).
Proof. reflexivity. Qed.

Lemma lookup_snoc_new (h : list obj) o : (h ++ [o]) !! length h = Some o.
Proof. rewrite lookup_app_r by lia. rewrite Nat.sub_diag. reflexivity. Qed.

Lemma lookup_snoc_old (h : list obj) o a :
  (a < length h)%nat -> (h ++ [o]) !! a = h !! a.
Proof. intros H. apply lookup_app_l. exact H. Qed.

Lemma dict_mem_true k d a : dict_get k d = Some a -> dict_mem k d = true.
Proof. unfold dict_mem. intros ->. reflexivity. Qed.

Lemma dict_mem_false k d : dict_get k d = None -> dict_mem k d = false.
Proof. unfold dict_mem. intros ->. reflexivity. Qed.

Lemma dict_get_set k a d : dict_get k (dict_set k a d) = Some a.
Proof. unfold dict_set. simpl. destruct (decide (k = k)); congruence. Qed.

Lemma arange_index nf df i :
  (i < nf)%nat ->
  index (map (fun x => x * df) (arange_sym nf)) i
  = Ok ((INR i - INR nf / 2) * df).
Proof.
  intros H. unfold index, arange_sym.
  rewrite !list_lookup_fmap. rewrite lookup_seq_lt by lia. reflexivity.
Qed.

Lemma arange_index_ge nf df i :
  (nf <= i)%nat ->
  index (map (fun x => x * df) (arange_sym nf)) i = Raise IndexError.
Proof.
  intros H. unfold index, arange_sym.
  rewrite !list_lookup_fmap. rewrite lookup_seq_ge by lia. reflexivity.
Qed.

(** ** The cache *)

Lemma grid_step nf df :
  (INR 1 - INR nf / 2) * df - (INR 0 - INR nf / 2) * df = df.
Proof. simpl. lra. Qed.

Section Cache.

Variable pinv : list (list C) -> list (list C).

(** What a returning call tells: the arguments were well formed, the
    returned address is the cache's entry for the key, and nothing but
    the cache and new objects was touched. *)
Lemma linear_filter_matrix_Ok_inv nf df pc pw ff zf fl cache dft h a h1 :
  linear_filter_matrix pinv nf df pc pw ff zf fl cache dft h = (Ok a, h1) ->
  exists flv cv wv d1,
    (2 <= nf)%nat /\
    h !! fl = Some (BVec flv) /\ h !! pc = Some (RVec cv) /\
    h !! pw = Some (RVec wv) /\
    h1 !! WMAT_CACHE = Some (Dict d1) /\
    dict_get (make_wkey nf df ff zf dft flv cv wv) d1 = Some a /\
    ext h h1.
Proof.
  intros H.
  assert (X : ext h h1).
  { eapply safe_linear_filter_matrix; [apply ext_refl|exact H]. }
  unfold linear_filter_matrix in H.
  apply bind_Ok_inv in H. destruct H as (f1 & h2 & H1 & H).
  apply lift_Ok_inv in H1. destruct H1 as [H1 ->].
  assert (Hnf : (2 <= nf)%nat).
  { destruct (le_lt_dec 2 nf) as [L|L]; [exact L|].
    rewrite arange_index_ge in H1 by lia. discriminate. }
  rewrite arange_index in H1 by lia. inversion H1; subst f1; clear H1.
  apply bind_Ok_inv in H. destruct H as (f0 & h2 & H1 & H).
  apply lift_Ok_inv in H1. destruct H1 as [H1 ->].
  rewrite arange_index in H1 by lia. inversion H1; subst f0; clear H1.
  rewrite grid_step in H.
  apply bind_Ok_inv in H. destruct H as (flv & h2 & H1 & H).
  apply get_bvec_Ok_inv in H1. destruct H1 as [Hfl ->].
  apply bind_Ok_inv in H. destruct H as (cv & h2 & H1 & H).
  apply get_rvec_Ok_inv in H1. destruct H1 as [Hpc ->].
  apply bind_Ok_inv in H. destruct H as (wv & h2 & H1 & H).
  apply get_rvec_Ok_inv in H1. destruct H1 as [Hpw ->].
  apply bind_Ok_inv in H. destruct H as (d & h2 & H1 & H).
  apply get_dict_Ok_inv in H1. destruct H1 as [Hd ->].
  apply bind_Ok_inv in H. destruct H as ([] & h2 & H1 & H).
  apply bind_Ok_inv in H. destruct H as (d1 & h3 & H2 & H).
  apply get_dict_Ok_inv in H2. destruct H2 as [Hd1 ->].
  destruct (dict_get _ d1) as [a'|] eqn:G; [|discriminate].
  inversion H; subst a' h2.
  exists flv, cv, wv, d1. auto 10.
Qed.

(** A hit: the stored address is returned and the heap is left as it is. *)
Lemma linear_filter_matrix_hit nf df pc pw ff zf fl cache dft h flv cv wv d a :
  (2 <= nf)%nat ->
  h !! fl = Some (BVec flv) -> h !! pc = Some (RVec cv) ->
  h !! pw = Some (RVec wv) ->
  h !! WMAT_CACHE = Some (Dict d) ->
  dict_get (make_wkey nf df ff zf dft flv cv wv) d = Some a ->
  linear_filter_matrix pinv nf df pc pw ff zf fl cache dft h = (Ok a, h).
Proof.
  intros Hnf Hfl Hpc Hpw Hd G. unfold linear_filter_matrix.
  rewrite !arange_index by lia. rewrite !bind_lift_Ok. rewrite grid_step.
  rewrite (bind_get_bvec _ _ _ _ Hfl), (bind_get_rvec _ _ _ _ Hpc),
    (bind_get_rvec _ _ _ _ Hpw), (bind_get_dict _ _ _ _ Hd).
  rewrite (dict_mem_true _ _ _ G). rewrite bind_ret.
  rewrite (bind_get_dict _ _ _ _ Hd). rewrite G. reflexivity.
Qed.

End Cache.

(** ** The construction without a suppression term *)

Lemma Cadd_0_l x : Cadd C0 x = x.
Proof. destruct x as [a b]. unfold Cadd, C0. simpl. f_equal; lra. Qed.

Lemma length_identity n : length (identity n) = n.
Proof. unfold identity. rewrite length_map, length_seq. reflexivity. Qed.

Lemma identity_rows n row : row ∈ identity n -> length row = n.
Proof.
  unfold identity. intros H. apply list_elem_of_fmap in H.
  destruct H as (i & -> & _). rewrite length_map, length_seq. reflexivity.
Qed.

Lemma mat_add_zeros_identity n : mat_add (zeros n) (identity n) = identity n.
Proof.
  unfold mat_add, mat_zip, zeros.
  rewrite zip_with_replicate_l by (rewrite length_identity; lia).
  rewrite <- (list_fmap_id (identity n)) at 2.
  apply Forall_fmap_ext. apply Forall_forall. intros row Hrow.
  rewrite zip_with_replicate_l by (rewrite (identity_rows n row Hrow); lia).
  rewrite <- (list_fmap_id row) at 2.
  apply list_fmap_ext. intros i x _. apply Cadd_0_l.
Qed.

Lemma for_each_skip {A} (l : list A) (body : A -> M unit) h :
  (forall x h', body x h' = (Ok tt, h')) -> for_each l body h = (Ok tt, h).
Proof.
  intros Hb. induction l as [|x l IH]; simpl; [reflexivity|].
  unfold bind. rewrite Hb. exact IH.
Qed.

Lemma insert_snoc (h : list obj) o o' : <[length h := o']> (h ++ [o]) = h ++ [o'].
Proof.
  rewrite insert_app_r_alt by lia. rewrite Nat.sub_diag. reflexivity.
Qed.

Lemma length_arange nf df : length (map (fun x => x * df) (arange_sym nf)) = nf.
Proof. unfold arange_sym. rewrite !length_map, length_seq. reflexivity. Qed.

Lemma zero_flagged_run a fl m h :
  h !! a = Some (CMat m) -> length fl = length m ->
  zero_flagged a fl h
  = (Ok tt, <[a := CMat (zero_rows fl (zero_cols fl m))]> h).
Proof.
  intros Ha L. unfold zero_flagged.
  rewrite (bind_get_mat _ _ _ _ Ha). rewrite L, Nat.eqb_refl.
  rewrite bind_ret, bind_put.
  assert (La : (a < length h)%nat) by (eapply lookup_lt_Some; eauto).
  rewrite (bind_get_mat a (zero_cols fl m)) by (apply list_lookup_insert_eq; exact La).
  unfold put. rewrite list_insert_insert_eq. reflexivity.
Qed.

Lemma build_continuous_skip nf df cv wv ff h :
  zip cv wv = [] \/ ff <= 0 ->
  build_continuous nf (map (fun x => x * df) (arange_sym nf)) cv wv ff h
  = (Ok (S (length h)), h ++ [CMat (zeros nf); CMat (identity nf)]).
Proof.
  intros Hskip. unfold build_continuous. rewrite bind_alloc.
  assert (Hloop : forall h',
    for_each (zip cv wv) (fun _ : R * R =>
      if Rlt_dec 0 ff
      then let! t := lift (continuous_term nf
                             (map (fun x => x * df) (arange_sym nf)) cv wv ff) in
           let! m := get_mat (length h) in
           put (length h) (CMat (mat_add m t))
      else ret tt) h' = (Ok tt, h')).
  { intros h'. destruct Hskip as [Hz|Hff].
    - rewrite Hz. reflexivity.
    - apply for_each_skip. intros x h2.
      destruct (Rlt_dec 0 ff); [lra|reflexivity]. }
  unfold bind at 1. rewrite Hloop.
  rewrite (bind_get_mat _ _ _ _ (lookup_snoc_new h _)).
  unfold alloc. rewrite length_arange, mat_add_zeros_identity.
  rewrite length_app, <- app_assoc. simpl. f_equal. f_equal. lia.
Qed.

Lemma build_inverse_filter_skip nf df cv wv ff zf flv h :
  zip cv wv = [] \/ ff <= 0 ->
  (zf = true -> length flv = nf) ->
  build_inverse_filter nf df (map (fun x => x * df) (arange_sym nf))
    cv wv ff zf flv false h
  = (Ok (S (length h)),
     h ++ [CMat (zeros nf); CMat (flagged_identity nf zf flv)]).
Proof.
  intros Hskip Hfl. unfold build_inverse_filter. simpl negb. cbv iota.
  unfold bind at 1. rewrite build_continuous_skip by exact Hskip.
  unfold flagged_identity. destruct zf.
  - unfold bind.
    rewrite (zero_flagged_run _ flv (identity nf)).
    + unfold ret. f_equal.
      change (h ++ [CMat (zeros nf); CMat (identity nf)])
        with (h ++ [CMat (zeros nf)] ++ [CMat (identity nf)]).
      rewrite !app_assoc.
      replace (S (length h)) with (length (h ++ [CMat (zeros nf)]))
        by (rewrite length_app; simpl; lia).
      rewrite insert_snoc, <- app_assoc. reflexivity.
    + change (h ++ [CMat (zeros nf); CMat (identity nf)])
        with (h ++ [CMat (zeros nf)] ++ [CMat (identity nf)]).
      rewrite app_assoc.
      replace (S (length h)) with (length (h ++ [CMat (zeros nf)]))
        by (rewrite length_app; simpl; lia).
      apply lookup_snoc_new.
    + rewrite length_identity. auto.
  - reflexivity.
Qed.

Section Identity.

Variable pinv : list (list C) -> list (list C).

(** A miss without suppression term: three objects are allocated (the
    zero matrix, the matrix handed to the pseudo-inverse, its
    pseudo-inverse), and the last is stored under the key. *)
Lemma linear_filter_matrix_miss_skip nf df pc pw ff zf fl cache h flv cv wv d :
  (2 <= nf)%nat ->
  h !! fl = Some (BVec flv) -> h !! pc = Some (RVec cv) ->
  h !! pw = Some (RVec wv) ->
  h !! WMAT_CACHE = Some (Dict d) ->
  dict_get (make_wkey nf df ff zf false flv cv wv) d = None ->
  zip cv wv = [] \/ ff <= 0 ->
  (zf = true -> length flv = nf) ->
  linear_filter_matrix pinv nf df pc pw ff zf fl cache false h
  = (Ok (length h + 2)%nat,
     <[WMAT_CACHE := Dict (dict_set (make_wkey nf df ff zf false flv cv wv)
                                    (length h + 2) d)]>
       (h ++ [CMat (zeros nf); CMat (flagged_identity nf zf flv);
              CMat (pinv (flagged_identity nf zf flv))])).
Proof.
  intros Hnf Hfl Hpc Hpw Hd G Hskip Hlen. unfold linear_filter_matrix.
  rewrite !arange_index by lia. rewrite !bind_lift_Ok. rewrite grid_step.
  rewrite (bind_get_bvec _ _ _ _ Hfl), (bind_get_rvec _ _ _ _ Hpc),
    (bind_get_rvec _ _ _ _ Hpw), (bind_get_dict _ _ _ _ Hd).
  rewrite (dict_mem_false _ _ G).
  assert (L0 : (0 < length h)%nat) by (eapply lookup_lt_Some; exact Hd).
  set (FI := flagged_identity nf zf flv).
  set (k := make_wkey nf df ff zf false flv cv wv).
  unfold bind at 1. unfold bind at 1.
  rewrite build_inverse_filter_skip by assumption. fold FI.
  assert (E1 : (h ++ [CMat (zeros nf); CMat FI]) !! S (length h)
               = Some (CMat FI)).
  { rewrite lookup_app_r by lia.
    replace (S (length h) - length h)%nat with 1%nat by lia. reflexivity. }
  rewrite (bind_get_mat _ _ _ _ E1). rewrite bind_alloc.
  assert (E2 : ((h ++ [CMat (zeros nf); CMat FI]) ++ [CMat (pinv FI)])
                 !! WMAT_CACHE = Some (Dict d)).
  { unfold WMAT_CACHE in *. rewrite !lookup_app_l; [exact Hd|lia|].
    rewrite length_app. lia. }
  rewrite (bind_get_dict _ _ _ _ E2).
  unfold put.
  rewrite bind_get_dict with (v := dict_set k (length (h ++ [CMat (zeros nf); CMat FI])) d).
  - rewrite dict_get_set. unfold ret.
    rewrite length_app. simpl length. rewrite <- app_assoc. reflexivity.
  - apply list_lookup_insert_eq. rewrite !length_app. unfold WMAT_CACHE. lia.
Qed.

End Identity.

(** Entries of the flagged identity: 1 on the diagonal of the unflagged
    channels, 0 elsewhere. *)
Lemma entry_identity n i j :
  (i < n)%nat -> (j < n)%nat ->
  entry (identity n) i j = Some (if Nat.eqb i j then C1 else C0).
Proof.
  intros Hi Hj. unfold entry, identity.
  rewrite list_lookup_fmap, lookup_seq_lt by lia. simpl.
  rewrite list_lookup_fmap, lookup_seq_lt by lia. reflexivity.
Qed.

Lemma entry_zero_cols (fl : list bool) (M : list (list C)) i j :
  entry (zero_cols fl M) i j
  = match fl !! j, entry M i j with
    | Some f, Some x => Some (if f : bool then C0 else x)
    | _, _ => None
    end.
Proof.
  unfold entry, zero_cols. rewrite list_lookup_fmap.
  destruct (M !! i) as [row|]; simpl.
  - rewrite lookup_zip_with. destruct (fl !! j); simpl; [|reflexivity].
    destruct (row !! j); reflexivity.
  - destruct (fl !! j); reflexivity.
Qed.

Lemma entry_zero_rows (fl : list bool) (M : list (list C)) i j :
  entry (zero_rows fl M) i j
  = match fl !! i, entry M i j with
    | Some f, Some x => Some (if f : bool then C0 else x)
    | _, _ => None
    end.
Proof.
  unfold entry, zero_rows. rewrite lookup_zip_with.
  destruct (fl !! i) as [f|]; simpl; [|reflexivity].
  destruct (M !! i) as [row|]; simpl; [|reflexivity].
  destruct f; [|destruct (row !! j); reflexivity].
  rewrite list_lookup_fmap. destruct (row !! j); reflexivity.
Qed.

Lemma entry_flagged_identity nf zf (fl : list bool) i j fi fj :
  (i < nf)%nat -> (j < nf)%nat ->
  fl !! i = Some fi -> fl !! j = Some fj ->
  entry (flagged_identity nf zf fl) i j
  = Some (if Nat.eqb i j && negb (zf && (fi || fj)) then C1 else C0).
Proof.
  intros Hi Hj Fi Fj. unfold flagged_identity. destruct zf; simpl.
  - rewrite entry_zero_rows, entry_zero_cols, Fi, Fj, entry_identity by lia.
    destruct fi, fj, (Nat.eqb i j); reflexivity.
  - rewrite entry_identity by lia. rewrite andb_true_r. reflexivity.
Qed.

(** ** Claims on the cache *)

(** Whatever the call does, a dictionary passed as [cache] that is not
    the module's own is left as it is. *)
Lemma cache_argument_untouched pinv nf df pc pw ff zf fl cache dft h r h' :
  cache <> WMAT_CACHE -> (cache < length h)%nat ->
  linear_filter_matrix pinv nf df pc pw ff zf fl cache dft h = (r, h') ->
  h' !! cache = h !! cache.
Proof.
  intros Hne Hlt H.
  assert (X : ext h h').
  { eapply safe_linear_filter_matrix; [apply ext_refl|exact H]. }
  destruct X as [_ X]. apply X; assumption.
Qed.

(** C4. The code at the failing input: a call that passes the private
    dictionary at address 1 as [cache], on a fresh module cache.  The
    private dictionary is still empty after the call, and the new matrix
    (address 13) has been stored in the module's [WMAT_CACHE]. *)
Theorem private_cache_ignored pinv :
  exists h1,
    linear_filter_matrix pinv 2 1 8 8 1 false 5 1 false example_heap
    = (Ok 13%nat, h1) /\
    h1 !! 1%nat = Some (Dict []) /\
    h1 !! WMAT_CACHE
    = Some (Dict [(make_wkey 2 1 1 false false [false; false] [] [], 13%nat)]).
Proof.
  eexists. split.
  - apply (linear_filter_matrix_miss_skip pinv 2 1 8 8 1 false 5 1
             example_heap [false; false] [] [] []);
      [lia|reflexivity|reflexivity|reflexivity|reflexivity
      |reflexivity|left; reflexivity|discriminate].
  - split; reflexivity.
Qed.

(** ** Claims on the frame of the pipeline *)

(** C10. The pipeline leaves its array inputs unchanged: whether the call
    returns or raises, every object that existed before the call, other
    than the module's cache dictionary, is the same after it; so are in
    particular the frequencies, the data, the flags and the two patch
    lists.  (All the updates in place of the code hit arrays that the
    call itself allocated.) *)
Theorem dedekind_inputs_unchanged pinv get_window freqs ydata flags ff pc pw
    weights zf dom taper cache h r h' (a : addr) :
  dedekind pinv get_window freqs ydata flags ff pc pw weights zf dom taper
    cache h = (r, h') ->
  (a < length h)%nat -> a <> WMAT_CACHE ->
  h' !! a = h !! a.
Proof.
  intros H Hlt Hne.
  assert (X : ext h h').
  { eapply safe_dedekind; [apply ext_refl|exact H]. }
  destruct X as [_ X]. apply X; assumption.
Qed.

Lemma dedekind_inputs_unchanged_witness :
  (dedekind pinv_self boxcar_window 2 4 5 1 9 10 "WTL" true "delay" "boxcar" 0
     example_heap).2 !! 4%nat
  = example_heap !! 4%nat.
Proof.
  apply (dedekind_inputs_unchanged pinv_self boxcar_window 2 4 5 1 9 10
           "WTL" true "delay" "boxcar" 0%nat example_heap
           (dedekind pinv_self boxcar_window 2 4 5 1 9 10 "WTL" true "delay"
              "boxcar" 0 example_heap).1).
  - destruct (dedekind _ _ _ _ _ _ _ _ _ _ _ _ _ _) as [r h']. reflexivity.
  - simpl. lia.
  - discriminate.
Defined.

(** ** Claims on the construction without suppression *)

(** C8, as amended.  In continuous mode, with at least two channels and a
    flag mask of the length of the axis when [zero_flags] is set, for an
    empty patch list or [filter_factor <= 0]: the builder returns without
    an exception; the suppression term is skipped, so that the matrix
    handed to the pseudo-inverse is the identity with the rows and
    columns of the flagged channels set to zero (entry [i, j] is 1 when
    [i = j] is an unflagged channel or [zero_flags] is unset, 0
    otherwise); and on a miss the matrix returned is its
    pseudo-inverse. *)
Theorem no_suppression_is_identity pinv nf df pc pw ff zf fl cache h
    flv cv wv d :
  (2 <= nf)%nat ->
  h !! fl = Some (BVec flv) -> h !! pc = Some (RVec cv) ->
  h !! pw = Some (RVec wv) -> h !! WMAT_CACHE = Some (Dict d) ->
  length flv = nf ->
  zip cv wv = [] \/ ff <= 0 ->
  (exists a h1,
      linear_filter_matrix pinv nf df pc pw ff zf fl cache false h
      = (Ok a, h1)) /\
  build_inverse_filter nf df (map (fun x => x * df) (arange_sym nf))
    cv wv ff zf flv false h
  = (Ok (S (length h)),
     h ++ [CMat (zeros nf); CMat (flagged_identity nf zf flv)]) /\
  (forall i j fi fj, (i < nf)%nat -> (j < nf)%nat ->
     flv !! i = Some fi -> flv !! j = Some fj ->
     entry (flagged_identity nf zf flv) i j
     = Some (if Nat.eqb i j && negb (zf && (fi || fj)) then C1 else C0)) /\
  (dict_get (make_wkey nf df ff zf false flv cv wv) d = None ->
   exists a h1,
     linear_filter_matrix pinv nf df pc pw ff zf fl cache false h
     = (Ok a, h1) /\
     h1 !! a = Some (CMat (pinv (flagged_identity nf zf flv)))).
Proof.
  intros Hnf Hfl Hpc Hpw Hd Hlen Hskip.
  assert (Hmiss : dict_get (make_wkey nf df ff zf false flv cv wv) d = None ->
    exists a h1,
      linear_filter_matrix pinv nf df pc pw ff zf fl cache false h
      = (Ok a, h1) /\
      h1 !! a = Some (CMat (pinv (flagged_identity nf zf flv)))).
  { intros G. do 2 eexists. split.
    - eapply linear_filter_matrix_miss_skip; eauto.
    - assert (L0 : (0 < length h)%nat) by (eapply lookup_lt_Some; exact Hd).
      rewrite list_lookup_insert_ne by (unfold WMAT_CACHE; lia).
      rewrite lookup_app_r by lia.
      replace (length h + 2 - length h)%nat with 2%nat by lia. reflexivity. }
  split; [|split; [|split]].
  - destruct (dict_get (make_wkey nf df ff zf false flv cv wv) d) as [a|] eqn:G.
    + exists a, h. eapply linear_filter_matrix_hit; eauto.
    + destruct (Hmiss eq_refl) as (a & h1 & H & _). eauto.
  - apply build_inverse_filter_skip; auto.
  - intros i j fi fj Hi Hj Fi Fj. apply entry_flagged_identity; assumption.
  - exact Hmiss.
Qed.

Lemma no_suppression_is_identity_witness :
  exists a h1,
    linear_filter_matrix pinv_self 2 1 9 10 (-1) true 6 0 false example_heap
    = (Ok a, h1).
Proof.
  apply (no_suppression_is_identity pinv_self 2 1 9 10 (-1) true 6 0%nat
           example_heap [true; true] [0] [1] []);
    [lia|reflexivity|reflexivity|reflexivity|reflexivity|reflexivity
    |right; lra].
Defined.

(** C8, the claim as stated fails: with one channel (a valid count for
    the specification, which asks for [nf > 0]) and an empty patch list,
    the builder raises IndexError, at [freqs[1]] on line 24. *)
Lemma one_channel_raises :
  linear_filter_matrix pinv_self 1 1 8 8 0 false 7 0 false example_heap
  = (Raise IndexError, example_heap).
Proof. reflexivity. Qed.

(** ** Claims on the discrete construction *)

Section Discrete.

Variable pinv : list (list C) -> list (list C).

(** In discrete mode a call whose key is not in the cache never returns
    a matrix: it ends in an exception, for every argument. *)
Lemma discrete_mode_miss_raises nf df pc pw ff zf fl cache h flv cv wv d :
  h !! fl = Some (BVec flv) -> h !! pc = Some (RVec cv) ->
  h !! pw = Some (RVec wv) -> h !! WMAT_CACHE = Some (Dict d) ->
  dict_get (make_wkey nf df ff zf true flv cv wv) d = None ->
  exists e h',
    linear_filter_matrix pinv nf df pc pw ff zf fl cache true h
    = (Raise e, h').
Proof.
  intros Hfl Hpc Hpw Hd G. unfold linear_filter_matrix.
  destruct (le_lt_dec 2 nf) as [Hnf|Hnf].
  - rewrite !arange_index by lia. rewrite !bind_lift_Ok. rewrite grid_step.
    rewrite (bind_get_bvec _ _ _ _ Hfl), (bind_get_rvec _ _ _ _ Hpc),
      (bind_get_rvec _ _ _ _ Hpw), (bind_get_dict _ _ _ _ Hd).
    rewrite (dict_mem_false _ _ G).
    unfold bind at 1. unfold bind at 1. unfold build_inverse_filter.
    simpl negb. cbv iota. unfold bind at 1.
    destruct (build_discrete _ _ _ _ _ h) as [r h2] eqn:E.
    destruct (build_discrete_raises _ _ _ _ _ _ _ _ E) as [e ->]. eauto.
  - rewrite arange_index_ge by lia. unfold bind, lift. eauto.
Qed.

End Discrete.

(** C2. The code at the failing input: discrete mode, two channels,
    [df = 1], the patch [(0, 1)], [filter_factor = 1], no flag, a fresh
    cache.  The diagonal is built (two objects are allocated), then the
    read of the unbound name [imat] on line 42 raises NameError; no matrix
    is returned and nothing is stored in the cache. *)
Theorem discrete_mode_name_error pinv :
  exists h',
    linear_filter_matrix pinv 2 1 9 10 1 false 5 0 true example_heap
    = (Raise NameError, h') /\
    h' !! WMAT_CACHE = Some (Dict []).
Proof.
  unfold linear_filter_matrix.
  rewrite !arange_index by lia. rewrite !bind_lift_Ok. rewrite grid_step.
  rewrite (bind_get_bvec 5 [false; false]) by reflexivity.
  rewrite (bind_get_rvec 9 [0]) by reflexivity.
  rewrite (bind_get_rvec 10 [1]) by reflexivity.
  rewrite (bind_get_dict WMAT_CACHE []) by reflexivity.
  rewrite dict_mem_false by reflexivity.
  unfold bind at 1. unfold bind at 1. unfold build_inverse_filter.
  simpl negb. cbv iota. unfold bind at 1.
  unfold build_discrete. rewrite bind_alloc. unfold bind at 1.
  simpl for_each. unfold bind at 1. simpl snd.
  destruct (Req_dec_T 1 0) as [E|_]; [lra|].
  eexists. split; reflexivity.
Qed.

(** ** Complex arithmetic and the discrete Fourier transform *)

Lemma Cmul_comm a b : Cmul a b = Cmul b a.
Proof. destruct a, b. unfold Cmul. simpl. f_equal; ring. Qed.
Lemma Cmul_assoc a b c : Cmul a (Cmul b c) = Cmul (Cmul a b) c.
Proof. destruct a, b, c. unfold Cmul. simpl. f_equal; ring. Qed.
Lemma Cadd_comm a b : Cadd a b = Cadd b a.
Proof. destruct a, b. unfold Cadd. simpl. f_equal; ring. Qed.
Lemma Cadd_assoc a b c : Cadd a (Cadd b c) = Cadd (Cadd a b) c.
Proof. destruct a, b, c. unfold Cadd. simpl. f_equal; ring. Qed.
Lemma Cadd_0_r x : Cadd x C0 = x.
Proof. destruct x. unfold Cadd, C0. simpl. f_equal; ring. Qed.
Lemma Cmul_0_r x : Cmul x C0 = C0.
Proof. destruct x. unfold Cmul, C0. simpl. f_equal; ring. Qed.
Lemma Cmul_0_l x : Cmul C0 x = C0.
Proof. destruct x. unfold Cmul, C0. simpl. f_equal; ring. Qed.
Lemma Cmul_1_r x : Cmul x C1 = x.
Proof. destruct x. unfold Cmul, C1. simpl. f_equal; ring. Qed.
Lemma Cmul_1_l x : Cmul C1 x = x.
Proof. destruct x. unfold Cmul, C1. simpl. f_equal; ring. Qed.
Lemma Cmul_add_distr_r a b c : Cmul (Cadd a b) c = Cadd (Cmul a c) (Cmul b c).
Proof. destruct a, b, c. unfold Cmul, Cadd. simpl. f_equal; ring. Qed.
Lemma Cmul_add_distr_l a b c : Cmul c (Cadd a b) = Cadd (Cmul c a) (Cmul c b).
Proof. destruct a, b, c. unfold Cmul, Cadd. simpl. f_equal; ring. Qed.

Lemma expi_add a b : expi (a + b) = Cmul (expi a) (expi b).
Proof. unfold expi, Cmul. simpl. rewrite cos_plus, sin_plus. f_equal; ring. Qed.
Lemma expi_0 : expi 0 = C1.
Proof. unfold expi, C1. rewrite cos_0, sin_0. reflexivity. Qed.
Lemma expi_2pi_nat k : expi (2 * PI * INR k) = C1.
Proof.
  unfold expi, C1.
  replace (2 * PI * INR k) with (0 + 2 * INR k * PI) by ring.
  rewrite cos_period, sin_period, cos_0, sin_0. reflexivity.
Qed.
Lemma expi_neg a : expi (- a) = ((expi a).1, - (expi a).2).
Proof. unfold expi. simpl. rewrite cos_neg, sin_neg. reflexivity. Qed.

Lemma Csum_app l1 l2 : Csum (l1 ++ l2) = Cadd (Csum l1) (Csum l2).
Proof.
  induction l1 as [|x l1 IH]; simpl.
  - symmetry. apply Cadd_0_l.
  - rewrite IH. apply Cadd_assoc.
Qed.

Lemma Csum_n_S f n : Csum_n f (S n) = Cadd (Csum_n f n) (f n).
Proof.
  unfold Csum_n. rewrite seq_S, map_app, Csum_app. simpl.
  rewrite Cadd_0_r. reflexivity.
Qed.

Lemma Csum_n_ext f g n :
  (forall i, (i < n)%nat -> f i = g i) -> Csum_n f n = Csum_n g n.
Proof.
  intros H. induction n as [|n IH].
  - reflexivity.
  - rewrite !Csum_n_S, IH, H by (intros; auto with lia). reflexivity.
Qed.

Lemma Csum_n_add f g n :
  Csum_n (fun i => Cadd (f i) (g i)) n = Cadd (Csum_n f n) (Csum_n g n).
Proof.
  induction n as [|n IH].
  - unfold Csum_n. simpl. symmetry. apply Cadd_0_l.
  - rewrite !Csum_n_S, IH.
    destruct (Csum_n f n), (Csum_n g n), (f n), (g n).
    unfold Cadd. simpl. f_equal; ring.
Qed.

Lemma Csum_n_zero n : Csum_n (fun _ => C0) n = C0.
Proof.
  induction n as [|n IH]; [reflexivity|].
  rewrite Csum_n_S, IH. apply Cadd_0_l.
Qed.

Lemma Csum_n_mul_r f c n :
  Csum_n (fun i => Cmul (f i) c) n = Cmul (Csum_n f n) c.
Proof.
  induction n as [|n IH].
  - unfold Csum_n. simpl. symmetry. apply Cmul_0_l.
  - rewrite !Csum_n_S, IH, Cmul_add_distr_r. reflexivity.
Qed.

Lemma Csum_n_mul_l f c n :
  Csum_n (fun i => Cmul c (f i)) n = Cmul c (Csum_n f n).
Proof.
  induction n as [|n IH].
  - unfold Csum_n. simpl. symmetry. apply Cmul_0_r.
  - rewrite !Csum_n_S, IH, Cmul_add_distr_l. reflexivity.
Qed.

Lemma Csum_n_swap (F : nat -> nat -> C) n m :
  Csum_n (fun i => Csum_n (fun j => F i j) m) n
  = Csum_n (fun j => Csum_n (fun i => F i j) n) m.
Proof.
  induction n as [|n IH].
  - unfold Csum_n at 1. simpl. symmetry.
    rewrite (Csum_n_ext _ (fun _ => C0)); [apply Csum_n_zero|reflexivity].
  - rewrite Csum_n_S, IH. rewrite <- Csum_n_add.
    apply Csum_n_ext. intros j _. rewrite Csum_n_S. reflexivity.
Qed.

Lemma Csum_n_delta (v : nat -> C) m n :
  (m < n)%nat ->
  Csum_n (fun j => if Nat.eqb j m then v j else C0) n = v m.
Proof.
  intros H. induction n as [|n IH]; [lia|].
  rewrite Csum_n_S. destruct (Nat.eq_dec m n) as [->|Hne].
  - rewrite Nat.eqb_refl.
    rewrite (Csum_n_ext _ (fun _ => C0)).
    + rewrite Csum_n_zero. apply Cadd_0_l.
    + intros i Hi. destruct (Nat.eqb_spec i n); [lia|reflexivity].
  - rewrite IH by lia. destruct (Nat.eqb_spec n m); [lia|]. apply Cadd_0_r.
Qed.

(** geometric sums of roots of unity *)
Lemma geometric_telescope theta n :
  Cmul (Cadd (expi theta) (-1, 0)) (Csum_n (fun k => expi (INR k * theta)) n)
  = Cadd (expi (INR n * theta)) (-1, 0).
Proof.
  induction n as [|n IH].
  - unfold Csum_n. simpl. rewrite Rmult_0_l, expi_0, Cmul_0_r.
    unfold Cadd, C1, C0. simpl. f_equal; ring.
  - rewrite Csum_n_S, Cmul_add_distr_l, IH.
    rewrite S_INR. replace ((INR n + 1) * theta) with (theta + INR n * theta) by ring.
    rewrite expi_add.
    destruct (expi theta), (expi (INR n * theta)).
    unfold Cmul, Cadd. simpl. f_equal; ring.
Qed.

Lemma cos_lt_1 x : 0 < x -> x < 2 * PI -> cos x < 1.
Proof.
  intros H0 H1.
  replace x with (2 * (x / 2)) by field.
  rewrite cos_2a_sin.
  assert (0 < sin (x / 2)) by (apply sin_gt_0; lra).
  nra.
Qed.

Lemma cos_ne_1 x : x <> 0 -> - (2 * PI) < x -> x < 2 * PI -> cos x <> 1.
Proof.
  intros Hne H0 H1.
  destruct (Rlt_dec 0 x) as [Hp|Hn].
  - pose proof (cos_lt_1 x Hp H1). lra.
  - assert (Hx : 0 < - x) by lra.
    pose proof (cos_lt_1 (- x) Hx ltac:(lra)) as H. rewrite cos_neg in H. lra.
Qed.

Lemma Cmul_cancel z w : z <> C0 -> Cmul z w = C0 -> w = C0.
Proof.
  destruct z as [a b], w as [x y]. unfold Cmul, C0. simpl. intros Hz H.
  injection H as H1 H2.
  assert (Hab : a * a + b * b <> 0).
  { intros E. destruct (Rplus_sqr_eq_0 a b E) as [-> ->].
    apply Hz. reflexivity. }
  assert (Hx : (a * a + b * b) * x = 0).
  { replace ((a * a + b * b) * x)
      with (a * (a * x - b * y) + b * (a * y + b * x)) by ring.
    rewrite H1, H2. ring. }
  assert (Hy : (a * a + b * b) * y = 0).
  { replace ((a * a + b * b) * y)
      with (a * (a * y + b * x) - b * (a * x - b * y)) by ring.
    rewrite H1, H2. ring. }
  apply Rmult_integral in Hx. apply Rmult_integral in Hy.
  f_equal; tauto.
Qed.

Lemma roots_of_unity_sum (n m j : nat) :
  (m < n)%nat -> (j < n)%nat ->
  Csum_n (fun k => expi (INR k * (2 * PI * (INR m - INR j) / INR n))) n
  = if Nat.eqb j m then RtoC (INR n) else C0.
Proof.
  intros Hm Hj.
  assert (Hn : 0 < INR n) by (apply lt_0_INR; lia).
  destruct (Nat.eqb_spec j m) as [->|Hne].
  - rewrite (Csum_n_ext _ (fun _ => C1)).
    + clear. induction n as [|n IH]; [reflexivity|].
      rewrite Csum_n_S, IH, S_INR. unfold Cadd, RtoC, C1. simpl. f_equal; ring.
    + intros k _. replace (INR k * _) with 0; [apply expi_0|].
      unfold Rdiv. ring.
  - set (theta := 2 * PI * (INR m - INR j) / INR n).
    apply (Cmul_cancel (Cadd (expi theta) (-1, 0))).
    + unfold expi, Cadd, C0. simpl. intros H. inversion H as [[H1 H2]].
      assert (Hc : cos theta = 1) by lra.
      revert Hc. pose proof PI_RGT_0 as HPI.
      assert (Hm' : INR m < INR n) by (apply lt_INR; lia).
      assert (Hj' : INR j < INR n) by (apply lt_INR; lia).
      pose proof (pos_INR m). pose proof (pos_INR j).
      assert (Hd : INR m - INR j <> 0).
      { intros E. apply Hne. symmetry. apply INR_eq. lra. }
      apply cos_ne_1; unfold theta.
      * intros E. apply Hd.
        assert (E' : 2 * PI * (INR m - INR j) = 0).
        { apply (Rmult_eq_reg_r (/ INR n)); [|apply Rinv_neq_0_compat; lra].
          rewrite Rmult_0_l. exact E. }
        nra.
      * apply (Rmult_lt_reg_r (INR n)); [exact Hn|].
        unfold Rdiv. rewrite Rmult_assoc, Rinv_l by lra. nra.
      * apply (Rmult_lt_reg_r (INR n)); [exact Hn|].
        unfold Rdiv. rewrite Rmult_assoc, Rinv_l by lra. nra.
    + rewrite geometric_telescope.
      replace (INR n * theta) with (2 * PI * INR m + - (2 * PI * INR j))
        by (unfold theta; field; lra).
      rewrite expi_add, expi_neg, !expi_2pi_nat.
      unfold Cmul, Cadd, C1, C0. simpl. f_equal; ring.
Qed.

(** the discrete Fourier sum as a sum over the index range *)
Lemma imap_as_seq {A B} (g : nat -> A -> B) (d : A) (v : list A) :
  imap g v = map (fun j => g j (default d (v !! j))) (seq 0 (length v)).
Proof.
  apply list_eq. intros i.
  rewrite list_lookup_imap, list_lookup_fmap.
  destruct (v !! i) as [x|] eqn:E; simpl.
  - rewrite lookup_seq_lt by (eapply lookup_lt_Some; eauto).
    simpl. rewrite E. reflexivity.
  - rewrite lookup_seq_ge; [reflexivity|]. apply lookup_ge_None. exact E.
Qed.

Lemma dft_sum_as_sum sgn v k :
  dft_sum sgn v k
  = Csum_n (fun j => Cmul (default C0 (v !! j))
                          (expi (sgn * (2 * PI * INR k * INR j / INR (length v)))))
           (length v).
Proof. unfold dft_sum, Csum_n. rewrite (imap_as_seq _ C0). reflexivity. Qed.

Lemma length_dft sgn v n : length (map (dft_sum sgn v) (seq 0 n)) = n.
Proof. rewrite length_map, length_seq. reflexivity. Qed.

Lemma dft_inverse_entry (v : list C) i :
  (i < length v)%nat ->
  dft_sum 1 (map (dft_sum (-1) v) (seq 0 (length v))) i
  = Cmul (default C0 (v !! i)) (RtoC (INR (length v))).
Proof.
  intros Hi. set (n := length v).
  assert (Hn : 0 < INR n) by (apply lt_0_INR; lia).
  rewrite dft_sum_as_sum, length_dft. fold n.
  rewrite (Csum_n_ext _ (fun k => Csum_n (fun j =>
             Cmul (default C0 (v !! j))
                  (expi (INR k * (2 * PI * (INR i - INR j) / INR n)))) n)).
  - rewrite Csum_n_swap.
    rewrite (Csum_n_ext _ (fun j => if Nat.eqb j i
               then Cmul (default C0 (v !! j)) (RtoC (INR n)) else C0)).
    + apply Csum_n_delta. exact Hi.
    + intros j Hj. rewrite Csum_n_mul_l.
      rewrite roots_of_unity_sum by assumption.
      destruct (Nat.eqb j i); [reflexivity|apply Cmul_0_r].
  - intros k Hk.
    rewrite list_lookup_fmap, lookup_seq_lt by exact Hk. simpl.
    rewrite dft_sum_as_sum. fold n.
    rewrite <- Csum_n_mul_r. apply Csum_n_ext. intros j Hj.
    rewrite <- Cmul_assoc. f_equal. rewrite <- expi_add. f_equal.
    field. lra.
Qed.

Lemma Cdivr_mul x r : r <> 0 -> Cdivr (Cmul x (RtoC r)) r = x.
Proof.
  intros Hr. destruct x as [a b]. unfold Cdivr, Cmul, RtoC. simpl.
  f_equal; field; exact Hr.
Qed.

Lemma fft_Ok v :
  v <> [] -> fft v = Ok (map (dft_sum (-1) v) (seq 0 (length v))).
Proof. destruct v; [congruence|reflexivity]. Qed.

Lemma ifft_Ok v :
  v <> [] ->
  ifft v = Ok (map (fun m => Cdivr (dft_sum 1 v m) (INR (length v)))
                   (seq 0 (length v))).
Proof. destruct v; [congruence|reflexivity]. Qed.

Lemma nonempty_length {A} (v : list A) : v <> [] <-> (0 < length v)%nat.
Proof. destruct v; simpl; split; intros; try congruence; lia. Qed.

(** The inverse transform undoes the forward transform. *)
Lemma ifft_fft (v : list C) : v <> [] -> rbind (fft v) ifft = Ok v.
Proof.
  intros Hv. pose proof (proj1 (nonempty_length v) Hv) as Hn.
  rewrite fft_Ok by exact Hv. unfold rbind.
  rewrite ifft_Ok by (apply nonempty_length; rewrite length_dft; exact Hn).
  rewrite length_dft. f_equal.
  apply list_eq. intros i. rewrite list_lookup_fmap.
  destruct (le_lt_dec (length v) i) as [Hi|Hi].
  - rewrite lookup_seq_ge by exact Hi. simpl. symmetry.
    apply lookup_ge_None. exact Hi.
  - rewrite lookup_seq_lt by exact Hi. simpl.
    rewrite dft_inverse_entry by exact Hi.
    rewrite Cdivr_mul by (apply not_0_INR; lia).
    destruct (v !! i) as [z|] eqn:E; [reflexivity|].
    apply lookup_ge_None in E. lia.
Qed.

(** ** The pipeline with the identity as weight operator *)

Lemma zip_with_seq_as_map {A} (g : nat -> A) (f : A -> C -> C) (y : list C) :
  zip_with f (map g (seq 0 (length y))) y
  = map (fun j => f (g j) (default C0 (y !! j))) (seq 0 (length y)).
Proof.
  apply list_eq. intros i. rewrite lookup_zip_with, !list_lookup_fmap.
  destruct (le_lt_dec (length y) i) as [Hi|Hi].
  - rewrite lookup_seq_ge by exact Hi. reflexivity.
  - rewrite lookup_seq_lt by exact Hi. simpl.
    destruct (y !! i) as [z|] eqn:E; [reflexivity|].
    apply lookup_ge_None in E. lia.
Qed.

Lemma np_dot_identity (y : list C) : np_dot (identity (length y)) y = Ok y.
Proof.
  unfold np_dot. rewrite length_identity, Nat.eqb_refl. f_equal.
  unfold identity. apply list_eq. intros i. rewrite !list_lookup_fmap.
  destruct (le_lt_dec (length y) i) as [Hi|Hi].
  - rewrite lookup_seq_ge by exact Hi. simpl. symmetry.
    apply lookup_ge_None. exact Hi.
  - rewrite lookup_seq_lt by exact Hi. simpl.
    rewrite zip_with_seq_as_map. fold (Csum_n (fun j =>
      Cmul (if Nat.eqb i j then C1 else C0) (default C0 (y !! j))) (length y)).
    rewrite (Csum_n_ext _ (fun j => if Nat.eqb j i
                                    then default C0 (y !! j) else C0)).
    + rewrite Csum_n_delta by exact Hi.
      destruct (y !! i) as [z|] eqn:E; [reflexivity|].
      apply lookup_ge_None in E. lia.
    + intros j _. rewrite (Nat.eqb_sym j i).
      destruct (Nat.eqb i j); [apply Cmul_1_l|apply Cmul_0_l].
Qed.

Section IdentityWeights.

Variable pinv : list (list C) -> list (list C).
Variable get_window : string -> nat -> result (list R).

(** Lines 81-83: one object is allocated, the normalised window. *)
Lemma make_taper_inv taper nf h a h' :
  make_taper get_window taper nf h = (Ok a, h') ->
  exists w, get_window taper nf = Ok w /\ a = length h /\
            h' = h ++ [RVec (normalise w)].
Proof.
  unfold make_taper. intros H.
  apply bind_Ok_inv in H. destruct H as (w & h1 & H1 & H).
  apply lift_Ok_inv in H1. destruct H1 as [Hw ->].
  rewrite bind_alloc in H.
  rewrite (bind_get_rvec _ _ _ _ (lookup_snoc_new h _)) in H.
  rewrite bind_put, insert_snoc in H.
  rewrite (bind_get_rvec _ _ _ _ (lookup_snoc_new h _)) in H.
  inversion H; subst. eauto.
Qed.

Lemma make_taper_run taper nf h w :
  get_window taper nf = Ok w ->
  make_taper get_window taper nf h
  = (Ok (length h), h ++ [RVec (normalise w)]).
Proof.
  intros Hw. unfold make_taper. rewrite Hw, bind_lift_Ok, bind_alloc.
  rewrite (bind_get_rvec _ _ _ _ (lookup_snoc_new h _)).
  rewrite bind_put, insert_snoc.
  rewrite (bind_get_rvec _ _ _ _ (lookup_snoc_new h _)). reflexivity.
Qed.

(** Lines 84-88: with [weights = "I"] one matrix of [nf] rows is
    allocated and is the weight operator. *)
Lemma select_weights_I_inv nf freqs flags ff pc pw zf cache h r h' :
  select_weights pinv nf freqs flags ff pc pw "I" zf cache h = (Ok r, h') ->
  exists M, r = Some (length h) /\ h' = h ++ [CMat M] /\ length M = nf.
Proof.
  unfold select_weights. rewrite String.eqb_refl. rewrite bind_alloc.
  intros H. apply bind_Ok_inv in H. destruct H as ([] & h1 & H1 & H).
  inversion H; subst; clear H. destruct zf.
  - apply bind_Ok_inv in H1. destruct H1 as (fl & h2 & H2 & H1).
    apply get_bvec_Ok_inv in H2. destruct H2 as [_ ->].
    assert (L : length fl = nf).
    { unfold zero_flagged in H1.
      rewrite (bind_get_mat _ _ _ _ (lookup_snoc_new h _)) in H1.
      apply bind_Ok_inv in H1. destruct H1 as ([] & h2 & H2 & _).
      rewrite length_identity in H2.
      destruct (Nat.eqb_spec (length fl) nf); [assumption|discriminate]. }
    rewrite (zero_flagged_run _ fl (identity nf)) in H1.
    + inversion H1; subst. rewrite insert_snoc. eexists. split; [reflexivity|].
      split; [reflexivity|].
      unfold zero_rows, zero_cols.
      rewrite length_zip_with_l_eq; rewrite ?length_map, ?length_identity; lia.
    + apply lookup_snoc_new.
    + rewrite length_identity. exact L.
  - inversion H1; subst. eexists. split; [reflexivity|].
    split; [reflexivity|apply length_identity].
Qed.

Lemma select_weights_I_run nf freqs flags ff pc pw cache h :
  select_weights pinv nf freqs flags ff pc pw "I" false cache h
  = (Ok (Some (length h)), h ++ [CMat (identity nf)]).
Proof. unfold select_weights. rewrite String.eqb_refl. reflexivity. Qed.

(** Lines 92-94 with the identity as weight operator. *)
Lemma apply_and_transform_identity h wa ta ydata y t :
  h !! wa = Some (CMat (identity (length y))) ->
  h !! ydata = Some (CVec y) -> h !! ta = Some (RVec t) ->
  length t = length y -> y <> [] ->
  apply_and_transform (Some wa) ydata ta h
  = (Ok (map (dft_sum (-1) (zip_with (fun x r => Cmul x (RtoC r)) y t))
             (seq 0 (length y))), h).
Proof.
  intros Hw Hy Ht Hlen Hne. unfold apply_and_transform.
  rewrite bind_ret, (bind_get_mat _ _ _ _ Hw), (bind_get_cvec _ _ _ _ Hy).
  rewrite np_dot_identity, bind_lift_Ok, (bind_get_rvec _ _ _ _ Ht).
  unfold bcast_vec. rewrite Hlen, Nat.eqb_refl, bind_lift_Ok.
  rewrite fft_Ok.
  - rewrite length_zip_with_l_eq by (symmetry; exact Hlen). reflexivity.
  - apply nonempty_length.
    rewrite length_zip_with_l_eq by (symmetry; exact Hlen).
    apply nonempty_length. exact Hne.
Qed.

(** Lines 81-94 with [weights = "I"] and [zero_flags] unset: the taper and
    the identity are allocated, and the transform of the tapered data is
    returned. *)
Lemma forward_stage_identity freqs ydata flags ff pc pw taper cache h y w :
  get_window taper (length y) = Ok w ->
  h !! ydata = Some (CVec y) ->
  length w = length y -> y <> [] ->
  forward_stage pinv get_window (length y) freqs ydata flags ff pc pw
    "I" false taper cache h
  = (Ok (length h,
         map (dft_sum (-1) (zip_with (fun x r => Cmul x (RtoC r)) y
                                      (normalise w)))
             (seq 0 (length y))),
     h ++ [RVec (normalise w); CMat (identity (length y))]).
Proof.
  intros Hwin Hy Hlen Hne. unfold forward_stage.
  unfold bind at 1. rewrite (make_taper_run _ _ _ _ Hwin).
  unfold bind at 1. rewrite select_weights_I_run.
  assert (Ly : (ydata < length h)%nat) by (eapply lookup_lt_Some; eauto).
  unfold bind at 1.
  rewrite (apply_and_transform_identity _ _ _ _ y (normalise w)).
  - unfold ret. rewrite <- app_assoc. reflexivity.
  - apply lookup_snoc_new.
  - rewrite !lookup_app_l; [exact Hy|lia|rewrite length_app; lia].
  - rewrite lookup_app_l by (rewrite length_app; simpl; lia).
    apply lookup_snoc_new.
  - unfold normalise. rewrite length_map. exact Hlen.
  - exact Hne.
Qed.

End IdentityWeights.

(** ** The round trip through the transform *)

Lemma ifft_dft (v : list C) :
  v <> [] -> ifft (map (dft_sum (-1) v) (seq 0 (length v))) = Ok v.
Proof.
  intros Hv. pose proof (ifft_fft v Hv) as H.
  rewrite fft_Ok in H by exact Hv. exact H.
Qed.

Lemma Rsum_squares_pos (w : list R) :
  w <> [] -> Forall (fun x => x <> 0) w -> 0 < Rsum (map (fun x => x * x) w).
Proof.
  intros Hne Hall. induction Hall as [|x w Hx Hall IH]; [congruence|].
  simpl. assert (0 < x * x) by nra.
  destruct w as [|x' w'].
  - simpl. lra.
  - assert (0 < Rsum (map (fun x => x * x) (x' :: w'))) by (apply IH; congruence).
    lra.
Qed.

Lemma normalise_nonzero (w : list R) :
  w <> [] -> Forall (fun x => x <> 0) w ->
  Forall (fun x => x <> 0) (normalise w).
Proof.
  intros Hne Hall. unfold normalise. apply Forall_fmap.
  assert (Hs : 0 < sqrt (mean (map (fun x => x * x) w))).
  { apply sqrt_lt_R0. unfold mean. apply Rdiv_lt_0_compat.
    - apply Rsum_squares_pos; assumption.
    - apply lt_0_INR. rewrite length_map. apply nonempty_length. exact Hne. }
  eapply Forall_impl; [exact Hall|]. simpl. intros x Hx.
  unfold Rdiv. apply Rmult_integral_contrapositive_currified; [exact Hx|].
  apply Rinv_neq_0_compat. lra.
Qed.

Lemma untaper (y : list C) (t : list R) :
  length t = length y -> Forall (fun x => x <> 0) t ->
  zip_with Cdivr (zip_with (fun x r => Cmul x (RtoC r)) y t) t = y.
Proof.
  intros Hlen Hall. revert y Hlen.
  induction Hall as [|r t Hr Hall IH]; intros [|x y] Hlen;
    simpl in *; try reflexivity; try discriminate.
  rewrite Cdivr_mul by exact Hr. f_equal. apply IH. lia.
Qed.

(** The round trip of lines 92-109 in exact arithmetic.  With
    [weights = "I"], [zero_flags] unset and [output_domain = "frequency"],
    for every data vector (of the length of the frequency axis, which is
    not empty) and every taper window without a zero entry, the pipeline
    returns the frequency axis itself, unchanged, and, over the exact
    real and complex numbers of this development, an output equal to the
    input data: the inverse transform undoes the forward transform and
    the division by the taper undoes the tapering.  This is the algebra
    of the code only: nothing is said about float64, where the rounding
    error of the two transforms is divided by the taper and a small entry
    of the window can lose the channel. *)
Theorem frequency_round_trip pinv get_window freqs ydata flags ff pc pw
    taper cache h fv y w :
  h !! freqs = Some (RVec fv) -> h !! ydata = Some (CVec y) ->
  length y = length fv -> fv <> [] ->
  get_window taper (length fv) = Ok w -> length w = length fv ->
  Forall (fun x => x <> 0) w ->
  exists out h',
    dedekind pinv get_window freqs ydata flags ff pc pw "I" false
      "frequency" taper cache h = (Ok (freqs, out), h') /\
    h' !! freqs = Some (RVec fv) /\
    h' !! out = Some (CVec y).
Proof.
  intros Hf Hy Hlen Hne Hwin Hw Hall.
  assert (Hyne : y <> []).
  { apply nonempty_length. rewrite Hlen. apply nonempty_length. exact Hne. }
  assert (Hwne : w <> []).
  { apply nonempty_length. rewrite Hw. apply nonempty_length. exact Hne. }
  assert (Ln : length (normalise w) = length y).
  { unfold normalise. rewrite length_map. congruence. }
  exists (length h + 2)%nat,
    (h ++ [RVec (normalise w); CMat (identity (length y)); CVec y]).
  assert (Lf : (freqs < length h)%nat) by (eapply lookup_lt_Some; eauto).
  split; [|split].
  - unfold dedekind. rewrite (bind_get_rvec _ _ _ _ Hf). rewrite <- Hlen in *.
    unfold bind at 1.
    rewrite (forward_stage_identity pinv get_window freqs ydata flags ff pc pw
               taper cache h y w Hwin Hy Hw Hyne).
    simpl fst. simpl snd. unfold select_domain. rewrite String.eqb_refl.
    set (v := zip_with (fun x r => Cmul x (RtoC r)) y (normalise w)).
    assert (Lv : length v = length y).
    { unfold v. apply length_zip_with_l_eq. symmetry. exact Ln. }
    rewrite <- Lv. rewrite ifft_dft
      by (apply nonempty_length; rewrite Lv; apply nonempty_length; exact Hyne).
    rewrite bind_lift_Ok.
    rewrite (bind_get_rvec (length h) (normalise w)).
    2:{ rewrite lookup_app_r by lia. rewrite Nat.sub_diag. reflexivity. }
    unfold bcast_vec. rewrite Lv, Ln, Nat.eqb_refl, bind_lift_Ok.
    unfold v. rewrite untaper by (auto using normalise_nonzero).
    rewrite bind_alloc. unfold ret. rewrite length_app. simpl length.
    rewrite <- app_assoc. reflexivity.
  - rewrite lookup_app_l by exact Lf. exact Hf.
  - rewrite lookup_app_r by lia.
    replace (length h + 2 - length h)%nat with 2%nat by lia. reflexivity.
Qed.

Lemma frequency_round_trip_witness :
  exists out h',
    dedekind pinv_self boxcar_window 2 4 5 1 9 10 "I" false "frequency"
      "boxcar" 0 example_heap = (Ok (2%nat, out), h') /\
    h' !! 2%nat = Some (RVec [100; 101]) /\
    h' !! out = Some (CVec [(1, 0); (0, 0)]).
Proof.
  apply (frequency_round_trip pinv_self boxcar_window 2 4 5 1 9 10 "boxcar"
           0%nat example_heap [100; 101] [(1, 0); (0, 0)] [1; 1]);
    [reflexivity|reflexivity|reflexivity|discriminate|reflexivity
    |reflexivity|].
  repeat constructor; lra.
Defined.

(** ** The delay domain *)

Lemma fftshift_centre {A} (X : list A) :
  fftshift X !! (length X / 2)%nat = X !! 0%nat.
Proof.
  unfold fftshift. destruct X as [|x X']; [reflexivity|].
  set (v := x :: X'). set (n := length v).
  assert (Hdiv : (n / 2 < n)%nat) by (apply Nat.div_lt; unfold n; simpl; lia).
  generalize dependent (n / 2)%nat. intros d Hd.
  assert (Ld : length (drop (n - d) v) = d) by (rewrite length_drop; fold n; lia).
  rewrite lookup_app_r by lia. rewrite Ld, Nat.sub_diag.
  rewrite lookup_take_lt by lia. reflexivity.
Qed.

(** C9. With an output domain other than "frequency" (the delay
    default), once the forward transform [X] of lines 80-94 is there and
    the axis has two channels at least (the claim reads [frequencies[1]]),
    the pipeline returns a new axis, [arange(-nf/2, nf/2) / (df * nf)] with
    [df = frequencies[1] - frequencies[0]], that is the values
    [(i - nf/2) / (df * nf)] for [i < nf], and the output [fftshift X],
    in which the zero-delay bin [X[0]] sits at the middle index
    [len(X) // 2]. *)
Theorem delay_domain_output pinv get_window freqs ydata flags ff pc pw
    weights zf dom taper cache h fv f0 f1 t X h1 :
  dom <> "frequency"%string ->
  h !! freqs = Some (RVec fv) -> freqs <> WMAT_CACHE ->
  fv !! 0%nat = Some f0 -> fv !! 1%nat = Some f1 ->
  forward_stage pinv get_window (length fv) freqs ydata flags ff pc pw
    weights zf taper cache h = (Ok (t, X), h1) ->
  dedekind pinv get_window freqs ydata flags ff pc pw weights zf dom taper
    cache h
  = (Ok (length h1, S (length h1)),
     h1 ++ [RVec (map (fun i => (INR i - INR (length fv) / 2)
                                / ((f1 - f0) * INR (length fv)))
                      (seq 0 (length fv)));
            CVec (fftshift X)]) /\
  fftshift X !! (length X / 2)%nat = X !! 0%nat.
Proof.
  intros Hdom Hf Hne H0 H1 Hfwd. split; [|apply fftshift_centre].
  assert (Hf1 : h1 !! freqs = Some (RVec fv)).
  { assert (X1 : ext h h1).
    { eapply safe_forward_stage; [apply ext_refl|exact Hfwd]. }
    destruct X1 as [_ X1]. rewrite X1; [exact Hf| |exact Hne].
    eapply lookup_lt_Some; eauto. }
  unfold dedekind. rewrite (bind_get_rvec _ _ _ _ Hf).
  unfold bind at 1. rewrite Hfwd. simpl fst. simpl snd.
  unfold select_domain.
  destruct (String.eqb_spec dom "frequency") as [E|_]; [contradiction|].
  rewrite (bind_get_rvec _ _ _ _ Hf1).
  unfold index. rewrite H1, H0. rewrite !bind_lift_Ok, !bind_alloc.
  unfold ret. rewrite length_app. simpl length.
  rewrite <- app_assoc. unfold arange_sym. rewrite map_map.
  rewrite Nat.add_1_r. reflexivity.
Qed.

Lemma delay_domain_output_witness :
  exists x h',
    dedekind pinv_self boxcar_window 2 4 5 1 9 10 "I" false "delay" "boxcar"
      0 example_heap = (Ok x, h').
Proof.
  do 2 eexists.
  refine (proj1 (delay_domain_output pinv_self boxcar_window 2 4 5 1 9 10
           "I" false "delay" "boxcar" 0%nat example_heap [100; 101] 100 101
           _ _ _ _ _ _ _ _ _)).
  - discriminate.
  - reflexivity.
  - discriminate.
  - reflexivity.
  - reflexivity.
  - apply (forward_stage_identity pinv_self boxcar_window 2 4 5 1 9 10
             "boxcar" 0%nat example_heap [(1, 0); (0, 0)] [1; 1]);
      [reflexivity|reflexivity|reflexivity|discriminate].
Defined.

(** ** Unsupported configurations *)

Section Configuration.

Variable pinv : list (list C) -> list (list C).
Variable get_window : string -> nat -> result (list R).

Lemma forward_stage_Ok_inv nf freqs ydata flags ff pc pw weights zf taper
    cache h p h' :
  forward_stage pinv get_window nf freqs ydata flags ff pc pw weights zf
    taper cache h = (Ok p, h') ->
  exists w wm h2 X,
    get_window taper nf = Ok w /\
    select_weights pinv nf freqs flags ff pc pw weights zf cache
      (h ++ [RVec (normalise w)]) = (Ok wm, h2) /\
    apply_and_transform wm ydata (length h) h2 = (Ok X, h') /\
    p = (length h, X).
Proof.
  unfold forward_stage. intros H.
  apply bind_Ok_inv in H. destruct H as (ta & h1 & H1 & H).
  apply make_taper_inv in H1. destruct H1 as (w & Hw & -> & ->).
  apply bind_Ok_inv in H. destruct H as (wm & h2 & H2 & H).
  apply bind_Ok_inv in H. destruct H as (X & h3 & H3 & H).
  inversion H; subst. exists w, wm, h2, X. auto.
Qed.

Lemma dedekind_Ok_inv freqs ydata flags ff pc pw weights zf dom taper cache
    h x h' :
  dedekind pinv get_window freqs ydata flags ff pc pw weights zf dom taper
    cache h = (Ok x, h') ->
  exists fv p h1,
    h !! freqs = Some (RVec fv) /\
    forward_stage pinv get_window (length fv) freqs ydata flags ff pc pw
      weights zf taper cache h = (Ok p, h1).
Proof.
  unfold dedekind. intros H.
  apply bind_Ok_inv in H. destruct H as (fv & h1 & H1 & H).
  apply get_rvec_Ok_inv in H1. destruct H1 as [Hf ->].
  apply bind_Ok_inv in H. destruct H as (p & h2 & H2 & _).
  eauto.
Qed.

(** No value of [weights] other than "I" and "WTL" binds [wmat]. *)
Lemma select_weights_unsupported nf freqs flags ff pc pw weights zf cache h :
  weights <> "I"%string -> weights <> "WTL"%string ->
  select_weights pinv nf freqs flags ff pc pw weights zf cache h
  = (Ok None, h).
Proof.
  intros H1 H2. unfold select_weights.
  destruct (String.eqb_spec weights "I"); [contradiction|].
  destruct (String.eqb_spec weights "WTL"); [contradiction|]. reflexivity.
Qed.

(** The transform refuses an empty operator: with no channel, line 94
    raises. *)
Lemma apply_and_transform_empty wa ydata ta h X h' :
  h !! wa = Some (CMat []) ->
  apply_and_transform (Some wa) ydata ta h <> (Ok X, h').
Proof.
  intros Hw H. unfold apply_and_transform in H.
  rewrite bind_ret, (bind_get_mat _ _ _ _ Hw) in H.
  apply bind_Ok_inv in H. destruct H as (y & h1 & _ & H).
  apply bind_Ok_inv in H. destruct H as (o & h2 & H2 & H).
  apply lift_Ok_inv in H2. destruct H2 as [H2 _].
  unfold np_dot in H2. destruct y; simpl in H2; [|discriminate].
  inversion H2; subst o; clear H2.
  apply bind_Ok_inv in H. destruct H as (t & h3 & _ & H).
  apply bind_Ok_inv in H. destruct H as (o2 & h4 & H4 & H).
  apply lift_Ok_inv in H4. destruct H4 as [H4 _].
  assert (o2 = []).
  { unfold bcast_vec in H4.
    destruct t as [|t0 [|t1 t']]; simpl in H4; inversion H4; reflexivity. }
  subst o2. unfold lift, fft in H. discriminate.
Qed.

Lemma select_weights_empty_axis freqs flags ff pc pw weights zf cache h wm h' :
  h !! freqs = Some (RVec []) ->
  select_weights pinv 0 freqs flags ff pc pw weights zf cache h
  = (Ok wm, h') ->
  wm = None \/ exists wa, wm = Some wa /\ h' !! wa = Some (CMat []).
Proof.
  intros Hf H.
  destruct (String.eqb_spec weights "I") as [->|HI].
  - apply select_weights_I_inv in H. destruct H as (M & -> & -> & L).
    destruct M; [|discriminate]. right. eexists. split; [reflexivity|].
    apply lookup_snoc_new.
  - unfold select_weights in H.
    destruct (String.eqb_spec weights "I"); [contradiction|].
    destruct (String.eqb_spec weights "WTL").
    + rewrite (bind_get_rvec _ _ _ _ Hf) in H. discriminate.
    + inversion H. auto.
Qed.

End Configuration.

(** C6, as amended.  The pipeline has no validation step, but it never
    falls back to a supported behaviour: for every [weights] value other
    than "I" and "WTL", for an empty frequency axis, and with
    [weights = "I"] for data whose length differs from that of the
    frequency axis, the call ends in an exception and returns no result,
    whatever the other arguments.  (The exception is raised where the
    missing value is first used, after the taper has been computed; a
    flag mask of the wrong length goes unnoticed when [zero_flags] is
    unset.) *)
Theorem unsupported_configuration_raises pinv get_window freqs ydata flags
    ff pc pw weights zf dom taper cache h :
  (weights <> "I"%string /\ weights <> "WTL"%string) \/
  h !! freqs = Some (RVec []) \/
  (weights = "I"%string /\
   exists fv y, h !! freqs = Some (RVec fv) /\ h !! ydata = Some (CVec y) /\
                length y <> length fv) ->
  exists e h',
    dedekind pinv get_window freqs ydata flags ff pc pw weights zf dom taper
      cache h = (Raise e, h').
Proof.
  intros Hcase.
  destruct (dedekind pinv get_window freqs ydata flags ff pc pw weights zf
              dom taper cache h) as [[x|e] h'] eqn:E; [exfalso|eauto].
  apply dedekind_Ok_inv in E. destruct E as (fv & p & h1 & Hf & E).
  apply forward_stage_Ok_inv in E.
  destruct E as (w & wm & h2 & X & Hw & Hsel & Happ & _).
  assert (Lf : (freqs < length h)%nat) by (eapply lookup_lt_Some; eauto).
  destruct Hcase as [[H1 H2]|[Hempty|[-> (fv' & y & Hf' & Hy & Hlen)]]].
  - rewrite select_weights_unsupported in Hsel by assumption.
    inversion Hsel; subst. unfold apply_and_transform in Happ. discriminate.
  - rewrite Hf in Hempty. inversion Hempty; subst fv. simpl in Hsel.
    apply select_weights_empty_axis in Hsel.
    + destruct Hsel as [->|(wa & -> & Hwa)].
      * unfold apply_and_transform in Happ. discriminate.
      * exact (apply_and_transform_empty _ _ _ _ _ _ Hwa Happ).
    + rewrite lookup_app_l by exact Lf. exact Hf.
  - rewrite Hf in Hf'. inversion Hf'; subst fv'.
    apply select_weights_I_inv in Hsel. destruct Hsel as (M & -> & -> & L).
    unfold apply_and_transform in Happ.
    rewrite bind_ret, (bind_get_mat _ _ _ _ (lookup_snoc_new _ _)) in Happ.
    assert (Ly : (ydata < length h)%nat) by (eapply lookup_lt_Some; eauto).
    rewrite (bind_get_cvec ydata y) in Happ
      by (rewrite !lookup_app_l; [exact Hy|lia|rewrite length_app; lia]).
    unfold np_dot in Happ. rewrite L in Happ.
    destruct (Nat.eqb_spec (length fv) (length y)); [congruence|].
    discriminate.
Qed.

Lemma unsupported_configuration_raises_witness :
  exists e h',
    dedekind pinv_self boxcar_window 2 4 5 1 9 10 "WLT" true "delay" "boxcar"
      0 example_heap = (Raise e, h').
Proof.
  apply (unsupported_configuration_raises pinv_self boxcar_window 2 4 5 1 9 10
           "WLT" true "delay" "boxcar" 0%nat example_heap).
  left. split; discriminate.
Defined.

(** C6, the claim as stated fails: a flag mask of the wrong length (one
    entry for two channels) raises nothing when [zero_flags] is unset;
    the pipeline returns a result. *)
Lemma flags_length_unchecked :
  exists x h',
    dedekind pinv_self boxcar_window 2 4 7 1 8 8 "I" false "delay" "boxcar" 0
      example_heap = (Ok x, h').
Proof.
  unfold dedekind. rewrite (bind_get_rvec 2 [100; 101]) by reflexivity.
  unfold bind at 1.
  change (length [100; 101]) with (@length C [(1, 0); (0, 0)]).
  rewrite (forward_stage_identity pinv_self boxcar_window 2 4 7 1 8 8
             "boxcar" 0%nat example_heap [(1, 0); (0, 0)] [1; 1]);
    [|reflexivity|reflexivity|reflexivity|discriminate].
  do 2 eexists. reflexivity.
Qed.

(** ** The continuous construction with one patch *)

Lemma mat_add_zeros_l n (X : list (list C)) :
  (length X <= n)%nat -> Forall (fun row => (length row <= n)%nat) X ->
  mat_add (zeros n) X = X.
Proof.
  intros HX Hrows. unfold mat_add, mat_zip, zeros.
  rewrite zip_with_replicate_l by exact HX.
  rewrite <- (list_fmap_id X) at 2.
  apply Forall_fmap_ext. eapply Forall_impl; [exact Hrows|].
  simpl. intros row Hrow.
  rewrite zip_with_replicate_l by exact Hrow.
  rewrite <- (list_fmap_id row) at 2.
  apply list_fmap_ext. intros i x _. apply Cadd_0_l.
Qed.

Lemma zip_with_fmap_same {A B D E} (g : B -> D -> E) (a : A -> B)
    (b : A -> D) (l : list A) :
  zip_with g (map a l) (map b l) = map (fun x => g (a x) (b x)) l.
Proof. induction l as [|x l IH]; simpl; [reflexivity|]. rewrite IH. reflexivity. Qed.

Lemma bcast_cols_single {A B D} (f : A -> B -> D) n (X : list (list A)) w0 :
  Forall (fun row => length row = n) X ->
  bcast_cols f n X [w0] = Ok (map (map (fun x => f x w0)) X).
Proof.
  intros Hrows. unfold bcast_cols. simpl length.
  destruct (Nat.eqb_spec 1 n) as [<-|_]; [|reflexivity].
  f_equal. apply Forall_fmap_ext. eapply Forall_impl; [exact Hrows|].
  simpl. intros [|x [|x' row]] Hlen; simpl in *; try discriminate. reflexivity.
Qed.

Lemma meshgrid_rows (v : list R) :
  Forall (fun row => length row = length v) (meshgrid_diff v).
Proof.
  unfold meshgrid_diff. apply Forall_fmap, Forall_forall. intros x _.
  simpl. apply length_map.
Qed.

Lemma entry_meshgrid (v : list R) i j vi vj :
  v !! i = Some vi -> v !! j = Some vj ->
  match meshgrid_diff v !! i with
  | Some row => row !! j
  | None => None
  end = Some (vj - vi).
Proof.
  intros Hi Hj. unfold meshgrid_diff.
  rewrite list_lookup_fmap, Hi. simpl. rewrite list_lookup_fmap, Hj. reflexivity.
Qed.

Lemma grid_lookup nf df i :
  (i < nf)%nat ->
  map (fun x => x * df) (arange_sym nf) !! i = Some (spec_freq nf df i).
Proof.
  intros Hi. unfold arange_sym, spec_freq.
  rewrite !list_lookup_fmap, lookup_seq_lt by exact Hi. reflexivity.
Qed.

(** Line 32 for one patch: every entry of the summand is the patch's term
    at the difference [fx - fy] of that entry. *)
Lemma continuous_term_single nf df c w ff :
  continuous_term nf (map (fun x => x * df) (arange_sym nf)) [c] [w] ff
  = Ok (map (map (fun d => patch_term d c w ff))
            (meshgrid_diff (map (fun x => x * df) (arange_sym nf)))).
Proof.
  unfold continuous_term.
  pose proof (meshgrid_rows (map (fun x => x * df) (arange_sym nf))) as Hrows.
  rewrite length_arange in Hrows.
  rewrite !bcast_cols_single by exact Hrows. simpl rbind. f_equal.
  unfold mat_zip. rewrite zip_with_fmap_same.
  apply list_fmap_ext. intros i row _. rewrite zip_with_fmap_same. reflexivity.
Qed.

(** Lines 28-33 for one patch and [filter_factor > 0]: the accumulator
    holds the summand, the result is the summand plus the identity. *)
Lemma build_continuous_single nf df c w ff h :
  0 < ff ->
  build_continuous nf (map (fun x => x * df) (arange_sym nf)) [c] [w] ff h
  = (Ok (S (length h)),
     h ++ [CMat (map (map (fun d => patch_term d c w ff))
                     (meshgrid_diff (map (fun x => x * df) (arange_sym nf))));
           CMat (mat_add
                   (map (map (fun d => patch_term d c w ff))
                        (meshgrid_diff (map (fun x => x * df) (arange_sym nf))))
                   (identity nf))]).
Proof.
  intros Hff. unfold build_continuous. rewrite bind_alloc.
  simpl zip. simpl for_each. destruct (Rlt_dec 0 ff) as [_|N]; [|contradiction].
  rewrite continuous_term_single.
  set (T := map (map (fun d => patch_term d c w ff)) _).
  unfold bind at 1. unfold bind at 1. rewrite bind_lift_Ok.
  rewrite (bind_get_mat _ _ _ _ (lookup_snoc_new h _)).
  unfold put at 1. rewrite insert_snoc. unfold ret at 1.
  rewrite (bind_get_mat _ _ _ _ (lookup_snoc_new h _)).
  assert (HT : mat_add (zeros nf) T = T).
  { apply mat_add_zeros_l.
    - unfold T, meshgrid_diff. rewrite 2!length_map, length_arange. lia.
    - unfold T. apply Forall_fmap.
      pose proof (meshgrid_rows (map (fun x => x * df) (arange_sym nf))) as Hr.
      rewrite length_arange in Hr.
      eapply Forall_impl; [exact Hr|]. simpl. intros row Hrow.
      rewrite length_map. lia. }
  rewrite HT. unfold alloc. rewrite length_arange, length_app, <- app_assoc.
  simpl. rewrite Nat.add_1_r. reflexivity.
Qed.

Lemma entry_single_patch nf df c w ff i j :
  (i < nf)%nat -> (j < nf)%nat ->
  entry (mat_add
           (map (map (fun d => patch_term d c w ff))
                (meshgrid_diff (map (fun x => x * df) (arange_sym nf))))
           (identity nf)) i j
  = Some (Cadd (patch_term (spec_freq nf df j - spec_freq nf df i) c w ff)
               (if Nat.eqb i j then C1 else C0)).
Proof.
  intros Hi Hj.
  pose proof (entry_meshgrid _ i j _ _ (grid_lookup nf df i Hi)
                (grid_lookup nf df j Hj)) as HD.
  pose proof (entry_identity nf i j Hi Hj) as HI.
  unfold entry in *. unfold mat_add, mat_zip.
  rewrite lookup_zip_with, list_lookup_fmap.
  destruct (meshgrid_diff _ !! i) as [row|]; [|discriminate]. simpl.
  destruct (identity nf !! i) as [irow|]; [|discriminate]. simpl.
  rewrite lookup_zip_with, list_lookup_fmap, HD, HI. reflexivity.
Qed.

(** C1, as amended.  In continuous mode, for a patch list of exactly one
    patch [(c, w)] and [filter_factor > 0], the inverse-filter matrix is
    the identity plus that patch's term
    [sinc(2 d w) exp(-2 pi i d c) / filter_factor], taken at
    [d = freqs[j] - freqs[i]] for the entry [i, j] (the transpose of the
    difference written in the specification), with
    [freqs[i] = (i - nf/2) df]. *)
Theorem continuous_single_patch nf df c w ff h :
  0 < ff ->
  exists T M,
    build_continuous nf (map (fun x => x * df) (arange_sym nf)) [c] [w] ff h
    = (Ok (S (length h)), h ++ [CMat T; CMat M]) /\
    forall i j, (i < nf)%nat -> (j < nf)%nat ->
      entry M i j
      = Some (Cadd (patch_term (spec_freq nf df j - spec_freq nf df i)
                                    c w ff)
                   (if Nat.eqb i j then C1 else C0)).
Proof.
  intros Hff. do 2 eexists. split.
  - apply build_continuous_single. exact Hff.
  - intros i j Hi Hj. apply entry_single_patch; assumption.
Qed.

Lemma continuous_single_patch_witness :
  exists T M,
    build_continuous 2 (map (fun x => x * 1) (arange_sym 2)) [1 / 4] [1 / 4] 1
      example_heap
    = (Ok (S (length example_heap)), example_heap ++ [CMat T; CMat M]) /\
    forall i j, (i < 2)%nat -> (j < 2)%nat ->
      entry M i j
      = Some (Cadd (patch_term (spec_freq 2 1 j - spec_freq 2 1 i)
                                    (1 / 4) (1 / 4) 1)
                   (if Nat.eqb i j then C1 else C0)).
Proof. apply (continuous_single_patch 2 1 (1 / 4) (1 / 4) 1 example_heap). lra. Defined.

Lemma patch_term_quarter_pos :
  patch_term 1 (1 / 4) (1 / 4) 1 = (0, - (2 / PI)).
Proof.
  pose proof PI_RGT_0 as HPI.
  unfold patch_term, np_sinc.
  destruct (Req_dec_T (2 * 1 * (1 / 4)) 0) as [E|_]; [lra|].
  replace (PI * (2 * 1 * (1 / 4))) with (PI / 2) by field.
  replace (-2 * PI * 1 * (1 / 4)) with (- (PI / 2)) by field.
  unfold expi. rewrite cos_neg, sin_neg, sin_PI2, cos_PI2.
  unfold Cdivr, Cmul, RtoC. simpl. f_equal; field; lra.
Qed.

Lemma patch_term_quarter_neg :
  patch_term (-1) (1 / 4) (1 / 4) 1 = (0, 2 / PI).
Proof.
  pose proof PI_RGT_0 as HPI.
  unfold patch_term, np_sinc.
  destruct (Req_dec_T (2 * -1 * (1 / 4)) 0) as [E|_]; [lra|].
  replace (PI * (2 * -1 * (1 / 4))) with (- (PI / 2)) by field.
  replace (-2 * PI * -1 * (1 / 4)) with (PI / 2) by field.
  unfold expi. rewrite sin_neg, sin_PI2, cos_PI2.
  unfold Cdivr, Cmul, RtoC. simpl. f_equal; field; lra.
Qed.

(** C1, the claim as stated fails, already for one patch: two channels,
    [df = 1], the patch [(1/4, 1/4)], [filter_factor = 1].  The entry
    [0, 1] of the matrix built by lines 28-33 is [-(2/pi) i]; the
    specification's formula, with [freqs[0] - freqs[1]], gives
    [+(2/pi) i]. *)
Lemma continuous_entry_not_spec :
  exists a h' M x,
    build_continuous 2 (map (fun x => x * 1) (arange_sym 2)) [1 / 4] [1 / 4] 1
      example_heap = (Ok a, h') /\
    h' !! a = Some (CMat M) /\
    entry M 0 1 = Some x /\
    x <> spec_inv_filter_entry 2 1 [(1 / 4, 1 / 4)] 1 0 1.
Proof.
  do 4 eexists. split; [apply build_continuous_single; lra|].
  split; [reflexivity|].
  split; [apply entry_single_patch; lia|].
  unfold spec_inv_filter_entry. simpl map. simpl Csum. simpl Nat.eqb.
  replace (spec_freq 2 1 1 - spec_freq 2 1 0) with 1
    by (unfold spec_freq; simpl; lra).
  replace (spec_freq 2 1 0 - spec_freq 2 1 1) with (-1)
    by (unfold spec_freq; simpl; lra).
  cbv beta. simpl fst. simpl snd.
  rewrite patch_term_quarter_pos, patch_term_quarter_neg.
  unfold Cadd, C0. simpl. intros H. injection H as H.
  pose proof PI_RGT_0 as HPI.
  assert (0 < 2 / PI) by (apply Rdiv_lt_0_compat; lra). lra.
Qed.

(** With several patches the whole lists are broadcast against the
    [nf x nf] grid on line 32: two patches on three channels raise
    ValueError. *)
Lemma continuous_two_patches_raise h :
  exists h',
    build_continuous 3 (map (fun x => x * 1) (arange_sym 3)) [0; 1] [1; 2] 1 h
    = (Raise ValueError, h').
Proof.
  unfold build_continuous. rewrite bind_alloc. simpl zip. simpl for_each.
  destruct (Rlt_dec 0 1) as [_|N]; [|lra].
  eexists. reflexivity.
Qed.

(** ** Flag zeroing and the cache key *)

Lemma select_domain_delay_run nf freqs ta X dom h fv f0 f1 :
  dom <> "frequency"%string ->
  h !! freqs = Some (RVec fv) ->
  fv !! 0%nat = Some f0 -> fv !! 1%nat = Some f1 ->
  select_domain nf freqs ta X dom h
  = (Ok (length h, S (length h)),
     h ++ [RVec (map (fun a => a / ((f1 - f0) * INR nf)) (arange_sym nf));
           CVec (fftshift X)]).
Proof.
  intros Hdom Hf H0 H1. unfold select_domain.
  destruct (String.eqb_spec dom "frequency") as [E|_]; [contradiction|].
  rewrite (bind_get_rvec _ _ _ _ Hf).
  unfold index. rewrite H1, H0. rewrite !bind_lift_Ok, !bind_alloc.
  unfold ret. rewrite length_app. simpl length.
  rewrite <- app_assoc. rewrite Nat.add_1_r. reflexivity.
Qed.

Lemma dict_get_head (k k' : list R) a d :
  k = k' -> dict_get k ((k', a) :: d) = Some a.
Proof. intros ->. simpl. destruct (decide (k' = k')); congruence. Qed.

Section FilteredPipeline.

Variable pinv : list (list C) -> list (list C).
Variable get_window : string -> nat -> result (list R).

Lemma select_weights_WTL nf freqs flags ff pc pw zf cache :
  select_weights pinv nf freqs flags ff pc pw "WTL" zf cache
  = (let! fv := get_rvec freqs in
     let! f1 := lift (index fv 1) in
     let! f0 := lift (index fv 0) in
     let! wmat := linear_filter_matrix pinv (length fv) (f1 - f0) pc pw ff
                    zf flags cache false in
     ret (Some wmat)).
Proof. reflexivity. Qed.

(** The pipeline with [weights = "WTL"] in the delay domain, when the
    matrix that the cache layer hands back is the identity. *)
Lemma dedekind_wtl_identity_run freqs ydata flags ff pc pw zf dom taper cache
    h fv f0 f1 w y a h2 :
  dom <> "frequency"%string ->
  h !! freqs = Some (RVec fv) -> freqs <> WMAT_CACHE ->
  fv !! 0%nat = Some f0 -> fv !! 1%nat = Some f1 ->
  get_window taper (length fv) = Ok w -> length w = length fv ->
  h !! ydata = Some (CVec y) -> ydata <> WMAT_CACHE ->
  length y = length fv -> y <> [] ->
  linear_filter_matrix pinv (length fv) (f1 - f0) pc pw ff zf flags cache
    false (h ++ [RVec (normalise w)]) = (Ok a, h2) ->
  h2 !! a = Some (CMat (identity (length y))) ->
  dedekind pinv get_window freqs ydata flags ff pc pw "WTL" zf dom taper
    cache h
  = (Ok (length h2, S (length h2)),
     h2 ++ [RVec (map (fun a => a / ((f1 - f0) * INR (length fv)))
                      (arange_sym (length fv)));
            CVec (fftshift
                    (map (dft_sum (-1)
                            (zip_with (fun x r => Cmul x (RtoC r)) y
                                      (normalise w)))
                         (seq 0 (length y))))]).
Proof.
  intros Hdom Hf Hfne H0 H1 Hwin Hw Hy Hyne Hly Hne Hlfm Ha.
  assert (Lf : (freqs < length h)%nat) by (eapply lookup_lt_Some; eauto).
  assert (Ly : (ydata < length h)%nat) by (eapply lookup_lt_Some; eauto).
  assert (X : ext (h ++ [RVec (normalise w)]) h2).
  { eapply safe_linear_filter_matrix; [apply ext_refl|exact Hlfm]. }
  destruct X as [XL X]. rewrite length_app in XL, X. simpl in XL, X.
  assert (Hf1 : (h ++ [RVec (normalise w)]) !! freqs = Some (RVec fv))
    by (rewrite lookup_app_l by exact Lf; exact Hf).
  assert (Hf2 : h2 !! freqs = Some (RVec fv))
    by (rewrite X by (unfold WMAT_CACHE in *; lia); exact Hf1).
  assert (Hy2 : h2 !! ydata = Some (CVec y)).
  { rewrite X by (unfold WMAT_CACHE in *; lia).
    rewrite lookup_app_l by exact Ly. exact Hy. }
  assert (Ht2 : h2 !! length h = Some (RVec (normalise w))).
  { rewrite X by (unfold WMAT_CACHE in *; lia). apply lookup_snoc_new. }
  unfold dedekind. rewrite (bind_get_rvec _ _ _ _ Hf).
  unfold bind at 1. unfold forward_stage.
  unfold bind at 1. rewrite (make_taper_run _ _ _ _ _ Hwin).
  unfold bind at 1. rewrite select_weights_WTL.
  rewrite (bind_get_rvec _ _ _ _ Hf1).
  unfold index. rewrite H1, H0, !bind_lift_Ok.
  unfold bind at 1. rewrite Hlfm. unfold ret at 1.
  unfold bind at 1.
  rewrite (apply_and_transform_identity _ _ _ _ y (normalise w) Ha Hy2 Ht2).
  - unfold ret. simpl fst. simpl snd.
    apply (select_domain_delay_run _ _ _ _ _ _ fv f0 f1); assumption.
  - unfold normalise. rewrite length_map. congruence.
  - exact Hne.
Qed.

End FilteredPipeline.

Lemma dft_sum_zero_bin sgn (v : list C) : dft_sum sgn v 0 = Csum v.
Proof.
  unfold dft_sum. f_equal.
  rewrite (imap_ext _ (fun _ x => x)).
  - apply list_eq. intros i. rewrite list_lookup_imap.
    destruct (v !! i); reflexivity.
  - intros i x _. simpl.
    replace (sgn * (2 * PI * 0 * INR i / INR (length v))) with 0
      by (unfold Rdiv; ring).
    rewrite expi_0. apply Cmul_1_r.
Qed.

(** C5. The code at the failing input, two calls in a row on a fresh
    module cache, two channels, [zero_flags] set, [weights = "WTL"],
    [filter_factor = 0].
    - The first call has no flag and the patch [(0., 1.)]: its key ends
      in [... , 0., 1.] and the matrix stored is the identity.
    - The second call flags both channels and has no patch: its key ends
      in the flagged indices [... , 0, 1], the same tuple for Python, so
      the identity of the first call is handed back and the flagged
      channels are not zeroed.
    Run on two data vectors that differ only in the flagged channel 0,
    the second call returns two different outputs. *)
Theorem flag_zeroing_lost_on_key_collision pinv :
  pinv (identity 2) = identity 2 ->
  exists r1 h1,
    dedekind pinv boxcar_window 2 3 5 0 9 10 "WTL" true "delay" "boxcar" 0
      example_heap = (Ok r1, h1) /\
    exists x3 o3 h3 x4 o4 h4 X3 X4,
      dedekind pinv boxcar_window 2 3 6 0 8 8 "WTL" true "delay" "boxcar" 0 h1
      = (Ok (x3, o3), h3) /\
      dedekind pinv boxcar_window 2 4 6 0 8 8 "WTL" true "delay" "boxcar" 0 h1
      = (Ok (x4, o4), h4) /\
      h3 !! o3 = Some (CVec X3) /\ h4 !! o4 = Some (CVec X4) /\
      X3 <> X4.
Proof.
  intros Hpinv.
  assert (HFI : pinv (flagged_identity 2 true [false; false]) = identity 2)
    by exact Hpinv.
  set (tn := normalise [1; 1]).
  set (k1 := make_wkey 2 (101 - 100) 0 true false [false; false] [0] [1]).
  (* the first call *)
  set (hA := <[WMAT_CACHE := Dict [(k1, 14%nat)]]>
               ((example_heap ++ [RVec tn])
                  ++ [CMat (zeros 2);
                      CMat (flagged_identity 2 true [false; false]);
                      CMat (identity 2)])).
  assert (L1 : linear_filter_matrix pinv 2 (101 - 100) 9 10 0 true 5 0 false
                 (example_heap ++ [RVec tn]) = (Ok 14%nat, hA)).
  { rewrite (linear_filter_matrix_miss_skip pinv 2 (101 - 100) 9 10 0 true 5
               0%nat (example_heap ++ [RVec tn]) [false; false] [0] [1] []);
      [|lia|reflexivity|reflexivity|reflexivity|reflexivity|reflexivity
       |right; lra|reflexivity].
    rewrite HFI. reflexivity. }
  pose proof (dedekind_wtl_identity_run pinv boxcar_window 2 3 5 0 9 10 true
                "delay" "boxcar" 0%nat example_heap [100; 101] 100 101 [1; 1]
                [(0, 0); (0, 0)] 14%nat hA) as Call1.
  specialize (Call1 ltac:(discriminate) eq_refl ltac:(discriminate) eq_refl
                eq_refl eq_refl eq_refl eq_refl ltac:(discriminate) eq_refl
                ltac:(discriminate) L1 eq_refl).
  do 2 eexists. split; [exact Call1|].
  match type of Call1 with _ = (_, ?h) => set (hB := h) end.
  (* the second call: a hit on the entry of the first *)
  assert (L2 : linear_filter_matrix pinv 2 (101 - 100) 8 8 0 true 6 0 false
                 (hB ++ [RVec tn]) = (Ok 14%nat, hB ++ [RVec tn])).
  { apply (linear_filter_matrix_hit pinv 2 (101 - 100) 8 8 0 true 6 0%nat
             false (hB ++ [RVec tn]) [true; true] [] [] [(k1, 14%nat)]);
      [lia|reflexivity|reflexivity|reflexivity|reflexivity|].
    apply dict_get_head. reflexivity. }
  pose proof (dedekind_wtl_identity_run pinv boxcar_window 2 3 6 0 8 8 true
                "delay" "boxcar" 0%nat hB [100; 101] 100 101 [1; 1]
                [(0, 0); (0, 0)] 14%nat (hB ++ [RVec tn])) as Call3.
  specialize (Call3 ltac:(discriminate) eq_refl ltac:(discriminate) eq_refl
                eq_refl eq_refl eq_refl eq_refl ltac:(discriminate) eq_refl
                ltac:(discriminate) L2 eq_refl).
  pose proof (dedekind_wtl_identity_run pinv boxcar_window 2 4 6 0 8 8 true
                "delay" "boxcar" 0%nat hB [100; 101] 100 101 [1; 1]
                [(1, 0); (0, 0)] 14%nat (hB ++ [RVec tn])) as Call4.
  specialize (Call4 ltac:(discriminate) eq_refl ltac:(discriminate) eq_refl
                eq_refl eq_refl eq_refl eq_refl ltac:(discriminate) eq_refl
                ltac:(discriminate) L2 eq_refl).
  do 8 eexists. split; [exact Call3|]. split; [exact Call4|].
  split; [reflexivity|]. split; [reflexivity|].
  intros E. apply (f_equal (fun l : list C => l !! 1%nat)) in E.
  change (Some (dft_sum (-1) (zip_with (fun x r => Cmul x (RtoC r))
                                 [(0, 0); (0, 0)] tn) 0)
          = Some (dft_sum (-1) (zip_with (fun x r => Cmul x (RtoC r))
                                   [(1, 0); (0, 0)] tn) 0)) in E.
  rewrite !dft_sum_zero_bin in E. injection E as E _.
  assert (Hn : Forall (fun x => x <> 0) tn).
  { apply normalise_nonzero; [discriminate|]. repeat constructor; lra. }
  unfold tn, normalise in E, Hn. simpl in E, Hn.
  inversion Hn as [|t0 ? Ht0 _]; subst. lra.
Qed.

Lemma flag_zeroing_lost_on_key_collision_witness :
  exists r1 h1,
    dedekind pinv_self boxcar_window 2 3 5 0 9 10 "WTL" true "delay" "boxcar"
      0 example_heap = (Ok r1, h1) /\
    exists x3 o3 h3 x4 o4 h4 X3 X4,
      dedekind pinv_self boxcar_window 2 3 6 0 8 8 "WTL" true "delay" "boxcar"
        0 h1 = (Ok (x3, o3), h3) /\
      dedekind pinv_self boxcar_window 2 4 6 0 8 8 "WTL" true "delay" "boxcar"
        0 h1 = (Ok (x4, o4), h4) /\
      h3 !! o3 = Some (CVec X3) /\ h4 !! o4 = Some (CVec X4) /\
      X3 <> X4.
Proof. apply (flag_zeroing_lost_on_key_collision pinv_self). reflexivity. Defined.

(** ** Zero rows survive the pseudo-inverse

    What flag zeroing relies on when the matrix is built by the call
    itself: a row of zeros in the matrix handed to [np.linalg.pinv] (a
    flagged channel, lines 44-46) gives a column of zeros in the filter
    matrix, so that the data of that channel has no weight in
    [np.dot(wmat, ydata)]. *)
Lemma pinv_zero_column n (A P : list (list C)) j :
  penrose_reflexive n A P -> penrose_hermitian n A P ->
  (j < n)%nat ->
  (forall l, (l < n)%nat -> at_entry A j l = C0) ->
  forall i, (i < n)%nat -> at_entry P i j = C0.
Proof.
  intros H2 H3 Hj Hrow i Hi.
  assert (Hz : forall k, (k < n)%nat -> prod_entry A P n j k = C0).
  { intros k Hk. unfold prod_entry.
    rewrite (Csum_n_ext _ (fun _ => C0)); [apply Csum_n_zero|].
    intros l Hl. rewrite Hrow by exact Hl. apply Cmul_0_l. }
  rewrite H2 by assumption.
  rewrite (Csum_n_ext _ (fun _ => C0)); [apply Csum_n_zero|].
  intros k Hk. rewrite H3, Hz by assumption.
  unfold Cconj, C0. simpl. rewrite Ropp_0. apply Cmul_0_r.
Qed.

(** The rows of the flagged channels are zero in the matrix that lines
    44-46 leave, whatever was built before. *)
Lemma zero_flagged_row (fl : list bool) (M : list (list C)) j l :
  fl !! j = Some true ->
  at_entry (zero_rows fl (zero_cols fl M)) j l = C0.
Proof.
  intros Hj. unfold at_entry. rewrite entry_zero_rows, Hj.
  destruct (entry (zero_cols fl M) j l); reflexivity.
Qed.

(** * Further properties of the code *)

(** ** The taper *)

Lemma Rsum_scale c (l : list R) : Rsum (map (fun x => x * c) l) = Rsum l * c.
Proof. induction l as [|x l IH]; simpl; [ring|]. rewrite IH. ring. Qed.

Lemma Rsum_squares_nonneg (w : list R) : 0 <= Rsum (map (fun x => x * x) w).
Proof. induction w as [|x w IH]; simpl; [lra|]. nra. Qed.

Lemma Rsum_squares_pos_ex (w : list R) x :
  x ∈ w -> x <> 0 -> 0 < Rsum (map (fun x => x * x) w).
Proof.
  intros Hin Hx. induction Hin as [x w|x y w Hin IH]; simpl.
  - pose proof (Rsum_squares_nonneg w). nra.
  - specialize (IH Hx). nra.
Qed.

Lemma mean_squares_normalise (w : list R) :
  0 < mean (map (fun x => x * x) w) ->
  mean (map (fun x => x * x) (normalise w)) = 1.
Proof.
  intros Hpos. unfold normalise.
  set (m := mean (map (fun x => x * x) w)) in *.
  assert (Hs : sqrt m * sqrt m = m) by (apply sqrt_sqrt; lra).
  assert (Hs0 : sqrt m <> 0) by (pose proof (sqrt_lt_R0 m Hpos); lra).
  set (s := sqrt m) in *.
  rewrite map_map.
  rewrite (map_ext _ (fun x => x * x * / m)).
  2:{ intros x. rewrite <- Hs. field. exact Hs0. }
  rewrite <- (map_map (fun x => x * x) (fun z => z * / m)).
  unfold mean at 1. rewrite Rsum_scale, !length_map.
  replace (Rsum (map (fun x : R => x * x) w) * / m / INR (length w))
    with (Rsum (map (fun x : R => x * x) w) / INR (length w) * / m)
    by (unfold Rdiv; ring).
  replace (Rsum (map (fun x : R => x * x) w) / INR (length w)) with m.
  - field. lra.
  - unfold m, mean. rewrite length_map. reflexivity.
Qed.

(** X1. Lines 81-82: the taper that the pipeline works with is
    power-normalised.  When the window generator returns a window with
    an entry that is not zero, the object that [make_taper] leaves at
    the returned address has a mean squared value of 1. *)
Theorem taper_power_normalised get_window taper nf h w x :
  get_window taper nf = Ok w -> x ∈ w -> x <> 0 ->
  exists t,
    make_taper get_window taper nf h = (Ok (length h), h ++ [RVec t]) /\
    length t = length w /\
    mean (map (fun x => x * x) t) = 1.
Proof.
  intros Hw Hin Hx. exists (normalise w). split; [|split].
  - apply make_taper_run. exact Hw.
  - unfold normalise. apply length_map.
  - apply mean_squares_normalise. unfold mean.
    apply Rdiv_lt_0_compat.
    + eapply Rsum_squares_pos_ex; eauto.
    + apply lt_0_INR. rewrite length_map.
      destruct w; [inversion Hin|simpl; lia].
Qed.

Lemma taper_power_normalised_witness :
  exists t,
    make_taper boxcar_window "boxcar" 2 example_heap
    = (Ok (length example_heap), example_heap ++ [RVec t]) /\
    length t = length [1; 1] /\
    mean (map (fun x => x * x) t) = 1.
Proof.
  apply (taper_power_normalised boxcar_window "boxcar" 2 example_heap
           [1; 1] 1); [reflexivity|constructor|lra].
Defined.

(** ** Which objects a build touches *)

Lemma keeps_refl h : keeps h h.
Proof. split; auto. Qed.

Lemma pure_ret {A} h0 (a : A) : pure_on h0 (ret a).
Proof. intros h r h' E H. inversion H; subst; auto. Qed.

Lemma pure_raise {A} h0 e : pure_on h0 (@raise A e).
Proof. intros h r h' E H. inversion H; subst; auto. Qed.

Lemma pure_lift {A} h0 (x : result A) : pure_on h0 (lift x).
Proof. intros h r h' E H. inversion H; subst; auto. Qed.

Lemma pure_bind {A B} h0 (m : M A) (f : A -> M B) :
  pure_on h0 m -> (forall a, pure_on h0 (f a)) -> pure_on h0 (bind m f).
Proof.
  intros Hm Hf h r h' E H. unfold bind in H.
  destruct (m h) as [[a|e] h1] eqn:Em.
  - eapply Hf; [|exact H]. eapply Hm; eauto.
  - inversion H; subst. eapply Hm; eauto.
Qed.

Lemma pure_alloc_bind {B} h0 o (f : addr -> M B) :
  (forall a, (length h0 <= a)%nat -> pure_on h0 (f a)) ->
  pure_on h0 (bind (alloc o) f).
Proof.
  intros Hf h r h' [L E] H. unfold bind, alloc in H.
  assert (E1 : keeps h0 (h ++ [o])).
  { split; [rewrite length_app; lia|].
    intros a Ha. rewrite lookup_app_l by lia. auto. }
  exact (Hf (length h) L _ _ _ E1 H).
Qed.

Lemma pure_alloc h0 o : pure_on h0 (alloc o).
Proof.
  intros h r h' [L E] H. inversion H; subst.
  split; [rewrite length_app; lia|].
  intros a Ha. rewrite lookup_app_l by lia. auto.
Qed.

Lemma pure_put_fresh h0 a o : (length h0 <= a)%nat -> pure_on h0 (put a o).
Proof.
  intros La h r h' [L E] H. inversion H; subst.
  split; [rewrite length_insert; lia|].
  intros b Hb. rewrite list_lookup_insert_ne by lia. auto.
Qed.

Lemma pure_get_rvec h0 a : pure_on h0 (get_rvec a).
Proof.
  intros h r h' E H. unfold get_rvec in H.
  destruct (h !! a) as [[]|]; inversion H; subst; auto.
Qed.

Lemma pure_get_cvec h0 a : pure_on h0 (get_cvec a).
Proof.
  intros h r h' E H. unfold get_cvec in H.
  destruct (h !! a) as [[]|]; inversion H; subst; auto.
Qed.

Lemma pure_get_bvec h0 a : pure_on h0 (get_bvec a).
Proof.
  intros h r h' E H. unfold get_bvec in H.
  destruct (h !! a) as [[]|]; inversion H; subst; auto.
Qed.

Lemma pure_get_mat h0 a : pure_on h0 (get_mat a).
Proof.
  intros h r h' E H. unfold get_mat in H.
  destruct (h !! a) as [[]|]; inversion H; subst; auto.
Qed.

Lemma pure_get_dict h0 a : pure_on h0 (get_dict a).
Proof.
  intros h r h' E H. unfold get_dict in H.
  destruct (h !! a) as [[]|]; inversion H; subst; auto.
Qed.

Lemma pure_for_each {A} h0 (l : list A) (body : A -> M unit) :
  (forall x, pure_on h0 (body x)) -> pure_on h0 (for_each l body).
Proof.
  intros Hb. induction l as [|x l IH]; simpl.
  - apply pure_ret.
  - apply pure_bind; auto.
Qed.

Lemma pure_if {A} h0 (b : bool) (m1 m2 : M A) :
  pure_on h0 m1 -> pure_on h0 m2 -> pure_on h0 (if b then m1 else m2).
Proof. destruct b; auto. Qed.

Lemma pure_sumbool {A} {P Q : Prop} h0 (b : {P} + {Q}) (m1 m2 : M A) :
  pure_on h0 m1 -> pure_on h0 m2 -> pure_on h0 (if b then m1 else m2).
Proof. destruct b; auto. Qed.

Lemma pure_bind_fresh {B} h0 (m : M addr) (f : addr -> M B) :
  pure_on h0 m ->
  (forall h a h', keeps h0 h -> m h = (Ok a, h') -> (length h0 <= a)%nat) ->
  (forall a, (length h0 <= a)%nat -> pure_on h0 (f a)) ->
  pure_on h0 (bind m f).
Proof.
  intros Hm Hfresh Hf h r h' E H. unfold bind in H.
  destruct (m h) as [[a|e] h1] eqn:Em.
  - eapply Hf; [eapply Hfresh; eauto|eapply Hm; eauto|exact H].
  - inversion H; subst. eapply Hm; eauto.
Qed.

Create HintDb pure_db.
#[export] Hint Resolve pure_ret pure_raise pure_lift pure_alloc
  pure_get_rvec pure_get_cvec pure_get_bvec pure_get_mat pure_get_dict
  pure_if pure_sumbool : pure_db.

Ltac pure_step :=
  first
    [ apply pure_alloc_bind; intros ? ?
    | apply pure_bind; [|intros ?]
    | apply pure_for_each; intros ?
    | apply pure_put_fresh; lia
    | apply pure_if
    | apply pure_sumbool
    | solve [auto with pure_db] ].

Lemma pure_zero_flagged h0 a fl :
  (length h0 <= a)%nat -> pure_on h0 (zero_flagged a fl).
Proof. intros La. unfold zero_flagged. repeat pure_step. Qed.

Lemma pure_build_continuous h0 nf freqs pc pw ff :
  pure_on h0 (build_continuous nf freqs pc pw ff).
Proof. unfold build_continuous. repeat pure_step. Qed.

Lemma pure_build_discrete h0 nf df pc pw ff :
  pure_on h0 (build_discrete nf df pc pw ff).
Proof. unfold build_discrete. repeat pure_step. Qed.

Lemma keeps_ext h0 h : keeps h0 h -> ext h0 h.
Proof. intros [L E]. split; auto. Qed.

Lemma build_continuous_fresh' h0 nf freqs pc pw ff h a h' :
  keeps h0 h -> build_continuous nf freqs pc pw ff h = (Ok a, h') ->
  (length h0 <= a)%nat.
Proof.
  intros E H. eapply build_continuous_fresh; [|exact H].
  apply keeps_ext. exact E.
Qed.

(** Lines 27-46 read and write what they allocate, nothing else: the
    cache dictionary is not touched while the matrix is built. *)
Lemma pure_build_inverse_filter h0 nf df freqs pc pw ff zf fl dft :
  pure_on h0 (build_inverse_filter nf df freqs pc pw ff zf fl dft).
Proof.
  unfold build_inverse_filter.
  apply pure_bind_fresh.
  - destruct dft; simpl;
      [apply pure_build_discrete|apply pure_build_continuous].
  - destruct dft; simpl; intros h a h' E H.
    + apply build_discrete_raises in H. destruct H as [e H]. discriminate.
    + eapply build_continuous_fresh'; eauto.
  - intros a La. apply pure_bind.
    + destruct zf; [apply pure_zero_flagged; auto|apply pure_ret].
    + intros _. apply pure_ret.
Qed.

(** ** Every way a call of [linear_filter_matrix] can end *)

Lemma bind_inv {A B} (m : M A) (f : A -> M B) h r h' :
  bind m f h = (r, h') ->
  (exists a h1, m h = (Ok a, h1) /\ f a h1 = (r, h')) \/
  (exists e, m h = (Raise e, h') /\ r = Raise e).
Proof.
  unfold bind. destruct (m h) as [[a|e] h1]; intros H.
  - left. eauto.
  - right. inversion H; subst. eauto.
Qed.

Lemma get_bvec_inv a h x h1 :
  get_bvec a h = (x, h1) ->
  h1 = h /\ (x = Raise TypeError \/ exists v, x = Ok v /\ h !! a = Some (BVec v)).
Proof.
  unfold get_bvec. destruct (h !! a) as [[]|]; intros H; inversion H; eauto.
Qed.

Lemma get_rvec_inv a h x h1 :
  get_rvec a h = (x, h1) ->
  h1 = h /\ (x = Raise TypeError \/ exists v, x = Ok v /\ h !! a = Some (RVec v)).
Proof.
  unfold get_rvec. destruct (h !! a) as [[]|]; intros H; inversion H; eauto.
Qed.

Lemma get_cvec_inv a h x h1 :
  get_cvec a h = (x, h1) ->
  h1 = h /\ (x = Raise TypeError \/ exists v, x = Ok v /\ h !! a = Some (CVec v)).
Proof.
  unfold get_cvec. destruct (h !! a) as [[]|]; intros H; inversion H; eauto.
Qed.

Lemma get_mat_inv a h x h1 :
  get_mat a h = (x, h1) ->
  h1 = h /\ (x = Raise TypeError \/ exists v, x = Ok v /\ h !! a = Some (CMat v)).
Proof.
  unfold get_mat. destruct (h !! a) as [[]|]; intros H; inversion H; eauto.
Qed.

Lemma get_dict_inv a h x h1 :
  get_dict a h = (x, h1) ->
  h1 = h /\ (x = Raise TypeError \/ exists v, x = Ok v /\ h !! a = Some (Dict v)).
Proof.
  unfold get_dict. destruct (h !! a) as [[]|]; intros H; inversion H; eauto.
Qed.

Lemma dict_get_set_ne k k0 a d :
  k <> k0 -> dict_get k (dict_set k0 a d) = dict_get k d.
Proof.
  intros Hne. unfold dict_set. simpl.
  destruct (decide (k = k0)) as [E|_]; [contradiction|].
  induction d as [|[k1 a1] d IH]; [reflexivity|].
  rewrite filter_cons. simpl.
  destruct (decide (k1 <> k0)) as [N|N]; simpl.
  - destruct (decide (k = k1)); [reflexivity|exact IH].
  - destruct (decide (k = k1)) as [E|_]; [|exact IH].
    subst k1. exfalso. apply N. exact Hne.
Qed.

Lemma keeps_trans h0 h1 h2 : keeps h0 h1 -> keeps h1 h2 -> keeps h0 h2.
Proof.
  intros [L1 E1] [L2 E2]. split; [lia|].
  intros a Ha. rewrite E2 by lia. auto.
Qed.

Section Outcome.

Variable pinv : list (list C) -> list (list C).

(** A call ends in one of three ways: it raises, and every object is as
    it was; it finds its key, returns the stored address and changes
    nothing; or it builds a matrix [A] (lines 27-46), allocates [pinv A]
    and stores its address under the key. *)
Lemma linear_filter_matrix_outcome nf df pc pw ff zf fl cache dft h r h' :
  linear_filter_matrix pinv nf df pc pw ff zf fl cache dft h = (r, h') ->
  (exists e, r = Raise e /\ keeps h h') \/
  (exists a d flv cv wv,
     r = Ok a /\ (2 <= nf)%nat /\
     h !! fl = Some (BVec flv) /\ h !! pc = Some (RVec cv) /\
     h !! pw = Some (RVec wv) /\ h !! WMAT_CACHE = Some (Dict d) /\
     ((dict_get (make_wkey nf df ff zf dft flv cv wv) d = Some a /\ h' = h) \/
      (dict_get (make_wkey nf df ff zf dft flv cv wv) d = None /\
       exists inv h1 A,
         build_inverse_filter nf df (map (fun x => x * df) (arange_sym nf))
           cv wv ff zf flv dft h = (Ok inv, h1) /\
         h1 !! inv = Some (CMat A) /\ a = length h1 /\
         h' = <[WMAT_CACHE :=
                  Dict (dict_set (make_wkey nf df ff zf dft flv cv wv)
                          (length h1) d)]> (h1 ++ [CMat (pinv A)])))).
Proof.
  intros H. unfold linear_filter_matrix in H.
  destruct (le_lt_dec 2 nf) as [Hnf|Hnf].
  2:{ rewrite (arange_index_ge nf df 1) in H by lia.
      inversion H; subst. left. eexists. split; [reflexivity|apply keeps_refl]. }
  rewrite !arange_index in H by lia. rewrite !bind_lift_Ok in H.
  rewrite grid_step in H.
  apply bind_inv in H. destruct H as [(flv & h1 & G & H)|(e & G & ->)];
    apply get_bvec_inv in G; destruct G as [-> G];
    [|left; eexists; split; [reflexivity|apply keeps_refl]].
  destruct G as [G|(v & G & Hfl)]; [discriminate|]. injection G as <-.
  apply bind_inv in H. destruct H as [(cv & h1 & G & H)|(e & G & ->)];
    apply get_rvec_inv in G; destruct G as [-> G];
    [|left; eexists; split; [reflexivity|apply keeps_refl]].
  destruct G as [G|(v & G & Hpc)]; [discriminate|]. injection G as <-.
  apply bind_inv in H. destruct H as [(wv & h1 & G & H)|(e & G & ->)];
    apply get_rvec_inv in G; destruct G as [-> G];
    [|left; eexists; split; [reflexivity|apply keeps_refl]].
  destruct G as [G|(v & G & Hpw)]; [discriminate|]. injection G as <-.
  apply bind_inv in H. destruct H as [(d & h1 & G & H)|(e & G & ->)];
    apply get_dict_inv in G; destruct G as [-> G];
    [|left; eexists; split; [reflexivity|apply keeps_refl]].
  destruct G as [G|(v & G & Hd)]; [discriminate|]. injection G as <-.
  set (k := make_wkey nf df ff zf dft flv cv wv) in *.
  unfold dict_mem in H. destruct (dict_get k d) as [a|] eqn:Hk.
  - rewrite bind_ret in H. rewrite (bind_get_dict _ _ _ _ Hd) in H.
    rewrite Hk in H. inversion H; subst.
    right. exists a, d, flv, cv, wv. auto 10.
  - apply bind_inv in H. destruct H as [([] & h4 & G & H)|(e & G & ->)].
    + apply bind_inv in G. destruct G as [(inv & h1 & B & G)|(e & B & ?)];
        [|discriminate].
      assert (K1 : keeps h h1).
      { eapply pure_build_inverse_filter; [apply keeps_refl|exact B]. }
      apply bind_inv in G. destruct G as [(A & h2 & B1 & G)|(e & B1 & ?)];
        [|discriminate].
      apply get_mat_inv in B1. destruct B1 as [-> B1].
      destruct B1 as [B1|(v & B1 & HA)]; [discriminate|].
      injection B1 as <-.
      rewrite bind_alloc in G.
      assert (Hd1 : (h1 ++ [CMat (pinv A)]) !! WMAT_CACHE = Some (Dict d)).
      { destruct K1 as [L K1]. rewrite lookup_app_l.
        - rewrite K1; [exact Hd|]. eapply lookup_lt_Some; eauto.
        - apply lookup_lt_Some in Hd. lia. }
      rewrite (bind_get_dict _ _ _ _ Hd1) in G.
      unfold put in G. inversion G; subst h4; clear G.
      assert (Hd2 : <[WMAT_CACHE := Dict (dict_set k (length h1) d)]>
                      (h1 ++ [CMat (pinv A)]) !! WMAT_CACHE
                    = Some (Dict (dict_set k (length h1) d))).
      { apply list_lookup_insert_eq. eapply lookup_lt_Some; eauto. }
      rewrite (bind_get_dict _ _ _ _ Hd2) in H.
      rewrite dict_get_set in H. inversion H; subst.
      right. exists (length h1), d, flv, cv, wv.
      repeat (split; [assumption || reflexivity|]).
      right. split; [exact Hk|]. exists inv, h1, A. auto.
    + left. eexists. split; [reflexivity|].
      apply bind_inv in G. destruct G as [(inv & h1 & B & G)|(e' & B & E)].
      * assert (K1 : keeps h h1).
        { eapply pure_build_inverse_filter; [apply keeps_refl|exact B]. }
        apply bind_inv in G. destruct G as [(A & h2 & B1 & G)|(e' & B1 & E)].
        -- apply get_mat_inv in B1. destruct B1 as [-> B1].
           destruct B1 as [B1|(v & B1 & HA)]; [discriminate|].
           injection B1 as <-.
           rewrite bind_alloc in G.
           assert (Hd1 : (h1 ++ [CMat (pinv A)]) !! WMAT_CACHE = Some (Dict d)).
           { destruct K1 as [L K1]. rewrite lookup_app_l.
             - rewrite K1; [exact Hd|]. eapply lookup_lt_Some; eauto.
             - apply lookup_lt_Some in Hd. lia. }
           rewrite (bind_get_dict _ _ _ _ Hd1) in G.
           unfold put in G. discriminate.
        -- apply get_mat_inv in B1. destruct B1 as [-> _]. exact K1.
      * eapply pure_build_inverse_filter; [apply keeps_refl|exact B].
Qed.

End Outcome.

(** ** Claims on reuse *)

(** C3, as amended.  For every parameter tuple for which a call returns,
    the address [a] it returns is bound to the call's key in
    [WMAT_CACHE] afterwards: either the call found it there and changed
    nothing, or it built the matrix and stored a new object, the
    pseudo-inverse.  A second call with the same numbers and with patch
    lists and flags of equal values (the same objects or other ones)
    then returns the identical stored instance [a] and leaves the heap
    exactly as it is: nothing is built, allocated or stored. *)
Theorem cache_idempotent pinv nf df pc pw ff zf fl cache dft h a h1
    pc' pw' fl' cache' :
  linear_filter_matrix pinv nf df pc pw ff zf fl cache dft h = (Ok a, h1) ->
  h1 !! pc' = h !! pc -> h1 !! pw' = h !! pw -> h1 !! fl' = h !! fl ->
  (exists flv cv wv d1,
     h !! fl = Some (BVec flv) /\ h !! pc = Some (RVec cv) /\
     h !! pw = Some (RVec wv) /\
     h1 !! WMAT_CACHE = Some (Dict d1) /\
     dict_get (make_wkey nf df ff zf dft flv cv wv) d1 = Some a) /\
  (h1 = h \/
   exists A, (length h <= a)%nat /\ h1 !! a = Some (CMat (pinv A))) /\
  linear_filter_matrix pinv nf df pc' pw' ff zf fl' cache' dft h1 = (Ok a, h1).
Proof.
  intros H Epc Epw Efl.
  pose proof (linear_filter_matrix_outcome _ _ _ _ _ _ _ _ _ _ _ _ _ H)
    as [(e & E & _)|(a' & d & flv' & cv' & wv' & E & _ & _ & _ & _ & Hd & X)];
    [discriminate|].
  injection E as <-.
  apply linear_filter_matrix_Ok_inv in H.
  destruct H as (flv & cv & wv & d1 & Hnf & Hfl & Hpc & Hpw & Hd1 & G & _).
  split; [exists flv, cv, wv, d1; auto|]. split.
  - destruct X as [[_ ->]|[_ (inv & h2 & A & B & _ & -> & ->)]];
      [left; reflexivity|right].
    assert (K : keeps h h2).
    { eapply pure_build_inverse_filter; [apply keeps_refl|exact B]. }
    exists A. split; [destruct K; lia|].
    rewrite list_lookup_insert_ne.
    + apply lookup_snoc_new.
    + apply lookup_lt_Some in Hd. destruct K. unfold WMAT_CACHE in *. lia.
  - eapply linear_filter_matrix_hit; eauto; congruence.
Qed.

Lemma cache_idempotent_witness :
  (exists flv cv wv d1,
     example_heap !! 5%nat = Some (BVec flv) /\
     example_heap !! 8%nat = Some (RVec cv) /\
     example_heap !! 8%nat = Some (RVec wv) /\
     (linear_filter_matrix pinv_self 2 1 8 8 1 false 5 1 false
        example_heap).2 !! WMAT_CACHE = Some (Dict d1) /\
     dict_get (make_wkey 2 1 1 false false flv cv wv) d1 = Some 13%nat) /\
  ((linear_filter_matrix pinv_self 2 1 8 8 1 false 5 1 false example_heap).2
   = example_heap \/
   exists A,
     (length example_heap <= 13)%nat /\
     (linear_filter_matrix pinv_self 2 1 8 8 1 false 5 1 false
        example_heap).2 !! 13%nat = Some (CMat (pinv_self A))) /\
  linear_filter_matrix pinv_self 2 1 8 8 1 false 5 1 false
    (linear_filter_matrix pinv_self 2 1 8 8 1 false 5 1 false example_heap).2
  = (Ok 13%nat,
     (linear_filter_matrix pinv_self 2 1 8 8 1 false 5 1 false example_heap).2).
Proof.
  assert (H : linear_filter_matrix pinv_self 2 1 8 8 1 false 5 1 false
                example_heap
              = (Ok 13%nat,
                 (linear_filter_matrix pinv_self 2 1 8 8 1 false 5 1 false
                    example_heap).2)).
  { rewrite (linear_filter_matrix_miss_skip pinv_self 2 1 8 8 1 false 5 1
               example_heap [false; false] [] [] []);
      [reflexivity|lia|reflexivity|reflexivity|reflexivity|reflexivity
      |reflexivity|left; reflexivity|discriminate]. }
  apply (cache_idempotent pinv_self 2 1 8 8 1 false 5 1 false example_heap
           13%nat _ 8%nat 8%nat 5%nat 1%nat H).
  - rewrite (linear_filter_matrix_miss_skip pinv_self 2 1 8 8 1 false 5 1
               example_heap [false; false] [] [] []);
      [reflexivity|lia|reflexivity|reflexivity|reflexivity|reflexivity
      |reflexivity|left; reflexivity|discriminate].
  - rewrite (linear_filter_matrix_miss_skip pinv_self 2 1 8 8 1 false 5 1
               example_heap [false; false] [] [] []);
      [reflexivity|lia|reflexivity|reflexivity|reflexivity|reflexivity
      |reflexivity|left; reflexivity|discriminate].
  - rewrite (linear_filter_matrix_miss_skip pinv_self 2 1 8 8 1 false 5 1
               example_heap [false; false] [] [] []);
      [reflexivity|lia|reflexivity|reflexivity|reflexivity|reflexivity
      |reflexivity|left; reflexivity|discriminate].
Defined.

(** A build that meets a flag mask of the wrong length: the matrix of
    lines 28-33 is there when line 45 raises, and nothing is stored. *)
Lemma linear_filter_matrix_bad_mask pinv nf df pc pw ff fl cache h
    (flv : list bool) cv wv d :
  (2 <= nf)%nat ->
  h !! fl = Some (BVec flv) -> h !! pc = Some (RVec cv) ->
  h !! pw = Some (RVec wv) -> h !! WMAT_CACHE = Some (Dict d) ->
  dict_get (make_wkey nf df ff true false flv cv wv) d = None ->
  zip cv wv = [] \/ ff <= 0 ->
  length flv <> nf ->
  linear_filter_matrix pinv nf df pc pw ff true fl cache false h
  = (Raise IndexError, h ++ [CMat (zeros nf); CMat (identity nf)]).
Proof.
  intros Hnf Hfl Hpc Hpw Hd G Hskip Hlen. unfold linear_filter_matrix.
  rewrite !arange_index by lia. rewrite !bind_lift_Ok. rewrite grid_step.
  rewrite (bind_get_bvec _ _ _ _ Hfl), (bind_get_rvec _ _ _ _ Hpc),
    (bind_get_rvec _ _ _ _ Hpw), (bind_get_dict _ _ _ _ Hd).
  rewrite (dict_mem_false _ _ G).
  unfold bind at 1. unfold bind at 1. unfold build_inverse_filter.
  simpl negb. cbv iota. unfold bind at 1.
  rewrite build_continuous_skip by exact Hskip.
  unfold bind at 1. unfold zero_flagged.
  assert (Hm : (h ++ [CMat (zeros nf); CMat (identity nf)]) !! S (length h)
               = Some (CMat (identity nf))).
  { rewrite lookup_app_r by lia.
    replace (S (length h) - length h)%nat with 1%nat by lia. reflexivity. }
  rewrite (bind_get_mat _ _ _ _ Hm). rewrite length_identity.
  destruct (Nat.eqb_spec (length flv) nf) as [E|_]; [contradiction|].
  reflexivity.
Qed.

(** C3, the claim as stated fails: not every parameter tuple gets a
    stored matrix.  A call that raises stores nothing, so that the next
    call with the same parameters runs the construction again.  Two
    channels, no patch, [zero_flags] set and a flag mask of one entry, on
    a fresh cache: the first call builds the zero matrix and the identity
    (lines 29 and 33) and raises IndexError on line 45; the second call,
    in the heap the first one left, builds the two matrices once more and
    raises again; no matrix is returned and the cache is still empty. *)
Lemma failed_build_runs_again :
  linear_filter_matrix pinv_self 2 1 8 8 1 true 7 0 false example_heap
  = (Raise IndexError,
     example_heap ++ [CMat (zeros 2); CMat (identity 2)]) /\
  linear_filter_matrix pinv_self 2 1 8 8 1 true 7 0 false
    (example_heap ++ [CMat (zeros 2); CMat (identity 2)])
  = (Raise IndexError,
     (example_heap ++ [CMat (zeros 2); CMat (identity 2)])
     ++ [CMat (zeros 2); CMat (identity 2)]) /\
  ((example_heap ++ [CMat (zeros 2); CMat (identity 2)])
   ++ [CMat (zeros 2); CMat (identity 2)]) !! WMAT_CACHE = Some (Dict []).
Proof.
  split; [|split].
  - apply (linear_filter_matrix_bad_mask pinv_self 2 1 8 8 1 7 0 example_heap
             [false] [] [] []);
      [lia|reflexivity|reflexivity|reflexivity|reflexivity|reflexivity
      |left; reflexivity|simpl; lia].
  - apply (linear_filter_matrix_bad_mask pinv_self 2 1 8 8 1 7 0
             (example_heap ++ [CMat (zeros 2); CMat (identity 2)])
             [false] [] [] []);
      [lia|reflexivity|reflexivity|reflexivity|reflexivity|reflexivity
      |left; reflexivity|simpl; lia].
  - reflexivity.
Qed.

(** ** The cache only grows *)

(** X2. A call never removes or replaces an entry of the cache, and never
    touches a stored matrix: whatever the arguments, and whether the call
    returns or raises, a key that was bound to the address [a] before the
    call is bound to [a] after it, and the matrix at [a] is the one that
    was there.  (Line 49 is the only store, and it runs only for a key
    that line 26 did not find.) *)
Theorem cache_entries_kept pinv nf df pc pw ff zf fl cache dft h r h' d k a m :
  h !! WMAT_CACHE = Some (Dict d) ->
  dict_get k d = Some a -> h !! a = Some (CMat m) ->
  linear_filter_matrix pinv nf df pc pw ff zf fl cache dft h = (r, h') ->
  exists d', h' !! WMAT_CACHE = Some (Dict d') /\
             dict_get k d' = Some a /\ h' !! a = Some (CMat m).
Proof.
  intros Hd Hk Ha H.
  assert (La : (a < length h)%nat) by (eapply lookup_lt_Some; eauto).
  assert (L0 : (WMAT_CACHE < length h)%nat) by (eapply lookup_lt_Some; eauto).
  assert (Na : a <> WMAT_CACHE) by (intros ->; congruence).
  apply linear_filter_matrix_outcome in H.
  destruct H as [(e & -> & [L K])|(a' & d0 & flv & cv & wv & -> & Hnf & Hfl
                                    & Hpc & Hpw & Hd0 & [[G ->]|[G X]])].
  - exists d. rewrite !K by assumption. auto.
  - exists d. auto.
  - destruct X as (inv & h1 & A & B & HA & -> & ->).
    assert (E : d0 = d) by congruence. subst d0.
    assert (K1 : keeps h h1).
    { eapply pure_build_inverse_filter; [apply keeps_refl|exact B]. }
    destruct K1 as [L K1].
    eexists. split; [|split].
    + apply list_lookup_insert_eq. rewrite length_app. lia.
    + rewrite dict_get_set_ne; [exact Hk|]. intros ->. congruence.
    + rewrite list_lookup_insert_ne by (intros E; apply Na; symmetry; exact E).
      rewrite lookup_app_l by lia. rewrite K1 by lia. exact Ha.
Qed.

Lemma cache_entries_kept_witness :
  exists d',
    (linear_filter_matrix pinv_self 2 1 3 3 1 false 2 0 false
       [Dict [([7], 1%nat)]; CMat [[C1]]; BVec [false; false]; RVec []]).2
      !! WMAT_CACHE = Some (Dict d') /\
    dict_get [7] d' = Some 1%nat /\
    (linear_filter_matrix pinv_self 2 1 3 3 1 false 2 0 false
       [Dict [([7], 1%nat)]; CMat [[C1]]; BVec [false; false]; RVec []]).2
      !! 1%nat = Some (CMat [[C1]]).
Proof.
  apply (cache_entries_kept pinv_self 2 1 3 3 1 false 2 0 false
           [Dict [([7], 1%nat)]; CMat [[C1]]; BVec [false; false]; RVec []]
           (linear_filter_matrix pinv_self 2 1 3 3 1 false 2 0 false
              [Dict [([7], 1%nat)]; CMat [[C1]]; BVec [false; false];
               RVec []]).1
           _ [([7], 1%nat)] [7] 1%nat [[C1]]).
  - reflexivity.
  - simpl. destruct (decide ([7] = [7])); [reflexivity|congruence].
  - reflexivity.
  - destruct (linear_filter_matrix _ _ _ _ _ _ _ _ _ _ _) as [r h'].
    reflexivity.
Defined.

(** X3. A call that raises leaves no trace in the objects that existed:
    every object of the heap, the cache dictionary included, is after
    the failed call what it was before it.  (What a failed build has
    allocated is unreachable; line 49 comes after every line that can
    raise.) *)
Theorem failed_call_stores_nothing pinv nf df pc pw ff zf fl cache dft h e h'
    (a : addr) :
  linear_filter_matrix pinv nf df pc pw ff zf fl cache dft h = (Raise e, h') ->
  (a < length h)%nat ->
  h' !! a = h !! a.
Proof.
  intros H La. apply linear_filter_matrix_outcome in H.
  destruct H as [(e' & _ & [L K])|(a' & d0 & flv & cv & wv & E & _)].
  - apply K. exact La.
  - discriminate.
Qed.

Lemma failed_call_stores_nothing_witness :
  (linear_filter_matrix pinv_self 2 1 8 8 1 false 5 0 true example_heap).2
    !! WMAT_CACHE
  = example_heap !! WMAT_CACHE.
Proof.
  apply (failed_call_stores_nothing pinv_self 2 1 8 8 1 false 5 0 true
           example_heap NameError _ WMAT_CACHE).
  - reflexivity.
  - simpl. unfold WMAT_CACHE. lia.
Defined.

(** X4. The cache is addressed by the key alone.  When a call has
    returned the address [a], any later call with the same [nf], [df],
    [filter_factor], [zero_flags] and [discrete_ft] whose flagged
    indices, centres and widths, written one after the other as on lines
    24-25, give the same sequence, returns [a] as well and builds
    nothing, whatever its flags and patch lists are separately. *)
Theorem equal_key_tails_share_entry pinv nf df pc pw ff zf fl cache dft h a h1
    flv cv wv pc' pw' fl' cache' flv' cv' wv' :
  linear_filter_matrix pinv nf df pc pw ff zf fl cache dft h = (Ok a, h1) ->
  h !! fl = Some (BVec flv) -> h !! pc = Some (RVec cv) ->
  h !! pw = Some (RVec wv) ->
  h1 !! fl' = Some (BVec flv') -> h1 !! pc' = Some (RVec cv') ->
  h1 !! pw' = Some (RVec wv') ->
  map INR (np_where flv) ++ cv ++ wv = map INR (np_where flv') ++ cv' ++ wv' ->
  linear_filter_matrix pinv nf df pc' pw' ff zf fl' cache' dft h1 = (Ok a, h1).
Proof.
  intros H Hfl Hpc Hpw Hfl' Hpc' Hpw' E.
  apply linear_filter_matrix_Ok_inv in H.
  destruct H as (flv0 & cv0 & wv0 & d1 & Hnf & Hfl0 & Hpc0 & Hpw0 & Hd & G & _).
  assert (flv0 = flv) by congruence. assert (cv0 = cv) by congruence.
  assert (wv0 = wv) by congruence. subst flv0 cv0 wv0.
  eapply linear_filter_matrix_hit; eauto.
  unfold make_wkey in *. rewrite <- E. exact G.
Qed.

Lemma equal_key_tails_share_entry_witness :
  linear_filter_matrix pinv_self 2 1 8 8 0 true 6 0 false
    (linear_filter_matrix pinv_self 2 1 9 10 0 true 5 0 false example_heap).2
  = (Ok 13%nat,
     (linear_filter_matrix pinv_self 2 1 9 10 0 true 5 0 false example_heap).2).
Proof.
  assert (H : linear_filter_matrix pinv_self 2 1 9 10 0 true 5 0 false
                example_heap
              = (Ok 13%nat,
                 (linear_filter_matrix pinv_self 2 1 9 10 0 true 5 0 false
                    example_heap).2)).
  { rewrite (linear_filter_matrix_miss_skip pinv_self 2 1 9 10 0 true 5 0
               example_heap [false; false] [0] [1] []);
      [reflexivity|lia|reflexivity|reflexivity|reflexivity|reflexivity
      |reflexivity|right; lra|reflexivity]. }
  apply (equal_key_tails_share_entry pinv_self 2 1 9 10 0 true 5 0 false
           example_heap 13%nat _ [false; false] [0] [1] 8%nat 8%nat 6%nat
           0%nat [true; true] [] [] H).
  - reflexivity.
  - reflexivity.
  - reflexivity.
  - rewrite (linear_filter_matrix_miss_skip pinv_self 2 1 9 10 0 true 5 0
               example_heap [false; false] [0] [1] []);
      [reflexivity|lia|reflexivity|reflexivity|reflexivity|reflexivity
      |reflexivity|right; lra|reflexivity].
  - rewrite (linear_filter_matrix_miss_skip pinv_self 2 1 9 10 0 true 5 0
               example_heap [false; false] [0] [1] []);
      [reflexivity|lia|reflexivity|reflexivity|reflexivity|reflexivity
      |reflexivity|right; lra|reflexivity].
  - rewrite (linear_filter_matrix_miss_skip pinv_self 2 1 9 10 0 true 5 0
               example_heap [false; false] [0] [1] []);
      [reflexivity|lia|reflexivity|reflexivity|reflexivity|reflexivity
      |reflexivity|right; lra|reflexivity].
  - reflexivity.
Defined.

(** ** What the cache key tells apart *)

Lemma b2r_inj b b' : b2r b = b2r b' -> b = b'.
Proof. destruct b, b'; simpl; intros H; try reflexivity; exfalso; lra. Qed.

Lemma map_INR_inj (l l' : list nat) : map INR l = map INR l' -> l = l'.
Proof.
  revert l'. induction l as [|x l IH]; intros [|x' l'] H; try discriminate.
  - reflexivity.
  - simpl in H. injection H as Hx Hl.
    apply INR_eq in Hx. subst x'. f_equal. apply IH. exact Hl.
Qed.

(** the set flags among [fl], numbered from [s] *)
Lemma where_from_ge (s : nat) (fl : list bool) (x : nat) :
  x ∈ omap (fun p : nat * bool => if p.2 then Some p.1 else None)
        (zip (seq s (length fl)) fl) ->
  (s <= x)%nat.
Proof.
  intros H. apply list_elem_of_omap in H. destruct H as ([i b] & Hin & Hf).
  apply elem_of_zip_l in Hin. simpl in Hin. apply elem_of_seq in Hin.
  simpl in Hf. destruct b; [|discriminate]. injection Hf as <-. lia.
Qed.

Lemma where_from_cons (s : nat) (b : bool) (fl : list bool) :
  omap (fun p : nat * bool => if p.2 then Some p.1 else None)
       (zip (seq s (length (b :: fl))) (b :: fl))
  = (if b then [s] else [])
    ++ omap (fun p : nat * bool => if p.2 then Some p.1 else None)
            (zip (seq (S s) (length fl)) fl).
Proof. destruct b; reflexivity. Qed.

Lemma where_from_inj (s : nat) (fl fl' : list bool) :
  length fl = length fl' ->
  omap (fun p : nat * bool => if p.2 then Some p.1 else None)
       (zip (seq s (length fl)) fl)
  = omap (fun p : nat * bool => if p.2 then Some p.1 else None)
         (zip (seq s (length fl')) fl') ->
  fl = fl'.
Proof.
  revert s fl'. induction fl as [|b fl IH]; intros s [|b' fl'] L H;
    try discriminate; [reflexivity|].
  simpl in L. injection L as L. rewrite !where_from_cons in H.
  destruct b, b'; simpl app in H.
  - injection H as H. f_equal. apply (IH (S s)); assumption.
  - exfalso.
    assert (X : (S s <= s)%nat); [|lia].
    apply (where_from_ge (S s) fl'). rewrite <- H. apply list_elem_of_here.
  - exfalso.
    assert (X : (S s <= s)%nat); [|lia].
    apply (where_from_ge (S s) fl). rewrite H. apply list_elem_of_here.
  - f_equal. apply (IH (S s)); assumption.
Qed.

Lemma np_where_inj (fl fl' : list bool) :
  length fl = length fl' -> np_where fl = np_where fl' -> fl = fl'.
Proof. intros L H. apply (where_from_inj 0); assumption. Qed.

(** X5. What the key of lines 24-25 separates.  Two calls with equal
    keys agree on [nf], on the channel width, on [filter_factor], on
    [zero_flags] and on [discrete_ft]; and when they also agree on the
    number of channels of the mask, on the number of flagged channels and
    on the number of centres, they agree on the flags, the centres and
    the widths.  (Without the agreement on the counts the key does not
    separate them, the key being one flat tuple.) *)
Theorem wkey_separates nf nf' d d' ff ff' zf zf' dft dft'
    (fl fl' : list bool) (pc pc' pw pw' : list R) :
  make_wkey nf d ff zf dft fl pc pw = make_wkey nf' d' ff' zf' dft' fl' pc' pw' ->
  nf = nf' /\ d = d' /\ ff = ff' /\ zf = zf' /\ dft = dft' /\
  (length fl = length fl' ->
   length (np_where fl) = length (np_where fl') ->
   length pc = length pc' ->
   fl = fl' /\ pc = pc' /\ pw = pw').
Proof.
  unfold make_wkey. simpl. intros H.
  injection H as Hnf Hd Hff Hzf Hdft Htail.
  apply INR_eq in Hnf. apply b2r_inj in Hzf. apply b2r_inj in Hdft.
  repeat (split; [assumption|]).
  intros Lfl Lw Lpc.
  apply app_inj_1 in Htail; [|rewrite !length_map; exact Lw].
  destruct Htail as [Hw Htail].
  apply app_inj_1 in Htail; [|exact Lpc].
  destruct Htail as [Hpc Hpw].
  apply map_INR_inj in Hw. apply np_where_inj in Hw; [|exact Lfl].
  auto.
Qed.

Lemma wkey_separates_witness :
  2%nat = 2%nat /\ 1 = 1 /\ 0 = 0 /\ true = true /\ false = false /\
  (length [false; true] = length [false; true] ->
   length (np_where [false; true]) = length (np_where [false; true]) ->
   length [0] = length [0] ->
   [false; true] = [false; true] /\ [0] = [0] /\ [1] = [1]).
Proof.
  apply (wkey_separates 2 2 1 1 0 0 true true false false
           [false; true] [false; true] [0] [0] [1] [1]).
  reflexivity.
Defined.

(** ** The weight operator of [weights = "I"] with the flags zeroed *)

Lemma length_flagged_identity n zf (fl : list bool) :
  length fl = n -> length (flagged_identity n zf fl) = n.
Proof.
  intros L. unfold flagged_identity. destruct zf; [|apply length_identity].
  unfold zero_rows, zero_cols.
  rewrite length_zip_with_l_eq; rewrite ?length_map, ?length_identity; lia.
Qed.

Lemma flagged_identity_row n (fl : list bool) i fi :
  length fl = n -> fl !! i = Some fi ->
  flagged_identity n true fl !! i
  = Some (map (fun j => if fi || default false (fl !! j) then C0
                        else if Nat.eqb i j then C1 else C0) (seq 0 n)).
Proof.
  intros L Hi.
  assert (Li : (i < n)%nat) by (rewrite <- L; eapply lookup_lt_Some; eauto).
  unfold flagged_identity, zero_rows, zero_cols, identity.
  rewrite lookup_zip_with, Hi. simpl.
  rewrite !list_lookup_fmap, lookup_seq_lt by exact Li. simpl. f_equal.
  apply list_eq. intros j.
  destruct (le_lt_dec n j) as [Hj|Hj].
  - transitivity (@None C).
    + apply lookup_ge_None. destruct fi.
      * rewrite length_map, length_zip_with_l_eq;
          rewrite ?length_map, ?length_seq; lia.
      * rewrite length_zip_with_l_eq; rewrite ?length_map, ?length_seq; lia.
    + symmetry. apply lookup_ge_None. rewrite length_map, length_seq. lia.
  - destruct (fl !! j) as [fj|] eqn:Ej;
      [|apply lookup_ge_None in Ej; lia].
    rewrite list_lookup_fmap, lookup_seq_lt by exact Hj. simpl. rewrite Ej.
    simpl. destruct fi; simpl.
    + rewrite list_lookup_fmap, lookup_zip_with, Ej. simpl.
      rewrite list_lookup_fmap, lookup_seq_lt by exact Hj. reflexivity.
    + rewrite lookup_zip_with, Ej. simpl.
      rewrite list_lookup_fmap, lookup_seq_lt by exact Hj. reflexivity.
Qed.

(** Line 93 with the operator of lines 85-88: the product zeroes the
    data of the flagged channels and keeps the others. *)
Lemma np_dot_flagged_identity (fl : list bool) (y : list C) :
  length fl = length y ->
  np_dot (flagged_identity (length y) true fl) y = Ok (mask_flags fl y).
Proof.
  intros L. unfold np_dot.
  rewrite length_flagged_identity by exact L. rewrite Nat.eqb_refl. f_equal.
  apply list_eq. intros i. rewrite list_lookup_fmap.
  unfold mask_flags. rewrite lookup_zip_with.
  destruct (fl !! i) as [fi|] eqn:Ei.
  - assert (Li : (i < length y)%nat)
      by (rewrite <- L; eapply lookup_lt_Some; eauto).
    rewrite (flagged_identity_row _ _ _ _ L Ei). simpl.
    destruct (y !! i) as [yi|] eqn:Ey; [|apply lookup_ge_None in Ey; lia].
    simpl. f_equal.
    rewrite zip_with_seq_as_map.
    fold (Csum_n (fun j =>
            Cmul (if fi || default false (fl !! j) then C0
                  else if Nat.eqb i j then C1 else C0)
                 (default C0 (y !! j))) (length y)).
    rewrite (Csum_n_ext _ (fun j => if Nat.eqb j i
                                    then (if fi then C0 else default C0 (y !! j))
                                    else C0)).
    + rewrite Csum_n_delta by exact Li. rewrite Ey. reflexivity.
    + intros j _. rewrite (Nat.eqb_sym j i).
      destruct (Nat.eqb_spec i j) as [<-|Hne].
      * rewrite Ei. simpl. rewrite orb_diag.
        destruct fi; [apply Cmul_0_l|apply Cmul_1_l].
      * destruct (fi || default false (fl !! j)); apply Cmul_0_l.
  - assert (X : flagged_identity (length y) true fl !! i = None).
    { apply lookup_ge_None. rewrite length_flagged_identity by exact L.
      rewrite <- L. apply lookup_ge_None. exact Ei. }
    rewrite X. reflexivity.
Qed.

(** Lines 92-94 for any weight operator [W]. *)
Lemma apply_and_transform_run h wa ta ydata W (y z : list C) (t : list R) :
  h !! wa = Some (CMat W) ->
  h !! ydata = Some (CVec y) -> h !! ta = Some (RVec t) ->
  np_dot W y = Ok z -> length t = length z -> z <> [] ->
  apply_and_transform (Some wa) ydata ta h
  = (Ok (map (dft_sum (-1) (zip_with (fun x r => Cmul x (RtoC r)) z t))
             (seq 0 (length z))), h).
Proof.
  intros Hw Hy Ht Hdot Hlen Hne. unfold apply_and_transform.
  rewrite bind_ret, (bind_get_mat _ _ _ _ Hw), (bind_get_cvec _ _ _ _ Hy).
  rewrite Hdot, bind_lift_Ok, (bind_get_rvec _ _ _ _ Ht).
  unfold bcast_vec. rewrite Hlen, Nat.eqb_refl, bind_lift_Ok.
  rewrite fft_Ok.
  - rewrite length_zip_with_l_eq by (symmetry; exact Hlen). reflexivity.
  - apply nonempty_length.
    rewrite length_zip_with_l_eq by (symmetry; exact Hlen).
    apply nonempty_length. exact Hne.
Qed.

Lemma length_mask_flags (fl : list bool) (y : list C) :
  length fl = length y -> length (mask_flags fl y) = length y.
Proof.
  intros L. unfold mask_flags. rewrite length_zip_with_l_eq; lia.
Qed.


Section FlaggedIdentity.

Variable pinv : list (list C) -> list (list C).
Variable get_window : string -> nat -> result (list R).

(** Lines 84-88 with [zero_flags] set and a mask of [nf] entries. *)
Lemma select_weights_I_flags_run nf freqs flags ff pc pw cache h fl :
  h !! flags = Some (BVec fl) -> length fl = nf ->
  select_weights pinv nf freqs flags ff pc pw "I" true cache h
  = (Ok (Some (length h)), h ++ [CMat (flagged_identity nf true fl)]).
Proof.
  intros Hfl L. unfold select_weights. rewrite String.eqb_refl, bind_alloc.
  assert (Hfl1 : (h ++ [CMat (identity nf)]) !! flags = Some (BVec fl)).
  { rewrite lookup_app_l; [exact Hfl|]. eapply lookup_lt_Some; eauto. }
  unfold bind at 1. unfold bind at 1.
  unfold get_bvec at 1. rewrite Hfl1.
  rewrite (zero_flagged_run _ fl (identity nf)).
  - rewrite insert_snoc. reflexivity.
  - apply lookup_snoc_new.
  - rewrite length_identity. exact L.
Qed.

(** Lines 81-94 with [weights = "I"] and [zero_flags] set. *)
Lemma forward_stage_flagged_identity freqs ydata flags ff pc pw taper cache h
    (y : list C) (fl : list bool) w :
  get_window taper (length y) = Ok w ->
  h !! ydata = Some (CVec y) -> h !! flags = Some (BVec fl) ->
  length fl = length y -> length w = length y -> y <> [] ->
  forward_stage pinv get_window (length y) freqs ydata flags ff pc pw
    "I" true taper cache h
  = (Ok (length h,
         map (dft_sum (-1) (zip_with (fun x r => Cmul x (RtoC r))
                              (mask_flags fl y) (normalise w)))
             (seq 0 (length y))),
     h ++ [RVec (normalise w); CMat (flagged_identity (length y) true fl)]).
Proof.
  intros Hwin Hy Hfl Lfl Hlen Hne. unfold forward_stage.
  unfold bind at 1. rewrite (make_taper_run _ _ _ _ _ Hwin).
  assert (Ly : (ydata < length h)%nat) by (eapply lookup_lt_Some; eauto).
  assert (Lf : (flags < length h)%nat) by (eapply lookup_lt_Some; eauto).
  unfold bind at 1.
  rewrite (select_weights_I_flags_run _ _ _ _ _ _ _ _ fl);
    [|rewrite lookup_app_l by exact Lf; exact Hfl|exact Lfl].
  unfold bind at 1.
  rewrite (apply_and_transform_run _ _ _ _
             (flagged_identity (length y) true fl) y (mask_flags fl y)
             (normalise w)).
  - unfold ret. rewrite length_mask_flags by exact Lfl.
    rewrite <- app_assoc. reflexivity.
  - apply lookup_snoc_new.
  - rewrite !lookup_app_l; [exact Hy|lia|rewrite length_app; lia].
  - rewrite lookup_app_l by (rewrite length_app; simpl; lia).
    apply lookup_snoc_new.
  - apply np_dot_flagged_identity. exact Lfl.
  - unfold normalise. rewrite length_map, length_mask_flags by exact Lfl.
    exact Hlen.
  - apply nonempty_length. rewrite length_mask_flags by exact Lfl.
    apply nonempty_length. exact Hne.
Qed.

End FlaggedIdentity.










(** ** Linearity in the data *)

Lemma length_lincomb c (u v : list C) :
  length u = length v -> length (lincomb c u v) = length u.
Proof. intros L. unfold lincomb. rewrite length_zip_with_l_eq; lia. Qed.

Lemma lincomb_fmap {A} c (a b : A -> C) (l : list A) :
  lincomb c (map a l) (map b l) = map (fun x => Cadd (Cmul c (a x)) (b x)) l.
Proof.
  unfold lincomb.
  exact (zip_with_fmap_same (fun x y => Cadd (Cmul c x) y) a b l).
Qed.

Lemma lookup_lincomb c (u v : list C) i :
  length u = length v ->
  default C0 (lincomb c u v !! i)
  = Cadd (Cmul c (default C0 (u !! i))) (default C0 (v !! i)).
Proof.
  intros L. unfold lincomb. rewrite lookup_zip_with.
  destruct (u !! i) as [a|] eqn:Ea; simpl.
  - destruct (v !! i) as [b|] eqn:Eb; simpl; [reflexivity|].
    apply lookup_lt_Some in Ea. apply lookup_ge_None in Eb. lia.
  - destruct (v !! i) as [b|] eqn:Eb; simpl.
    + apply lookup_lt_Some in Eb. apply lookup_ge_None in Ea. lia.
    + rewrite Cmul_0_r, Cadd_0_r. reflexivity.
Qed.

Lemma Csum_zip_lincomb c (row y1 y2 : list C) :
  length y1 = length y2 ->
  Csum (zip_with Cmul row (lincomb c y1 y2))
  = Cadd (Cmul c (Csum (zip_with Cmul row y1))) (Csum (zip_with Cmul row y2)).
Proof.
  revert y1 y2. induction row as [|r row IH]; intros [|a y1] [|b y2] L;
    try discriminate; simpl.
  - rewrite Cmul_0_r, Cadd_0_r. reflexivity.
  - rewrite Cmul_0_r, Cadd_0_r. reflexivity.
  - rewrite Cmul_0_r, Cadd_0_r. reflexivity.
  - simpl in L. injection L as L. fold (lincomb c y1 y2). rewrite IH by exact L.
    destruct c, r, a, b, (Csum (zip_with Cmul row y1)),
      (Csum (zip_with Cmul row y2)).
    unfold Cadd, Cmul. simpl. f_equal; ring.
Qed.

(** line 93 *)
Lemma np_dot_lincomb c W (y1 y2 z1 z2 : list C) :
  np_dot W y1 = Ok z1 -> np_dot W y2 = Ok z2 ->
  length y1 = length y2 /\ length z1 = length z2 /\
  np_dot W (lincomb c y1 y2) = Ok (lincomb c z1 z2).
Proof.
  unfold np_dot. intros H1 H2.
  destruct (Nat.eqb_spec (length W) (length y1)) as [E1|]; [|discriminate].
  destruct (Nat.eqb_spec (length W) (length y2)) as [E2|]; [|discriminate].
  injection H1 as <-. injection H2 as <-.
  assert (L : length y1 = length y2) by congruence.
  split; [exact L|]. split; [rewrite !length_map; reflexivity|].
  rewrite length_lincomb by exact L. rewrite <- E1, Nat.eqb_refl. f_equal.
  rewrite lincomb_fmap. apply map_ext. intros row.
  apply Csum_zip_lincomb. exact L.
Qed.

(** line 94: the product with the taper *)
Lemma zip_with_lincomb (f : C -> R -> C) c (z1 z2 : list C) (t : list R) :
  (forall a b r, f (Cadd (Cmul c a) b) r = Cadd (Cmul c (f a r)) (f b r)) ->
  length z1 = length z2 ->
  zip_with f (lincomb c z1 z2) t
  = lincomb c (zip_with f z1 t) (zip_with f z2 t).
Proof.
  intros Hf. revert z2 t. induction z1 as [|a z1 IH]; intros [|b z2] [|r t] L;
    try discriminate; try reflexivity.
  simpl in L. injection L as L. simpl. unfold lincomb in *. simpl.
  rewrite Hf. f_equal. apply IH. exact L.
Qed.

Lemma map_lincomb (f : C -> C) c (z1 z2 : list C) :
  (forall a b, f (Cadd (Cmul c a) b) = Cadd (Cmul c (f a)) (f b)) ->
  map f (lincomb c z1 z2) = lincomb c (map f z1) (map f z2).
Proof.
  intros Hf. revert z2. induction z1 as [|a z1 IH]; intros [|b z2];
    try reflexivity.
  unfold lincomb in *. simpl. rewrite Hf. f_equal. apply IH.
Qed.

Lemma bcast_vec_lincomb (f : C -> R -> C) c (z1 z2 u1 u2 : list C)
    (t : list R) :
  (forall a b r, f (Cadd (Cmul c a) b) r = Cadd (Cmul c (f a r)) (f b r)) ->
  length z1 = length z2 ->
  bcast_vec f z1 t = Ok u1 -> bcast_vec f z2 t = Ok u2 ->
  length u1 = length u2 /\
  bcast_vec f (lincomb c z1 z2) t = Ok (lincomb c u1 u2).
Proof.
  intros Hf L H1 H2. unfold bcast_vec in *.
  rewrite length_lincomb by exact L. rewrite <- L in H2.
  destruct (Nat.eqb (length z1) (length t)) eqn:E.
  - injection H1 as <-. injection H2 as <-. split.
    + apply Nat.eqb_eq in E.
      rewrite !length_zip_with_l_eq; lia.
    + f_equal. apply zip_with_lincomb; assumption.
  - destruct z1 as [|a [|a' z1]], z2 as [|b [|b' z2]]; try discriminate.
    + destruct t as [|r [|r' t]]; try discriminate.
      injection H1 as <-. injection H2 as <-. split; reflexivity.
    + injection H1 as <-. injection H2 as <-. split.
      * rewrite !length_map. reflexivity.
      * simpl. f_equal. rewrite lincomb_fmap. apply map_ext. intros r.
        apply Hf.
    + destruct t as [|r [|r' t]]; try discriminate.
      injection H1 as <-. injection H2 as <-. split.
      * simpl. rewrite ?length_map. simpl in L. lia.
      * f_equal. apply (map_lincomb (fun x => f x r)). intros x y. apply Hf.
Qed.

Lemma taper_mul_lincomb c a b r :
  Cmul (Cadd (Cmul c a) b) (RtoC r)
  = Cadd (Cmul c (Cmul a (RtoC r))) (Cmul b (RtoC r)).
Proof.
  destruct c, a, b. unfold Cadd, Cmul, RtoC. simpl. f_equal; ring.
Qed.

(** the transforms *)
Lemma dft_sum_lincomb sgn c (u1 u2 : list C) k :
  length u1 = length u2 ->
  dft_sum sgn (lincomb c u1 u2) k
  = Cadd (Cmul c (dft_sum sgn u1 k)) (dft_sum sgn u2 k).
Proof.
  intros L. rewrite !dft_sum_as_sum. rewrite length_lincomb by exact L.
  rewrite <- L. rewrite <- Csum_n_mul_l, <- Csum_n_add.
  apply Csum_n_ext. intros j _. rewrite lookup_lincomb by exact L.
  rewrite Cmul_add_distr_r, Cmul_assoc. reflexivity.
Qed.

Lemma fft_lincomb c (u1 u2 X1 X2 : list C) :
  length u1 = length u2 -> fft u1 = Ok X1 -> fft u2 = Ok X2 ->
  length X1 = length X2 /\ fft (lincomb c u1 u2) = Ok (lincomb c X1 X2).
Proof.
  intros L H1 H2.
  assert (N1 : u1 <> []) by (intros ->; discriminate H1).
  assert (N2 : u2 <> []) by (intros ->; discriminate H2).
  rewrite fft_Ok in H1 by exact N1. rewrite fft_Ok in H2 by exact N2.
  injection H1 as <-. injection H2 as <-. split.
  - rewrite !length_map, !length_seq. exact L.
  - rewrite fft_Ok.
    + f_equal. rewrite length_lincomb by exact L. rewrite <- L.
      rewrite lincomb_fmap. apply map_ext. intros k.
      apply dft_sum_lincomb. exact L.
    + apply nonempty_length. rewrite length_lincomb by exact L.
      apply nonempty_length. exact N1.
Qed.

Lemma fftshift_lincomb c (X1 X2 : list C) :
  length X1 = length X2 ->
  fftshift (lincomb c X1 X2) = lincomb c (fftshift X1) (fftshift X2).
Proof.
  intros L. unfold fftshift. rewrite length_lincomb by exact L. rewrite <- L.
  set (k := (length X1 - length X1 / 2)%nat).
  unfold lincomb. rewrite zip_with_app.
  - rewrite zip_with_drop, zip_with_take. reflexivity.
  - rewrite !length_drop. lia.
Qed.

Section Linearity.

Variable pinv : list (list C) -> list (list C).
Variable get_window : string -> nat -> result (list R).

(** lines 92-94 *)
Lemma apply_and_transform_lincomb c wm yd1 yd2 yd3 ta h
    (y1 y2 X1 X2 : list C) h1 h2 :
  h !! yd1 = Some (CVec y1) -> h !! yd2 = Some (CVec y2) ->
  h !! yd3 = Some (CVec (lincomb c y1 y2)) ->
  apply_and_transform wm yd1 ta h = (Ok X1, h1) ->
  apply_and_transform wm yd2 ta h = (Ok X2, h2) ->
  length X1 = length X2 /\
  apply_and_transform wm yd3 ta h = (Ok (lincomb c X1 X2), h).
Proof.
  intros Hy1 Hy2 Hy3 H1 H2. unfold apply_and_transform in *.
  destruct wm as [wa|]; [|discriminate].
  rewrite bind_ret in H1. rewrite bind_ret in H2. rewrite bind_ret.
  apply bind_Ok_inv in H1. destruct H1 as (W & ? & G & H1).
  apply get_mat_Ok_inv in G. destruct G as [HW ->].
  rewrite (bind_get_mat _ _ _ _ HW) in H2. rewrite (bind_get_mat _ _ _ _ HW).
  rewrite (bind_get_cvec _ _ _ _ Hy1) in H1.
  rewrite (bind_get_cvec _ _ _ _ Hy2) in H2.
  rewrite (bind_get_cvec _ _ _ _ Hy3).
  apply bind_Ok_inv in H1. destruct H1 as (z1 & ? & G & H1).
  apply lift_Ok_inv in G. destruct G as [Hz1 ->].
  apply bind_Ok_inv in H2. destruct H2 as (z2 & ? & G & H2).
  apply lift_Ok_inv in G. destruct G as [Hz2 ->].
  destruct (np_dot_lincomb c W y1 y2 z1 z2 Hz1 Hz2) as (Ly & Lz & Hz3).
  rewrite Hz3, bind_lift_Ok.
  apply bind_Ok_inv in H1. destruct H1 as (t & ? & G & H1).
  apply get_rvec_Ok_inv in G. destruct G as [Ht ->].
  rewrite (bind_get_rvec _ _ _ _ Ht) in H2. rewrite (bind_get_rvec _ _ _ _ Ht).
  apply bind_Ok_inv in H1. destruct H1 as (u1 & ? & G & H1).
  apply lift_Ok_inv in G. destruct G as [Hu1 ->].
  apply bind_Ok_inv in H2. destruct H2 as (u2 & ? & G & H2).
  apply lift_Ok_inv in G. destruct G as [Hu2 ->].
  destruct (bcast_vec_lincomb (fun x r => Cmul x (RtoC r)) c z1 z2 u1 u2 t
              (taper_mul_lincomb c) Lz Hu1 Hu2) as (Lu & Hu3).
  rewrite Hu3, bind_lift_Ok.
  apply lift_Ok_inv in H1. destruct H1 as [HX1 _].
  apply lift_Ok_inv in H2. destruct H2 as [HX2 _].
  destruct (fft_lincomb c u1 u2 X1 X2 Lu HX1 HX2) as (LX & HX3).
  split; [exact LX|]. unfold lift. rewrite HX3. reflexivity.
Qed.

(** lines 81-94 *)
Lemma forward_stage_lincomb c nf freqs yd1 yd2 yd3 flags ff pc pw weights zf
    taper cache h (y1 y2 : list C) p1 p2 h1 h2 :
  yd1 <> WMAT_CACHE -> yd2 <> WMAT_CACHE -> yd3 <> WMAT_CACHE ->
  h !! yd1 = Some (CVec y1) -> h !! yd2 = Some (CVec y2) ->
  h !! yd3 = Some (CVec (lincomb c y1 y2)) ->
  forward_stage pinv get_window nf freqs yd1 flags ff pc pw weights zf taper
    cache h = (Ok p1, h1) ->
  forward_stage pinv get_window nf freqs yd2 flags ff pc pw weights zf taper
    cache h = (Ok p2, h2) ->
  h2 = h1 /\ p2.1 = p1.1 /\ length p1.2 = length p2.2 /\
  forward_stage pinv get_window nf freqs yd3 flags ff pc pw weights zf taper
    cache h = (Ok (p1.1, lincomb c p1.2 p2.2), h1).
Proof.
  intros N1 N2 N3 Hy1 Hy2 Hy3 H1 H2.
  apply forward_stage_Ok_inv in H1.
  destruct H1 as (w & wm & hA & X1 & Hw & Hsel & Happ1 & ->).
  apply forward_stage_Ok_inv in H2.
  destruct H2 as (w' & wm' & hA' & X2 & Hw' & Hsel' & Happ2 & ->).
  assert (w' = w) by congruence. subst w'.
  assert (E : (Ok wm', hA') = (Ok wm, hA)) by congruence.
  injection E as -> ->.
  assert (X : ext (h ++ [RVec (normalise w)]) hA).
  { eapply (safe_select_weights pinv); [apply ext_refl|exact Hsel]. }
  destruct X as [LA KA].
  assert (Keep : forall a o, a <> WMAT_CACHE -> h !! a = Some o ->
                             hA !! a = Some o).
  { intros a o Na Ha.
    assert (La : (a < length h)%nat) by (eapply lookup_lt_Some; eauto).
    rewrite KA; [|rewrite length_app; simpl; lia|exact Na].
    rewrite lookup_app_l by exact La. exact Ha. }
  pose proof (H1' := Happ1). pose proof (H2' := Happ2).
  apply (safe_apply_and_transform hA) in H1'; [|apply ext_refl].
  destruct (apply_and_transform_lincomb c wm yd1 yd2 yd3 (length h) hA
              y1 y2 X1 X2 h1 h2 (Keep _ _ N1 Hy1) (Keep _ _ N2 Hy2)
              (Keep _ _ N3 Hy3) Happ1 Happ2) as (LX & Happ3).
  assert (E1 : h1 = hA).
  { unfold apply_and_transform in Happ1. destruct wm as [wa|]; [|discriminate].
    rewrite bind_ret in Happ1.
    apply bind_Ok_inv in Happ1. destruct Happ1 as (? & ? & G & Happ1).
    apply get_mat_Ok_inv in G. destruct G as [_ ->].
    apply bind_Ok_inv in Happ1. destruct Happ1 as (? & ? & G & Happ1).
    apply get_cvec_Ok_inv in G. destruct G as [_ ->].
    apply bind_Ok_inv in Happ1. destruct Happ1 as (? & ? & G & Happ1).
    apply lift_Ok_inv in G. destruct G as [_ ->].
    apply bind_Ok_inv in Happ1. destruct Happ1 as (? & ? & G & Happ1).
    apply get_rvec_Ok_inv in G. destruct G as [_ ->].
    apply bind_Ok_inv in Happ1. destruct Happ1 as (? & ? & G & Happ1).
    apply lift_Ok_inv in G. destruct G as [_ ->].
    apply lift_Ok_inv in Happ1. destruct Happ1 as [_ ->]. reflexivity. }
  assert (E2 : h2 = hA).
  { unfold apply_and_transform in Happ2. destruct wm as [wa|]; [|discriminate].
    rewrite bind_ret in Happ2.
    apply bind_Ok_inv in Happ2. destruct Happ2 as (? & ? & G & Happ2).
    apply get_mat_Ok_inv in G. destruct G as [_ ->].
    apply bind_Ok_inv in Happ2. destruct Happ2 as (? & ? & G & Happ2).
    apply get_cvec_Ok_inv in G. destruct G as [_ ->].
    apply bind_Ok_inv in Happ2. destruct Happ2 as (? & ? & G & Happ2).
    apply lift_Ok_inv in G. destruct G as [_ ->].
    apply bind_Ok_inv in Happ2. destruct Happ2 as (? & ? & G & Happ2).
    apply get_rvec_Ok_inv in G. destruct G as [_ ->].
    apply bind_Ok_inv in Happ2. destruct Happ2 as (? & ? & G & Happ2).
    apply lift_Ok_inv in G. destruct G as [_ ->].
    apply lift_Ok_inv in Happ2. destruct Happ2 as [_ ->]. reflexivity. }
  subst h1 h2. simpl.
  repeat (split; [reflexivity || exact LX|]).
  unfold forward_stage.
  unfold bind at 1. rewrite (make_taper_run _ _ _ _ _ Hw).
  unfold bind at 1. rewrite Hsel.
  unfold bind at 1. rewrite Happ3. reflexivity.
Qed.

(** lines 110-112 *)
Lemma select_domain_lincomb c nf freqs ta (X1 X2 : list C) dom h r1 r2 h1 h2 :
  dom <> "frequency"%string ->
  length X1 = length X2 ->
  select_domain nf freqs ta X1 dom h = (Ok r1, h1) ->
  select_domain nf freqs ta X2 dom h = (Ok r2, h2) ->
  exists v1 v2 h3,
    r2 = r1 /\ h1 !! r1.2 = Some (CVec v1) /\ h2 !! r1.2 = Some (CVec v2) /\
    select_domain nf freqs ta (lincomb c X1 X2) dom h = (Ok r1, h3) /\
    h3 !! r1.2 = Some (CVec (lincomb c v1 v2)).
Proof.
  intros Hdom LX H1 H2. unfold select_domain in *.
  destruct (String.eqb_spec dom "frequency"); [contradiction|].
  apply bind_Ok_inv in H1. destruct H1 as (fv & ? & G & H1).
  apply get_rvec_Ok_inv in G. destruct G as [Hf ->].
  rewrite (bind_get_rvec _ _ _ _ Hf) in H2.
  rewrite (bind_get_rvec _ _ _ _ Hf).
  apply bind_Ok_inv in H1. destruct H1 as (f1 & ? & G & H1).
  apply lift_Ok_inv in G. destruct G as [Hf1 ->].
  rewrite Hf1, bind_lift_Ok in H2. rewrite Hf1, bind_lift_Ok.
  apply bind_Ok_inv in H1. destruct H1 as (f0 & ? & G & H1).
  apply lift_Ok_inv in G. destruct G as [Hf0 ->].
  rewrite Hf0, bind_lift_Ok in H2. rewrite Hf0, bind_lift_Ok.
  rewrite !bind_alloc in H1. rewrite !bind_alloc in H2.
  rewrite !bind_alloc. unfold ret in *.
  injection H1 as <- <-. injection H2 as <- <-.
  exists (fftshift X1), (fftshift X2). eexists. simpl.
  rewrite fftshift_lincomb by exact LX.
  repeat (split; [reflexivity || apply lookup_snoc_new|]).
  apply lookup_snoc_new.
Qed.

End Linearity.

(** X8. The filter is linear in the data, in the delay domain.  When the
    pipeline returns for the data [y1] and for the data [y2], started from
    one heap with the same other arguments and an output domain other
    than "frequency", it returns for the data [c * y1 + y2] too, with the
    same axis and at the same address, and its output is
    [c * out1 + out2], whatever the weights, the flags and the taper are
    (lines 93-94 and 112 are a matrix product, a product entry by entry,
    a transform and a rotation; the quotient by the taper of line 108 is
    not on this path). *)
Theorem dedekind_linear_in_data pinv get_window freqs yd1 yd2 yd3 flags ff
    pc pw weights zf dom taper cache h d (c : C) (y1 y2 : list C)
    x1 o1 h1 x2 o2 h2 :
  dom <> "frequency"%string ->
  h !! WMAT_CACHE = Some (Dict d) ->
  h !! yd1 = Some (CVec y1) -> h !! yd2 = Some (CVec y2) ->
  h !! yd3 = Some (CVec (lincomb c y1 y2)) ->
  dedekind pinv get_window freqs yd1 flags ff pc pw weights zf dom taper
    cache h = (Ok (x1, o1), h1) ->
  dedekind pinv get_window freqs yd2 flags ff pc pw weights zf dom taper
    cache h = (Ok (x2, o2), h2) ->
  exists v1 v2 h3,
    h1 !! o1 = Some (CVec v1) /\ h2 !! o2 = Some (CVec v2) /\
    dedekind pinv get_window freqs yd3 flags ff pc pw weights zf dom taper
      cache h = (Ok (x1, o1), h3) /\
    h3 !! o1 = Some (CVec (lincomb c v1 v2)).
Proof.
  intros Hdom Hd Hy1 Hy2 Hy3 H1 H2.
  assert (N1 : yd1 <> WMAT_CACHE) by (intros ->; congruence).
  assert (N2 : yd2 <> WMAT_CACHE) by (intros ->; congruence).
  assert (N3 : yd3 <> WMAT_CACHE) by (intros ->; congruence).
  unfold dedekind in *.
  apply bind_Ok_inv in H1. destruct H1 as (fv & ? & G & H1).
  apply get_rvec_Ok_inv in G. destruct G as [Hf ->].
  rewrite (bind_get_rvec _ _ _ _ Hf) in H2. rewrite (bind_get_rvec _ _ _ _ Hf).
  apply bind_Ok_inv in H1. destruct H1 as (p1 & hA & F1 & H1).
  apply bind_Ok_inv in H2. destruct H2 as (p2 & hB & F2 & H2).
  destruct (forward_stage_lincomb pinv get_window c _ _ _ _ _ _ _ _ _ _ _ _ _
              _ _ _ _ _ _ _ N1 N2 N3 Hy1 Hy2 Hy3 F1 F2)
    as (-> & Ep & LX & F3).
  rewrite Ep in H2.
  destruct (select_domain_lincomb c _ _ _ _ _ _ _ _ _ _ _ Hdom LX H1 H2)
    as (v1 & v2 & h3 & E & Hv1 & Hv2 & S3 & Hv3).
  injection E as -> ->. simpl in *.
  exists v1, v2, h3. repeat (split; [assumption|]).
  split; [|assumption].
  unfold bind. rewrite F3. exact S3.
Qed.

Lemma dedekind_linear_in_data_witness :
  exists v1 v2 h3,
    (dedekind pinv_self boxcar_window 2 4 5 1 9 10 "I" false "delay" "boxcar"
       0 (example_heap ++ [CVec (lincomb C1 [(1, 0); (0, 0)]
                                  [(1, 0); (0, 0)])])).2 !! 15%nat
    = Some (CVec v1) /\
    (dedekind pinv_self boxcar_window 2 4 5 1 9 10 "I" false "delay" "boxcar"
       0 (example_heap ++ [CVec (lincomb C1 [(1, 0); (0, 0)]
                                  [(1, 0); (0, 0)])])).2 !! 15%nat
    = Some (CVec v2) /\
    dedekind pinv_self boxcar_window 2 11 5 1 9 10 "I" false "delay" "boxcar"
      0 (example_heap ++ [CVec (lincomb C1 [(1, 0); (0, 0)]
                                 [(1, 0); (0, 0)])])
    = (Ok (14%nat, 15%nat), h3) /\
    h3 !! 15%nat = Some (CVec (lincomb C1 v1 v2)).
Proof.
  apply (dedekind_linear_in_data pinv_self boxcar_window 2 4 4 11 5 1 9 10
           "I" false "delay" "boxcar" 0%nat
           (example_heap ++ [CVec (lincomb C1 [(1, 0); (0, 0)]
                                     [(1, 0); (0, 0)])])
           [] C1 [(1, 0); (0, 0)] [(1, 0); (0, 0)] 14%nat 15%nat _
           14%nat 15%nat _);
    [discriminate|reflexivity..].
Defined.

(** ** The patch lists against the channel count (line 32) *)

Lemma bcast_cols_bad {A B D} (f : A -> B -> D) n (X : list (list A))
    (w : list B) :
  length w <> n -> length w <> 1%nat -> bcast_cols f n X w = Raise ValueError.
Proof.
  intros Hn H1. unfold bcast_cols.
  destruct (Nat.eqb_spec (length w) n); [contradiction|].
  destruct w as [|w0 [|w1 w]]; try reflexivity. simpl in H1. lia.
Qed.

Lemma bcast_cols_raise_inv {A B D} (f : A -> B -> D) n (X : list (list A))
    (w : list B) e :
  bcast_cols f n X w = Raise e -> e = ValueError.
Proof.
  unfold bcast_cols. destruct (Nat.eqb (length w) n); [discriminate|].
  destruct w as [|w0 [|w1 w]]; intros H; inversion H; reflexivity.
Qed.

Lemma continuous_term_bad nf freqs (pc pw : list R) ff :
  (length pw <> nf /\ length pw <> 1%nat) \/
  (length pc <> nf /\ length pc <> 1%nat) ->
  continuous_term nf freqs pc pw ff = Raise ValueError.
Proof.
  intros Hbad. unfold continuous_term.
  destruct (bcast_cols (fun d w => RtoC (np_sinc (2 * d * w))) nf
              (meshgrid_diff freqs) pw) as [S|e] eqn:ES.
  - destruct Hbad as [[H1 H2]|[H1 H2]].
    + rewrite bcast_cols_bad in ES by assumption. discriminate.
    + simpl. rewrite bcast_cols_bad by assumption. reflexivity.
  - apply bcast_cols_raise_inv in ES. subst e. reflexivity.
Qed.

Lemma build_continuous_bad nf freqs (pc pw : list R) ff h :
  0 < ff -> pc <> [] -> pw <> [] ->
  (length pw <> nf /\ length pw <> 1%nat) \/
  (length pc <> nf /\ length pc <> 1%nat) ->
  build_continuous nf freqs pc pw ff h
  = (Raise ValueError, h ++ [CMat (zeros nf)]).
Proof.
  intros Hff Hc Hw Hbad. unfold build_continuous. rewrite bind_alloc.
  destruct pc as [|c pc]; [congruence|]. destruct pw as [|w pw]; [congruence|].
  simpl zip. simpl for_each.
  destruct (Rlt_dec 0 ff) as [_|N]; [|contradiction].
  rewrite (continuous_term_bad nf freqs (c :: pc) (w :: pw) ff Hbad).
  reflexivity.
Qed.

(** X9. Line 32 multiplies by the whole lists [patch_w] and [patch_c]:
    in continuous mode with a positive [filter_factor], a call that has
    to build its matrix and is given patches (a centre and a width at
    least) raises ValueError unless each list has one entry or as many
    entries as there are channels; the only new object is the zero matrix
    of line 29, and nothing is stored.  So two patches are refused for
    every channel count but two. *)
Theorem patch_count_not_broadcastable_raises pinv nf df pc pw ff zf fl cache h
    flv (cv wv : list R) d :
  (2 <= nf)%nat ->
  h !! fl = Some (BVec flv) -> h !! pc = Some (RVec cv) ->
  h !! pw = Some (RVec wv) -> h !! WMAT_CACHE = Some (Dict d) ->
  dict_get (make_wkey nf df ff zf false flv cv wv) d = None ->
  0 < ff -> cv <> [] -> wv <> [] ->
  (length wv <> nf /\ length wv <> 1%nat) \/
  (length cv <> nf /\ length cv <> 1%nat) ->
  linear_filter_matrix pinv nf df pc pw ff zf fl cache false h
  = (Raise ValueError, h ++ [CMat (zeros nf)]).
Proof.
  intros Hnf Hfl Hpc Hpw Hd G Hff Hc Hw Hbad. unfold linear_filter_matrix.
  rewrite !arange_index by lia. rewrite !bind_lift_Ok. rewrite grid_step.
  rewrite (bind_get_bvec _ _ _ _ Hfl), (bind_get_rvec _ _ _ _ Hpc),
    (bind_get_rvec _ _ _ _ Hpw), (bind_get_dict _ _ _ _ Hd).
  rewrite (dict_mem_false _ _ G).
  unfold bind at 1. unfold bind at 1. unfold build_inverse_filter.
  simpl negb. cbv iota. unfold bind at 1.
  rewrite build_continuous_bad by assumption. reflexivity.
Qed.

Lemma patch_count_not_broadcastable_raises_witness :
  linear_filter_matrix pinv_self 3 1 3 3 1 false 2 0 false
    [Dict []; CMat []; BVec [false; false; false]; RVec [0; 1]]
  = (Raise ValueError,
     [Dict []; CMat []; BVec [false; false; false]; RVec [0; 1]]
     ++ [CMat (zeros 3)]).
Proof.
  apply (patch_count_not_broadcastable_raises pinv_self 3 1 3 3 1 false 2 0
           [Dict []; CMat []; BVec [false; false; false]; RVec [0; 1]]
           [false; false; false] [0; 1] [0; 1] []);
    [lia|reflexivity|reflexivity|reflexivity|reflexivity|reflexivity|lra
    |discriminate|discriminate|].
  left. simpl. split; lia.
Defined.

(** ** The discrete construction (lines 35-43) *)

Lemma discrete_loop_outcome (delays : list R) (a : addr) (l : list (R * R)) :
  forall (v : list C) (h : heap),
    h !! a = Some (CVec v) ->
    exists v',
      (Forall (fun p : R * R => p.2 <> 0) l /\
       for_each l (fun p =>
         if Req_dec_T p.2 0 then raise ZeroDivisionError
         else
           let! v := get_cvec a in
           put a (CVec (zip_with (fun tau x =>
                          if Rle_dec (Rabs (tau - p.1)) p.2
                          then Cadd x (RtoC (1 / 2 / p.2)) else x) delays v))) h
       = (Ok tt, <[a := CVec v']> h)) \/
      (~ Forall (fun p : R * R => p.2 <> 0) l /\
       for_each l (fun p =>
         if Req_dec_T p.2 0 then raise ZeroDivisionError
         else
           let! v := get_cvec a in
           put a (CVec (zip_with (fun tau x =>
                          if Rle_dec (Rabs (tau - p.1)) p.2
                          then Cadd x (RtoC (1 / 2 / p.2)) else x) delays v))) h
       = (Raise ZeroDivisionError, <[a := CVec v']> h)).
Proof.
  induction l as [|p l IH]; intros v h Ha.
  - exists v. left. split; [constructor|]. simpl.
    rewrite list_insert_id by exact Ha. reflexivity.
  - simpl for_each. destruct (Req_dec_T p.2 0) as [E|N].
    + exists v. right. split.
      * intros F. inversion F; subst. contradiction.
      * unfold bind, raise. rewrite list_insert_id by exact Ha. reflexivity.
    + assert (La : (a < length h)%nat) by (eapply lookup_lt_Some; eauto).
      destruct (IH _ (<[a := CVec (zip_with (fun tau x =>
                          if Rle_dec (Rabs (tau - p.1)) p.2
                          then Cadd x (RtoC (1 / 2 / p.2)) else x) delays v)]> h)
                  (list_lookup_insert_eq _ _ _ La)) as [v' [[F H]|[F H]]];
        exists v'; [left|right]; rewrite list_insert_insert_eq in H;
        (split; [|unfold bind at 1; rewrite (bind_get_cvec _ _ _ _ Ha);
                  unfold put; exact H]).
      * constructor; assumption.
      * intros F'. inversion F'; subst. contradiction.
Qed.

Lemma build_discrete_outcome nf df (cv wv : list R) ff h :
  exists e h',
    build_discrete nf df cv wv ff h = (Raise e, h') /\
    (e = NameError \/ e = ZeroDivisionError) /\
    (Forall (fun w => w <> 0) wv -> e = NameError).
Proof.
  unfold build_discrete. rewrite bind_alloc.
  destruct (discrete_loop_outcome (fftshift (fftfreq nf df)) (length h)
              (zip cv wv) (replicate nf (RtoC ff))
              (h ++ [CVec (replicate nf (RtoC ff))]) (lookup_snoc_new _ _))
    as [v' [[F H]|[F H]]].
  - unfold bind at 1. rewrite H. rewrite insert_snoc.
    rewrite (bind_get_cvec _ _ _ _ (lookup_snoc_new _ _)).
    rewrite bind_alloc. unfold raise. eauto 10.
  - unfold bind at 1. rewrite H. do 2 eexists.
    split; [reflexivity|]. split; [auto|].
    intros Hall. exfalso. apply F. clear -Hall.
    revert cv. induction Hall as [|w wv Hw Hall IH]; intros [|c cv];
      simpl; constructor; auto.
Qed.

(** X10. Discrete mode never builds a matrix.  A call with
    [discrete_ft] set whose key is not in the cache raises: NameError
    from the unbound name of line 42 when no width is zero, or
    ZeroDivisionError from line 38; it stores nothing, and every object
    of the heap is after the call what it was before.  A discrete-mode
    call returns only for a key that is in the cache already. *)
Theorem discrete_mode_never_builds pinv nf df pc pw ff zf fl cache h flv
    (cv wv : list R) d :
  (2 <= nf)%nat ->
  h !! fl = Some (BVec flv) -> h !! pc = Some (RVec cv) ->
  h !! pw = Some (RVec wv) -> h !! WMAT_CACHE = Some (Dict d) ->
  dict_get (make_wkey nf df ff zf true flv cv wv) d = None ->
  exists e h',
    linear_filter_matrix pinv nf df pc pw ff zf fl cache true h
    = (Raise e, h') /\
    (e = NameError \/ e = ZeroDivisionError) /\
    (Forall (fun w => w <> 0) wv -> e = NameError) /\
    (forall a : addr, (a < length h)%nat -> h' !! a = h !! a).
Proof.
  intros Hnf Hfl Hpc Hpw Hd G.
  destruct (build_discrete_outcome nf df cv wv ff h)
    as (e & h' & B & He & Hnz).
  exists e, h'.
  assert (K : keeps h h').
  { eapply pure_build_discrete; [apply keeps_refl|exact B]. }
  split; [|split; [exact He|split; [exact Hnz|apply K]]].
  unfold linear_filter_matrix.
  rewrite !arange_index by lia. rewrite !bind_lift_Ok. rewrite grid_step.
  rewrite (bind_get_bvec _ _ _ _ Hfl), (bind_get_rvec _ _ _ _ Hpc),
    (bind_get_rvec _ _ _ _ Hpw), (bind_get_dict _ _ _ _ Hd).
  rewrite (dict_mem_false _ _ G).
  unfold bind at 1. unfold bind at 1. unfold build_inverse_filter.
  simpl negb. cbv iota. unfold bind at 1. rewrite B. reflexivity.
Qed.

Lemma discrete_mode_never_builds_witness :
  exists e h',
    linear_filter_matrix pinv_self 2 1 9 10 1 false 5 0 true example_heap
    = (Raise e, h') /\
    (e = NameError \/ e = ZeroDivisionError) /\
    (Forall (fun w => w <> 0) [1] -> e = NameError) /\
    (forall a : addr, (a < length example_heap)%nat ->
                      h' !! a = example_heap !! a).
Proof.
  apply (discrete_mode_never_builds pinv_self 2 1 9 10 1 false 5 0
           example_heap [false; false] [0] [1] []);
    [lia|reflexivity|reflexivity|reflexivity|reflexivity|reflexivity].
Defined.

(** ** The pipeline away from the cache *)

Section PipelineFrame.

Variable pinv : list (list C) -> list (list C).
Variable get_window : string -> nat -> result (list R).

Lemma pure_make_taper h0 taper nf : pure_on h0 (make_taper get_window taper nf).
Proof. unfold make_taper. repeat pure_step. Qed.

Lemma pure_select_weights h0 nf freqs flags ff pc pw weights zf cache :
  weights <> "WTL"%string ->
  pure_on h0 (select_weights pinv nf freqs flags ff pc pw weights zf cache).
Proof.
  intros Hw. unfold select_weights.
  destruct (String.eqb weights "I").
  - apply pure_alloc_bind; intros a La.
    apply pure_bind; [|intros; apply pure_ret].
    destruct zf; [|apply pure_ret].
    apply pure_bind; [auto with pure_db|intros fl].
    apply pure_zero_flagged; auto.
  - destruct (String.eqb_spec weights "WTL"); [contradiction|apply pure_ret].
Qed.

Lemma pure_apply_and_transform h0 wm ydata taper :
  pure_on h0 (apply_and_transform wm ydata taper).
Proof.
  unfold apply_and_transform.
  apply pure_bind; [destruct wm; auto with pure_db|intros wa].
  repeat pure_step.
Qed.

Lemma pure_select_domain h0 nf freqs taper output dom :
  pure_on h0 (select_domain nf freqs taper output dom).
Proof.
  unfold select_domain. destruct (String.eqb dom "frequency"); repeat pure_step.
Qed.

Lemma pure_dedekind h0 freqs ydata flags ff pc pw weights zf dom taper cache :
  weights <> "WTL"%string ->
  pure_on h0 (dedekind pinv get_window freqs ydata flags ff pc pw weights zf
                dom taper cache).
Proof.
  intros Hw. unfold dedekind.
  apply pure_bind; [auto with pure_db|intros fv].
  apply pure_bind; [|intros p; apply pure_select_domain].
  unfold forward_stage.
  apply pure_bind; [apply pure_make_taper|intros t].
  apply pure_bind; [apply pure_select_weights; exact Hw|intros wm].
  apply pure_bind; [apply pure_apply_and_transform|intros X].
  apply pure_ret.
Qed.

End PipelineFrame.

(** X11. Only the "WTL" branch reaches the cache.  With every other
    [weights] value ("I" included) the pipeline neither reads nor writes
    [WMAT_CACHE]: whether the call returns or raises, every object that
    existed before it, the cache dictionary included, is the same after
    it. *)
Theorem cache_untouched_without_wtl pinv get_window freqs ydata flags ff pc pw
    weights zf dom taper cache h r h' (a : addr) :
  weights <> "WTL"%string ->
  dedekind pinv get_window freqs ydata flags ff pc pw weights zf dom taper
    cache h = (r, h') ->
  (a < length h)%nat ->
  h' !! a = h !! a.
Proof.
  intros Hw H La.
  assert (K : keeps h h').
  { eapply pure_dedekind; [exact Hw|apply keeps_refl|exact H]. }
  destruct K as [_ K]. apply K. exact La.
Qed.

Lemma cache_untouched_without_wtl_witness :
  (dedekind pinv_self boxcar_window 2 4 5 1 9 10 "I" true "delay" "boxcar" 0
     example_heap).2 !! WMAT_CACHE
  = example_heap !! WMAT_CACHE.
Proof.
  apply (cache_untouched_without_wtl pinv_self boxcar_window 2 4 5 1 9 10
           "I" true "delay" "boxcar" 0%nat example_heap
           (dedekind pinv_self boxcar_window 2 4 5 1 9 10 "I" true "delay"
              "boxcar" 0 example_heap).1).
  - discriminate.
  - destruct (dedekind _ _ _ _ _ _ _ _ _ _ _ _ _ _) as [r h']. reflexivity.
  - simpl. unfold WMAT_CACHE. lia.
Defined.

(** ** An axis of fewer than two channels *)

(** X12. Lines 90 and 111 read [freqs[1]]: on a frequency axis of fewer
    than two channels the pipeline raises whenever [weights] is "WTL" or
    the output domain is not "frequency", whatever the other arguments
    are.  (Only [weights = "I"] with [output_domain = "frequency"] can
    serve a single channel.) *)
Theorem short_axis_raises pinv get_window freqs ydata flags ff pc pw weights
    zf dom taper cache h fv :
  h !! freqs = Some (RVec fv) -> freqs <> WMAT_CACHE ->
  (length fv < 2)%nat ->
  weights = "WTL"%string \/ dom <> "frequency"%string ->
  exists e h',
    dedekind pinv get_window freqs ydata flags ff pc pw weights zf dom taper
      cache h = (Raise e, h').
Proof.
  intros Hf Hne Hlen Hcase.
  destruct (dedekind pinv get_window freqs ydata flags ff pc pw weights zf
              dom taper cache h) as [[x|e] h'] eqn:E; [exfalso|eauto].
  assert (Lf : (freqs < length h)%nat) by (eapply lookup_lt_Some; eauto).
  assert (H1 : index fv 1 = Raise IndexError).
  { unfold index. rewrite (proj2 (lookup_ge_None fv 1)) by lia. reflexivity. }
  unfold dedekind in E. rewrite (bind_get_rvec _ _ _ _ Hf) in E.
  apply bind_Ok_inv in E. destruct E as (p & h1 & F & S).
  assert (Hf1 : h1 !! freqs = Some (RVec fv)).
  { assert (X1 : ext h h1).
    { eapply safe_forward_stage; [apply ext_refl|exact F]. }
    destruct X1 as [_ X1]. rewrite X1; [exact Hf|exact Lf|exact Hne]. }
  destruct Hcase as [->|Hdom].
  - apply forward_stage_Ok_inv in F.
    destruct F as (w & wm & h2 & X & Hw & Hsel & _).
    rewrite select_weights_WTL in Hsel.
    rewrite (bind_get_rvec _ fv) in Hsel
      by (rewrite lookup_app_l by exact Lf; exact Hf).
    rewrite H1 in Hsel. discriminate.
  - unfold select_domain in S.
    destruct (String.eqb_spec dom "frequency"); [contradiction|].
    rewrite (bind_get_rvec _ _ _ _ Hf1) in S. rewrite H1 in S. discriminate.
Qed.

Lemma short_axis_raises_witness :
  exists e h',
    dedekind pinv_self boxcar_window 9 7 7 1 8 8 "I" false "delay" "boxcar" 0
      example_heap = (Raise e, h').
Proof.
  apply (short_axis_raises pinv_self boxcar_window 9 7 7 1 8 8 "I" false
           "delay" "boxcar" 0%nat example_heap [0]);
    [reflexivity|discriminate|simpl; lia|right; discriminate].
Defined.

(** ** The labels of the delay axis (line 111) *)

Lemma half_offset (n : nat) :
  INR (n / 2) - INR n / 2 = if Nat.even n then 0 else -1 / 2.
Proof.
  destruct (Nat.Even_or_Odd n) as [[k ->]|[k ->]].
  - replace (2 * k / 2)%nat with k
      by (rewrite Nat.mul_comm, Nat.div_mul; lia).
    rewrite (proj2 (Nat.even_spec (2 * k))) by (exists k; reflexivity).
    rewrite mult_INR. simpl. lra.
  - replace ((2 * k + 1) / 2)%nat with k.
    2:{ apply (Nat.div_unique _ 2 k 1); lia. }
    assert (E : Nat.even (2 * k + 1) = false).
    { rewrite <- Nat.negb_odd. rewrite (proj2 (Nat.odd_spec (2 * k + 1)));
        [reflexivity|exists k; reflexivity]. }
    rewrite E. rewrite plus_INR, mult_INR. simpl. lra.
Qed.

(** X13. The delay axis is centred for an even channel count only.
    When the pipeline returns in the delay domain, the axis it returns
    is a new array of [nf] labels whose entry at the middle index
    [nf // 2], where line 112 puts the zero-delay bin, is 0 for an even
    [nf] and minus half a step, [-1/2 / (df * nf)], for an odd [nf]
    ([np.arange(-nf/2, nf/2)] starts at a half-integer then). *)
Theorem delay_axis_centre_label pinv get_window freqs ydata flags ff pc pw
    weights zf dom taper cache h fv x out h' :
  dom <> "frequency"%string ->
  h !! freqs = Some (RVec fv) -> freqs <> WMAT_CACHE ->
  dedekind pinv get_window freqs ydata flags ff pc pw weights zf dom taper
    cache h = (Ok (x, out), h') ->
  exists f0 f1 xs,
    fv !! 0%nat = Some f0 /\ fv !! 1%nat = Some f1 /\
    (length h <= x)%nat /\
    h' !! x = Some (RVec xs) /\ length xs = length fv /\
    xs !! (length fv / 2)%nat
    = Some ((if Nat.even (length fv) then 0 else -1 / 2)
            / ((f1 - f0) * INR (length fv))).
Proof.
  intros Hdom Hf Hne E.
  assert (Lf : (freqs < length h)%nat) by (eapply lookup_lt_Some; eauto).
  unfold dedekind in E. rewrite (bind_get_rvec _ _ _ _ Hf) in E.
  apply bind_Ok_inv in E. destruct E as (p & h1 & F & S).
  assert (X1 : ext h h1).
  { eapply safe_forward_stage; [apply ext_refl|exact F]. }
  assert (Hf1 : h1 !! freqs = Some (RVec fv)).
  { destruct X1 as [_ X1]. rewrite X1; [exact Hf|exact Lf|exact Hne]. }
  unfold select_domain in S.
  destruct (String.eqb_spec dom "frequency"); [contradiction|].
  rewrite (bind_get_rvec _ _ _ _ Hf1) in S.
  apply bind_Ok_inv in S. destruct S as (f1 & ? & G & S).
  apply lift_Ok_inv in G. destruct G as [H1 ->].
  apply bind_Ok_inv in S. destruct S as (f0 & ? & G & S).
  apply lift_Ok_inv in G. destruct G as [H0 ->].
  rewrite !bind_alloc in S. unfold ret in S.
  injection S as <- <- <-.
  unfold index in H0, H1.
  destruct (fv !! 0%nat) as [f0'|] eqn:E0; [|discriminate].
  destruct (fv !! 1%nat) as [f1'|] eqn:E1; [|discriminate].
  injection H0 as ->. injection H1 as ->.
  assert (Ln : (length fv / 2 < length fv)%nat).
  { apply Nat.div_lt; [|lia]. apply lookup_lt_Some in E0. lia. }
  exists f0, f1. eexists.
  split; [reflexivity|]. split; [reflexivity|].
  split; [destruct X1; lia|].
  split; [|split].
  - rewrite lookup_app_l by (rewrite length_app; simpl; lia).
    apply lookup_snoc_new.
  - unfold arange_sym. rewrite !length_map, length_seq. reflexivity.
  - unfold arange_sym. rewrite !list_lookup_fmap.
    rewrite lookup_seq_lt by exact Ln. rewrite Nat.add_0_l.
    cbn [fmap option_fmap option_map]. rewrite half_offset. reflexivity.
Qed.

Lemma delay_axis_centre_label_witness :
  exists f0 f1 xs,
    [100; 101] !! 0%nat = Some f0 /\ [100; 101] !! 1%nat = Some f1 /\
    (length example_heap <= 13)%nat /\
    (dedekind pinv_self boxcar_window 2 4 5 1 9 10 "I" false "delay" "boxcar"
       0 example_heap).2 !! 13%nat = Some (RVec xs) /\
    length xs = length [100; 101] /\
    xs !! (length [100; 101] / 2)%nat
    = Some ((if Nat.even (length [100; 101]) then 0 else -1 / 2)
            / ((f1 - f0) * INR (length [100; 101]))).
Proof.
  apply (delay_axis_centre_label pinv_self boxcar_window 2 4 5 1 9 10 "I"
           false "delay" "boxcar" 0%nat example_heap [100; 101] 13%nat
           14%nat);
    [discriminate|reflexivity|discriminate|reflexivity].
Defined.

(** ** Flag zeroing on a build, through the pseudo-inverse *)

Lemma zero_flagged_Ok_inv a (fl : list bool) h h' :
  zero_flagged a fl h = (Ok tt, h') ->
  exists m, h !! a = Some (CMat m) /\ length fl = length m /\
            h' = <[a := CMat (zero_rows fl (zero_cols fl m))]> h.
Proof.
  intros H. pose proof H as H0. unfold zero_flagged in H0.
  apply bind_Ok_inv in H0. destruct H0 as (m & ? & G & H0).
  apply get_mat_Ok_inv in G. destruct G as [Ha ->].
  destruct (Nat.eqb_spec (length fl) (length m)) as [L|]; [|discriminate].
  exists m. split; [exact Ha|]. split; [exact L|].
  rewrite (zero_flagged_run a fl m h Ha L) in H. injection H as <-.
  reflexivity.
Qed.

Lemma build_continuous_last nf freqs pc pw ff h a h' :
  build_continuous nf freqs pc pw ff h = (Ok a, h') -> S a = length h'.
Proof.
  unfold build_continuous. rewrite bind_alloc. intros H.
  apply bind_Ok_inv in H. destruct H as ([] & h1 & _ & H).
  apply bind_Ok_inv in H. destruct H as (m & ? & G & H).
  apply get_mat_Ok_inv in G. destruct G as [_ ->].
  unfold alloc in H. injection H as <- <-.
  rewrite length_app. simpl. lia.
Qed.

Lemma zero_flagged_col (fl : list bool) (M : list (list C)) l j :
  fl !! j = Some true ->
  at_entry (zero_rows fl (zero_cols fl M)) l j = C0.
Proof.
  intros Hj. unfold at_entry. rewrite entry_zero_rows, entry_zero_cols, Hj.
  destruct (fl !! l) as [f|]; [|reflexivity].
  destruct (entry M l j); [|reflexivity]. destruct f; reflexivity.
Qed.

(** X14. What flag zeroing gives on a build.  When a continuous-mode
    call with [zero_flags] set misses the cache and returns, the object
    it returns is [pinv A] for the matrix [A] of lines 28-46, stored
    just before it, and [A] has zero rows and zero columns at the
    flagged channels.  If [pinv A] is a reflexive generalised inverse of
    [A] with [A pinv(A)] Hermitian (two of the Moore-Penrose conditions),
    every column of the returned filter matrix at a flagged channel is
    zero: the data of a flagged channel do not enter the filtered
    output. *)
Theorem built_filter_ignores_flagged_channels pinv nf df pc pw ff fl cache h
    (flv : list bool) cv wv d a h' :
  h !! fl = Some (BVec flv) -> h !! pc = Some (RVec cv) ->
  h !! pw = Some (RVec wv) -> h !! WMAT_CACHE = Some (Dict d) ->
  dict_get (make_wkey nf df ff true false flv cv wv) d = None ->
  linear_filter_matrix pinv nf df pc pw ff true fl cache false h
  = (Ok a, h') ->
  exists A,
    h' !! (a - 1)%nat = Some (CMat A) /\ h' !! a = Some (CMat (pinv A)) /\
    (forall j l, flv !! j = Some true ->
                 at_entry A j l = C0 /\ at_entry A l j = C0) /\
    (penrose_reflexive nf A (pinv A) -> penrose_hermitian nf A (pinv A) ->
     forall i j, (i < nf)%nat -> (j < nf)%nat -> flv !! j = Some true ->
                 at_entry (pinv A) i j = C0).
Proof.
  intros Hfl Hpc Hpw Hd G H.
  apply linear_filter_matrix_outcome in H.
  destruct H as [(e & E & _)|(a' & d0 & flv0 & cv0 & wv0 & E & Hnf & Hfl0
                               & Hpc0 & Hpw0 & Hd0 & X)]; [discriminate|].
  injection E as <-.
  assert (flv0 = flv) by congruence. assert (cv0 = cv) by congruence.
  assert (wv0 = wv) by congruence. assert (d0 = d) by congruence.
  subst flv0 cv0 wv0 d0.
  destruct X as [[G' _]|[_ (inv & h1 & A & B & HA & -> & ->)]]; [congruence|].
  assert (K1 : keeps h h1).
  { eapply pure_build_inverse_filter; [apply keeps_refl|exact B]. }
  assert (L0 : (0 < length h)%nat).
  { apply lookup_lt_Some in Hd. unfold WMAT_CACHE in Hd. lia. }
  assert (L1 : (length h <= length h1)%nat) by (destruct K1; lia).
  unfold build_inverse_filter in B. simpl negb in B. cbv iota in B.
  apply bind_Ok_inv in B. destruct B as (inv0 & h0 & B0 & B).
  apply bind_Ok_inv in B. destruct B as ([] & h2 & Z & B).
  unfold ret in B. injection B as <- <-.
  apply zero_flagged_Ok_inv in Z. destruct Z as (m & Hm & Lm & ->).
  assert (EA : A = zero_rows flv (zero_cols flv m)).
  { rewrite list_lookup_insert_eq in HA by (eapply lookup_lt_Some; eauto).
    congruence. }
  assert (Linv : (inv0 < length h0)%nat) by (eapply lookup_lt_Some; eauto).
  assert (F : (length h <= inv0)%nat).
  { eapply build_continuous_fresh'; [apply keeps_refl|exact B0]. }
  exists A.
  assert (Hrow : forall j l, flv !! j = Some true ->
                             at_entry A j l = C0 /\ at_entry A l j = C0).
  { intros j l Hj. subst A. split;
      [apply zero_flagged_row|apply zero_flagged_col]; exact Hj. }
  split; [|split; [|split]].
  - apply build_continuous_last in B0.
    rewrite length_insert. rewrite <- B0.
    replace (S inv0 - 1)%nat with inv0 by lia.
    rewrite list_lookup_insert_ne by (unfold WMAT_CACHE; lia).
    rewrite lookup_app_l by (rewrite length_insert; lia).
    exact HA.
  - rewrite list_lookup_insert_ne
      by (unfold WMAT_CACHE; rewrite length_insert; lia).
    apply lookup_snoc_new.
  - exact Hrow.
  - intros PR PH i j Hi Hj Hfj.
    apply (pinv_zero_column nf A (pinv A) j PR PH Hj); [|exact Hi].
    intros l _. apply (Hrow j l). exact Hfj.
Qed.

Lemma built_filter_ignores_flagged_channels_witness :
  exists A,
    (linear_filter_matrix pinv_self 2 1 8 8 1 true 6 0 false example_heap).2
      !! (13 - 1)%nat = Some (CMat A) /\
    (linear_filter_matrix pinv_self 2 1 8 8 1 true 6 0 false example_heap).2
      !! 13%nat = Some (CMat (pinv_self A)) /\
    (forall j l, [true; true] !! j = Some true ->
                 at_entry A j l = C0 /\ at_entry A l j = C0) /\
    (penrose_reflexive 2 A (pinv_self A) ->
     penrose_hermitian 2 A (pinv_self A) ->
     forall i j, (i < 2)%nat -> (j < 2)%nat ->
                 [true; true] !! j = Some true ->
                 at_entry (pinv_self A) i j = C0).
Proof.
  apply (built_filter_ignores_flagged_channels pinv_self 2 1 8 8 1 6 0
           example_heap [true; true] [] [] []);
    [reflexivity|reflexivity|reflexivity|reflexivity|reflexivity|].
  rewrite (linear_filter_matrix_miss_skip pinv_self 2 1 8 8 1 true 6 0
             example_heap [true; true] [] [] []);
    [reflexivity|lia|reflexivity|reflexivity|reflexivity|reflexivity
    |reflexivity|left; reflexivity|reflexivity].
Defined.

(** ** The shape of the single-patch matrix *)

Lemma np_sinc_even x : np_sinc (- x) = np_sinc x.
Proof.
  unfold np_sinc.
  destruct (Req_dec_T (- x) 0) as [E|N], (Req_dec_T x 0) as [E'|N'];
    try reflexivity; try (exfalso; lra).
  replace (PI * - x) with (- (PI * x)) by ring.
  rewrite sin_neg. unfold Rdiv. rewrite Rinv_opp. ring.
Qed.

Lemma patch_term_opp d c w ff :
  patch_term (- d) c w ff = Cconj (patch_term d c w ff).
Proof.
  unfold patch_term.
  replace (2 * - d * w) with (- (2 * d * w)) by ring.
  rewrite np_sinc_even.
  replace (-2 * PI * - d * c) with (- (-2 * PI * d * c)) by ring.
  unfold expi. rewrite cos_neg, sin_neg.
  unfold Cconj, Cdivr, Cmul, RtoC, Rdiv. simpl. f_equal; ring.
Qed.

Lemma patch_term_0 c w ff : patch_term 0 c w ff = (1 / ff, 0).
Proof.
  unfold patch_term, np_sinc.
  destruct (Req_dec_T (2 * 0 * w) 0) as [_|N]; [|exfalso; lra].
  replace (-2 * PI * 0 * c) with 0 by ring.
  unfold expi. rewrite cos_0, sin_0.
  unfold Cdivr, Cmul, RtoC, Rdiv. simpl. f_equal; ring.
Qed.

(** X15. For one patch and a positive [filter_factor], the matrix that
    lines 28-33 build is Hermitian, [M[j, i] = conj(M[i, j])], and its
    diagonal is the real number [1 + 1 / filter_factor]: the sinc factor
    is even in the frequency difference and the phase factor turns into
    its conjugate when the difference changes sign. *)
Theorem single_patch_matrix_hermitian nf df c w ff h :
  0 < ff ->
  exists T M,
    build_continuous nf (map (fun x => x * df) (arange_sym nf)) [c] [w] ff h
    = (Ok (S (length h)), h ++ [CMat T; CMat M]) /\
    (forall i j, (i < nf)%nat -> (j < nf)%nat ->
       at_entry M j i = Cconj (at_entry M i j)) /\
    (forall i, (i < nf)%nat -> at_entry M i i = (1 + 1 / ff, 0)).
Proof.
  intros Hff. do 2 eexists. split; [|split].
  - apply build_continuous_single. exact Hff.
  - intros i j Hi Hj. unfold at_entry.
    rewrite !entry_single_patch by assumption. simpl.
    replace (spec_freq nf df i - spec_freq nf df j)
      with (- (spec_freq nf df j - spec_freq nf df i)) by ring.
    rewrite patch_term_opp. rewrite (Nat.eqb_sym j i).
    destruct (patch_term _ c w ff) as [a b].
    destruct (Nat.eqb i j); unfold Cconj, Cadd, C1, C0; simpl;
      f_equal; ring.
  - intros i Hi. unfold at_entry.
    rewrite entry_single_patch by assumption. simpl.
    replace (spec_freq nf df i - spec_freq nf df i) with 0 by ring.
    rewrite patch_term_0, Nat.eqb_refl.
    unfold Cadd, C1. simpl. f_equal; ring.
Qed.

Lemma single_patch_matrix_hermitian_witness :
  exists T M,
    build_continuous 2 (map (fun x => x * 1) (arange_sym 2)) [1 / 4] [1 / 4] 1
      example_heap
    = (Ok (S (length example_heap)), example_heap ++ [CMat T; CMat M]) /\
    (forall i j, (i < 2)%nat -> (j < 2)%nat ->
       at_entry M j i = Cconj (at_entry M i j)) /\
    (forall i, (i < 2)%nat -> at_entry M i i = (1 + 1 / 1, 0)).
Proof.
  apply (single_patch_matrix_hermitian 2 1 (1 / 4) (1 / 4) 1 example_heap).
  lra.
Defined.

(** ** The length of the flag mask *)

(** X16. With [weights = "I"] and [zero_flags] set, a flag mask whose
    length differs from the channel count is refused: line 87 raises
    IndexError, after the taper and the identity have been allocated.
    (With [zero_flags] unset the mask is never read.) *)
Theorem flag_mask_of_wrong_length_raises pinv get_window freqs ydata flags ff
    pc pw dom taper cache h fv (fl : list bool) w :
  h !! freqs = Some (RVec fv) -> h !! flags = Some (BVec fl) ->
  get_window taper (length fv) = Ok w ->
  length fl <> length fv ->
  dedekind pinv get_window freqs ydata flags ff pc pw "I" true dom taper
    cache h
  = (Raise IndexError,
     h ++ [RVec (normalise w); CMat (identity (length fv))]).
Proof.
  intros Hf Hfl Hw Hlen.
  assert (Lfl : (flags < length h)%nat) by (eapply lookup_lt_Some; eauto).
  unfold dedekind. rewrite (bind_get_rvec _ _ _ _ Hf).
  unfold bind at 1. unfold forward_stage.
  unfold bind at 1. rewrite (make_taper_run _ _ _ _ _ Hw).
  unfold bind at 1. unfold select_weights.
  rewrite String.eqb_refl, bind_alloc.
  unfold bind at 1. unfold bind at 1.
  unfold get_bvec at 1.
  rewrite lookup_app_l by (rewrite length_app; simpl; lia).
  rewrite lookup_app_l by exact Lfl. rewrite Hfl.
  unfold zero_flagged.
  rewrite (bind_get_mat _ _ _ _ (lookup_snoc_new _ _)).
  rewrite length_identity.
  destruct (Nat.eqb_spec (length fl) (length fv)) as [E|_]; [contradiction|].
  unfold bind, raise. rewrite <- app_assoc. reflexivity.
Qed.

Lemma flag_mask_of_wrong_length_raises_witness :
  dedekind pinv_self boxcar_window 2 4 7 1 9 10 "I" true "delay" "boxcar" 0
    example_heap
  = (Raise IndexError,
     example_heap ++ [RVec (normalise [1; 1]); CMat (identity (length [100; 101]))]).
Proof.
  apply (flag_mask_of_wrong_length_raises pinv_self boxcar_window 2 4 7 1 9 10
           "delay" "boxcar" 0%nat example_heap [100; 101] [false] [1; 1]);
    [reflexivity|reflexivity|reflexivity|simpl; lia].
Defined.

(** ** What the caller gets back in the frequency domain *)

(** X17. With [output_domain = "frequency"] the first component of the
    result is the caller's own frequency array, the same object and not
    a copy (line 109), whatever the weights; the second is a new complex
    array, the last object allocated by the call. *)
Theorem frequency_domain_returns_the_axis_object pinv get_window freqs ydata
    flags ff pc pw weights zf taper cache h x out h' :
  dedekind pinv get_window freqs ydata flags ff pc pw weights zf "frequency"
    taper cache h = (Ok (x, out), h') ->
  x = freqs /\ (length h <= out)%nat /\ S out = length h' /\
  exists v, h' !! out = Some (CVec v).
Proof.
  intros E. unfold dedekind in E.
  apply bind_Ok_inv in E. destruct E as (fv & ? & G & E).
  apply get_rvec_Ok_inv in G. destruct G as [Hf ->].
  apply bind_Ok_inv in E. destruct E as (p & h1 & F & S).
  assert (X1 : ext h h1).
  { eapply safe_forward_stage; [apply ext_refl|exact F]. }
  unfold select_domain in S. rewrite String.eqb_refl in S.
  apply bind_Ok_inv in S. destruct S as (o & ? & G & S).
  apply lift_Ok_inv in G. destruct G as [_ ->].
  apply bind_Ok_inv in S. destruct S as (t & ? & G & S).
  apply get_rvec_Ok_inv in G. destruct G as [_ ->].
  apply bind_Ok_inv in S. destruct S as (v & ? & G & S).
  apply lift_Ok_inv in G. destruct G as [_ ->].
  rewrite bind_alloc in S. unfold ret in S. injection S as <- <- <-.
  split; [reflexivity|]. split; [destruct X1; lia|].
  split; [rewrite length_app; simpl; lia|].
  exists v. apply lookup_snoc_new.
Qed.

Lemma frequency_domain_returns_the_axis_object_witness :
  2%nat = 2%nat /\ (length example_heap <= 13)%nat /\
  14%nat
  = length (dedekind pinv_self boxcar_window 2 4 5 1 9 10 "I" false
              "frequency" "boxcar" 0 example_heap).2 /\
  exists v,
    (dedekind pinv_self boxcar_window 2 4 5 1 9 10 "I" false "frequency"
       "boxcar" 0 example_heap).2 !! 13%nat = Some (CVec v).
Proof.
  apply (frequency_domain_returns_the_axis_object pinv_self boxcar_window
           2 4 5 1 9 10 "I" false "boxcar" 0%nat example_heap 2%nat 13%nat).
  reflexivity.
Defined.

(** ** The loop over the patches (lines 30-32) *)

Lemma continuous_loop_run {A} (l : list A) (a : addr) (T : list (list C))
    (ff : R) :
  0 < ff ->
  forall (m : list (list C)) (h : heap),
    h !! a = Some (CMat m) ->
    for_each l (fun _ =>
      if Rlt_dec 0 ff then
        let! t := lift (Ok T) in
        let! m := get_mat a in
        put a (CMat (mat_add m t))
      else ret tt) h
    = (Ok tt,
       <[a := CMat (Nat.iter (length l) (fun m => mat_add m T) m)]> h).
Proof.
  intros Hff. induction l as [|x l IH]; intros m h Ha.
  - simpl. rewrite list_insert_id by exact Ha. reflexivity.
  - simpl for_each. destruct (Rlt_dec 0 ff) as [_|N]; [|contradiction].
    assert (La : (a < length h)%nat) by (eapply lookup_lt_Some; eauto).
    unfold bind at 1. rewrite bind_lift_Ok, (bind_get_mat _ _ _ _ Ha).
    unfold put at 1. cbv beta iota.
    destruct (Rlt_dec 0 ff) as [_|N] in IH; [|contradiction].
    rewrite (IH (mat_add m T) _ (list_lookup_insert_eq _ _ _ La)).
    rewrite list_insert_insert_eq.
    change (length (x :: l)) with (S (length l)).
    rewrite Nat.iter_succ_r. reflexivity.
Qed.

(** X18. The loop of lines 30-32 adds one and the same matrix once for
    each pair of the zipped patch lists: the summand of line 32 reads the
    lists [patch_c] and [patch_w], not the loop variables [cp] and [cw].
    When that summand [T] can be formed (each list has one entry or [nf]
    entries) and [filter_factor] is positive, the matrix built is
    [T + ... + T + identity] with as many copies of [T] as there are
    pairs, whatever the centres and widths of the single patches are. *)
Theorem continuous_loop_repeats_one_term nf df (cv wv : list R) ff h T :
  0 < ff ->
  continuous_term nf (map (fun x => x * df) (arange_sym nf)) cv wv ff = Ok T ->
  build_continuous nf (map (fun x => x * df) (arange_sym nf)) cv wv ff h
  = (Ok (S (length h)),
     h ++ [CMat (Nat.iter (length (zip cv wv)) (fun m => mat_add m T)
                   (zeros nf));
           CMat (mat_add (Nat.iter (length (zip cv wv))
                            (fun m => mat_add m T) (zeros nf))
                         (identity nf))]).
Proof.
  intros Hff HT. unfold build_continuous. rewrite bind_alloc.
  rewrite HT. unfold bind at 1.
  rewrite (continuous_loop_run (zip cv wv) (length h) T ff Hff (zeros nf)
             (h ++ [CMat (zeros nf)]) (lookup_snoc_new _ _)).
  rewrite insert_snoc.
  rewrite (bind_get_mat _ _ _ _ (lookup_snoc_new _ _)).
  unfold alloc. rewrite length_arange, length_app. simpl length.
  rewrite Nat.add_1_r, <- app_assoc. reflexivity.
Qed.

Lemma continuous_loop_repeats_one_term_witness :
  exists T,
    continuous_term 2 (map (fun x => x * 1) (arange_sym 2)) [0; 5] [1; 7] 1
    = Ok T /\
    build_continuous 2 (map (fun x => x * 1) (arange_sym 2)) [0; 5] [1; 7] 1
      example_heap
    = (Ok (S (length example_heap)),
       example_heap
       ++ [CMat (Nat.iter (length (zip [0; 5] [1; 7]))
                   (fun m => mat_add m T) (zeros 2));
           CMat (mat_add (Nat.iter (length (zip [0; 5] [1; 7]))
                            (fun m => mat_add m T) (zeros 2))
                         (identity 2))]).
Proof.
  eexists. split; [reflexivity|].
  apply (continuous_loop_repeats_one_term 2 1 [0; 5] [1; 7] 1 example_heap);
    [lra|reflexivity].
Defined.
